(** * bombparty-ge: the lobby engine of [server.js]

    A shallow embedding of the server's rate limiter, lobby-code
    generator, settings handler and [Lobby] class, with the properties
    of its specification stated over it.

    Conventions of the embedding.
    - A JavaScript number is a [number]: [NaN], an infinity, or a finite
      value carried as a rational.  Sums, differences and products of
      integers are exact, as they are for doubles below 2^53; where the
      code divides, scales a quotient or steps the turn timer, the
      result is rounded to the nearest double ([JS.fl]).  The sign of
      zero is not represented: a zero divisor is taken to be [+0].
    - A JavaScript string is the list of its UTF-16 code units.
    - [Date.now()], [Math.random()], [uuidv4()] and the random draws of
      avatar, colour and syllable are explicit arguments.
    - Socket emissions and console output are not part of the state and
      are left out; the turn timer and the delayed callbacks are
      represented by what they do to the lobby (see [Lobby]).  The
      periodic AFK check of a lobby is not represented. *)

From Stdlib Require Import QArith Qround Qabs Qpower Lqa.
From stdpp Require Import gmap strings list fin_maps sorting.

Local Open Scope Z_scope.

(** ** JavaScript numbers *)

Module JS.

Inductive number :=
| NaN
| PInf
| NInf
| Num (q : Q).

(** [x < y], [x <= y], [x > y], [x >= y]: every comparison with [NaN]
    is false. *)
Definition lt (x y : number) : bool :=
  match x, y with
  | NaN, _ | _, NaN => false
  | PInf, _ => false
  | _, NInf => false
  | NInf, _ => true
  | _, PInf => true
  | Num a, Num b => if Qlt_le_dec a b then true else false
  end.

Definition le (x y : number) : bool :=
  match x, y with
  | NaN, _ | _, NaN => false
  | NInf, _ => true
  | _, PInf => true
  | PInf, _ => false
  | _, NInf => false
  | Num a, Num b => if Qlt_le_dec b a then false else true
  end.

Definition gt (x y : number) : bool := lt y x.
Definition ge (x y : number) : bool := le y x.

(** [Math.max(x, y)] and [Math.min(x, y)]. *)
Definition max (x y : number) : number :=
  match x, y with
  | NaN, _ | _, NaN => NaN
  | _, _ => if lt x y then y else x
  end.

Definition min (x y : number) : number :=
  match x, y with
  | NaN, _ | _, NaN => NaN
  | _, _ => if lt y x then y else x
  end.

Definition neg (x : number) : number :=
  match x with
  | NaN => NaN
  | PInf => NInf
  | NInf => PInf
  | Num a => Num (- a)%Q
  end.

Definition add (x y : number) : number :=
  match x, y with
  | NaN, _ | _, NaN => NaN
  | PInf, NInf | NInf, PInf => NaN
  | PInf, _ | _, PInf => PInf
  | NInf, _ | _, NInf => NInf
  | Num a, Num b => Num (a + b)%Q
  end.

Definition sub (x y : number) : number := add x (neg y).

(** The sign of a number: [Lt], [Eq] (zero) or [Gt]; [None] for [NaN]. *)
Definition sign (x : number) : option comparison :=
  match x with
  | NaN => None
  | PInf => Some Gt
  | NInf => Some Lt
  | Num a => Some (a ?= 0)%Q
  end.

Definition signed_inf (s t : comparison) : number :=
  match s, t with
  | Eq, _ | _, Eq => NaN
  | Lt, Lt | Gt, Gt => PInf
  | _, _ => NInf
  end.

Definition mul (x y : number) : number :=
  match x, y with
  | Num a, Num b => Num (a * b)%Q
  | _, _ =>
      match sign x, sign y with
      | Some s, Some t => signed_inf s t
      | _, _ => NaN
      end
  end.

Definition div (x y : number) : number :=
  match x, y with
  | NaN, _ | _, NaN => NaN
  | Num a, Num b =>
      match (b ?= 0)%Q with
      | Eq => signed_inf (a ?= 0)%Q Gt
      | _ => Num (a / b)%Q
      end
  | Num _, _ => Num 0%Q
  | _, Num b =>
      match sign x with
      | Some s => signed_inf s (match (b ?= 0)%Q with Eq => Gt | c => c end)
      | None => NaN
      end
  | _, _ => NaN
  end.

(** [Math.round]: the nearest integer, a tie going up. *)
Definition round (x : number) : number :=
  match x with
  | Num a => Num (inject_Z (Qfloor (a + (1 # 2))))
  | _ => x
  end.

(** *** Rounding to a double

    [roundHalfEven x] is the integer nearest to [x], a tie going to the
    even one. *)
Definition roundHalfEven (x : Q) : Z :=
  let f := Qfloor x in
  match (x - inject_Z f ?= 1 # 2)%Q with
  | Lt => f
  | Gt => f + 1
  | Eq => if Z.even f then f else f + 1
  end.

(** The integer part of the binary logarithm of a positive rational. *)
Definition ilog2 (a : Q) : Z :=
  let k := Z.log2 (Qnum a) - Z.log2 (Zpos (Qden a)) in
  if Qle_bool (2 ^ k) a then k else k - 1.

(** The binary64 value nearest to [q], a tie going to the even
    significand: 53 bits of significand, the least exponent of a unit in
    the last place [-1074] (below it the result is subnormal or zero),
    and an infinity from [2^1024 - 2^970] on. *)
Definition fl (q : Q) : number :=
  match (q ?= 0)%Q with
  | Eq => Num 0
  | c =>
      let a := Qabs q in
      let e := Z.max (ilog2 a - 52) (-1074) in
      let r := (inject_Z (roundHalfEven (a / 2 ^ e)) * 2 ^ e)%Q in
      if Qle_bool (2 ^ 1024) r then match c with Lt => NInf | _ => PInf end
      else Num (Qred match c with Lt => - r | _ => r end)
  end.

(** The result of an operation on doubles: the exact result, rounded. *)
Definition rnd (x : number) : number :=
  match x with
  | Num q => fl q
  | _ => x
  end.

(** Truthiness of a number: [0] and [NaN] are falsy. *)
Definition truthy (x : number) : bool :=
  match x with
  | NaN => false
  | Num a => negb (Qeq_bool a 0)
  | _ => true
  end.

Definition of_Z (z : Z) : number := Num (inject_Z z).
Definition of_nat (n : nat) : number := of_Z (Z.of_nat n).

(** A finite number between two integer bounds. *)
Definition within (lo hi : Z) (x : number) : Prop :=
  match x with
  | Num a => (inject_Z lo <= a)%Q ∧ (a <= inject_Z hi)%Q
  | _ => False
  end.

(** A string as its UTF-16 code units. *)
Definition jsstring := list N.

(** The code units of an ASCII literal. *)
Fixpoint lit (s : string) : jsstring :=
  match s with
  | EmptyString => []
  | String c r => Ascii.N_of_ascii c :: lit r
  end.

(** The values a socket.io payload field can hold.  [JObj] is a plain
    object literal, whose conversion to a number is [NaN]. *)
Inductive value :=
| JUndefined
| JNull
| JBool (b : bool)
| JNum (x : number)
| JStr (s : jsstring)
| JObj.

Definition truthy_value (v : value) : bool :=
  match v with
  | JUndefined | JNull => false
  | JBool b => b
  | JNum x => truthy x
  | JStr s => negb (bool_decide (s = []))
  | JObj => true
  end.

End JS.

(** ** Input sanitization *)

Module Sanitize.
Import JS.

(** [/<[^>]*>/g] replaced by the empty string: scanning from the left,
    a [<] that is followed somewhere by a [>] is removed together with
    everything up to the first such [>]. *)
Definition has_gt (s : jsstring) : bool := bool_decide (62%N ∈ s).

Fixpoint stripTags (s : jsstring) : jsstring :=
  match s with
  | [] => []
  | c :: r =>
      if bool_decide (c = 60%N) && has_gt r then insideTag r else c :: stripTags r
  end
with insideTag (s : jsstring) : jsstring :=
  match s with
  | [] => []
  | c :: r => if bool_decide (c = 62%N) then stripTags r else insideTag r
  end.

(** The second replacement removes the characters [<], [>], [&], the
    double quote, the single quote and the backquote. *)
Definition dangerous (c : N) : bool :=
  bool_decide (c ∈ [60; 62; 38; 34; 39; 96]%N).

(** The control characters U+0000 to U+001F and U+007F. *)
Definition control (c : N) : bool :=
  bool_decide (c <= 31)%N || bool_decide (c = 127%N).

(** The code units [String.prototype.trim] removes. *)
Definition whitespace (c : N) : bool :=
  bool_decide (c ∈ [9; 10; 11; 12; 13; 32; 160; 5760; 8232; 8233; 8239; 8287;
                    12288; 65279]%N)
  || (bool_decide (8192 <= c)%N && bool_decide (c <= 8202)%N).

Fixpoint dropWhile {A} (f : A → bool) (s : list A) : list A :=
  match s with
  | [] => []
  | c :: r => if f c then dropWhile f r else s
  end.

Definition trim (s : jsstring) : jsstring :=
  reverse (dropWhile whitespace (reverse (dropWhile whitespace s))).

Definition sanitizeText (text : value) (maxLength : nat) : jsstring :=
  match text with
  | JStr s =>
      trim (take maxLength (filter (λ c, negb (dangerous c)) (stripTags s)))
  | _ => []
  end.

Definition sanitizeName (name : value) (maxLength : nat) : jsstring :=
  match name with
  | JStr s =>
      let sanitized :=
        trim (take maxLength
                (filter (λ c, negb (control c))
                   (filter (λ c, negb (dangerous c)) (stripTags s)))) in
      if bool_decide (sanitized = []) then lit "Guest" else sanitized
  | _ => lit "Guest"
  end.

(** A string that neither starts nor ends with white space. *)
Definition trimmed (s : jsstring) : Prop :=
  (∀ c r, s = c :: r → whitespace c = false)
  ∧ (∀ c r, s = r ++ [c] → whitespace c = false).

End Sanitize.

(** ** Rate limiting *)

Module RateLimiter.

(** [`${socketId}:${event}`] *)
Definition key (socketId event : string) : string :=
  socketId +:+ ":" +:+ event.

(** [while (timestamps.length > 0 && timestamps[0] < bound) timestamps.shift()] *)
Fixpoint prune (bound : Z) (timestamps : list Z) : list Z :=
  match timestamps with
  | [] => []
  | t :: rest =>
      if bool_decide (t < bound) then prune bound rest else timestamps
  end.

(** [isRateLimited] at clock value [now]: the answer and the map
    [rateLimits] afterwards. *)
Definition isRateLimited (socketId event : string) (maxRequests windowMs : Z)
    (now : Z) (rateLimits : gmap string (list Z)) : bool * gmap string (list Z) :=
  let k := key socketId event in
  let timestamps := prune (now - windowMs) (default [] (rateLimits !! k)) in
  if bool_decide (maxRequests <= Z.of_nat (length timestamps))
  then (true, <[k := timestamps]> rateLimits)
  else (false, <[k := timestamps ++ [now]]> rateLimits).

(** The timestamps of a list that lie in the window ending at [now]. *)
Definition inWindow (windowMs now : Z) (timestamps : list Z) : list Z :=
  filter (λ t, now - windowMs <= t) timestamps.

(** The periodic clean-up, run every 30 s: the timestamps older than
    ten seconds are shifted off the front of every entry, and an entry
    left empty is deleted. *)
Definition sweep (now : Z) (rateLimits : gmap string (list Z))
    : gmap string (list Z) :=
  omap (λ timestamps,
          let timestamps := prune (now - 10000) timestamps in
          if bool_decide (length timestamps = 0)%nat then None
          else Some timestamps) rateLimits.

(** A run of attempts of one kind from one socket at the clock values
    [nows]: the clock values of the attempts that were let through, in
    order, and the map afterwards. *)
Definition attempt (socketId event : string) (maxRequests windowMs : Z)
    (st : list Z * gmap string (list Z)) (now : Z)
    : list Z * gmap string (list Z) :=
  let (limited, rl) :=
    isRateLimited socketId event maxRequests windowMs now st.2 in
  (if limited then st.1 else st.1 ++ [now], rl).

Definition attempts (socketId event : string) (maxRequests windowMs : Z)
    (nows : list Z) (rateLimits : gmap string (list Z))
    : list Z * gmap string (list Z) :=
  fold_left (attempt socketId event maxRequests windowMs) nows ([], rateLimits).

(** What a run of attempts keeps true: the attempts let through are the
    stored timestamps preceded by timestamps that have left the window,
    and at most [maxRequests] are stored. *)
Definition run_inv (socketId event : string) (N W now : Z)
    (st : list Z * gmap string (list Z)) : Prop :=
  let stored := default [] (st.2 !! key socketId event) in
  Z.of_nat (length stored) <= N
  ∧ ∃ dropped, st.1 = dropped ++ stored ∧ Forall (λ t, t < now - W) dropped.

End RateLimiter.

(** ** Helper functions *)

Module Helpers.
Import JS.

Definition chars : jsstring := lit "ABCDEFGHJKLMNPQRSTUVWXYZ23456789".

(** [s.charAt(i)] for an integral [i]. *)
Definition charAt (s : jsstring) (i : Z) : jsstring :=
  if bool_decide (i < 0) then []
  else match s !! Z.to_nat i with Some c => [c] | None => [] end.

(** [generateLobbyCode], [random i] being the value of the [i]-th call
    of [Math.random()]. *)
Fixpoint generateLobbyCode_from (random : nat → Q) (i n : nat) (code : jsstring)
    : jsstring :=
  match n with
  | O => code
  | S n' =>
      generateLobbyCode_from random (S i) n'
        (code ++ charAt chars
                   (Qfloor (random i * inject_Z (Z.of_nat (length chars)))))
  end.

Definition generateLobbyCode (random : nat → Q) : jsstring :=
  generateLobbyCode_from random 0 6 [].

(** The glyphs left out of [chars]: I, O, 0 and 1. *)
Definition ambiguous : jsstring := lit "IO01".






End Helpers.

(** ** Sorting *)

Module JSArray.
Import JS.

(** [Array.prototype.sort] with a comparison function.  The sort is
    stable, and for a consistent comparison function every stable sort
    gives the same array; it is written here as an insertion sort.  A
    result of the comparison that is not greater than zero ([NaN]
    included) leaves the two elements in their order. *)
Fixpoint insertBy {A} (compareFn : A → A → number) (x : A) (sorted : list A)
    : list A :=
  match sorted with
  | [] => [x]
  | y :: rest =>
      if gt (compareFn x y) (Num 0) then y :: insertBy compareFn x rest
      else x :: sorted
  end.

Definition sortBy {A} (compareFn : A → A → number) (a : list A) : list A :=
  foldr (insertBy compareFn) [] a.

End JSArray.

(** ** The dictionary *)

Module Dictionary.
Import JS.

(** [s.split(sep)] for a separator of one code unit. *)
Fixpoint splitOn (sep : N) (s : jsstring) : list jsstring :=
  match s with
  | [] => [[]]
  | c :: r =>
      if bool_decide (c = sep) then [] :: splitOn sep r
      else match splitOn sep r with
           | piece :: pieces => (c :: piece) :: pieces
           | [] => [[c]]
           end
  end.

(** [line.trim().split(' ')[0]] *)
Definition firstToken (line : jsstring) : jsstring :=
  match splitOn 32 (Sanitize.trim line) with
  | token :: _ => token
  | [] => []
  end.

(** The first token of each line of the file. *)
Definition entriesOf (data : jsstring) : list jsstring :=
  map firstToken (splitOn 10 data).

(** [WORDS] as [loadWords] assigns it. *)
Definition wordsOf (data : jsstring) : list jsstring :=
  filter (λ word, 2 ≤ length word)%nat (entriesOf data).

(** [s.substring(i, j)] for [i <= j]. *)
Definition substring (s : jsstring) (i j : nat) : jsstring :=
  take (j - i) (drop i s).

(** [syllableMap.set(syl, (syllableMap.get(syl) || 0) + 1)] on a map
    kept as the list of its entries in insertion order. *)
Fixpoint bump (syl : jsstring) (syllableMap : list (jsstring * nat))
    : list (jsstring * nat) :=
  match syllableMap with
  | [] => [(syl, 1%nat)]
  | (k, count) :: rest =>
      if bool_decide (k = syl) then (k, S count) :: rest
      else (k, count) :: bump syl rest
  end.

(** The body of the loop over [i]. *)
Definition countAt (word : jsstring) (syllableMap : list (jsstring * nat))
    (i : nat) : list (jsstring * nat) :=
  let syl2 := substring word i (i + 2) in
  let syllableMap := bump syl2 syllableMap in
  if bool_decide (i < length word - 2)%nat
  then bump (substring word i (i + 3)) syllableMap
  else syllableMap.

(** The body of [WORDS.forEach]. *)
Definition countWord (syllableMap : list (jsstring * nat)) (word : jsstring)
    : list (jsstring * nat) :=
  if bool_decide (3 ≤ length word)%nat
  then fold_left (countAt word) (seq 0 (length word - 1)) syllableMap
  else syllableMap.

Definition syllableMapOf (WORDS : list jsstring) : list (jsstring * nat) :=
  fold_left countWord WORDS [].

(** [SYLLABLES] as [loadWords] assigns it from the counts. *)
Definition syllablesOf (WORDS : list jsstring) : list jsstring :=
  map fst
    (take 200
       (JSArray.sortBy (λ a b, sub (of_nat (snd b)) (of_nat (snd a)))
          (filter (λ entry, 50 <= Z.of_nat (snd entry)
                            ∧ Z.of_nat (snd entry) <= 15000
                            ∧ (2 ≤ length (fst entry))%nat)
             (syllableMapOf WORDS)))).

(** The syllables used when the file cannot be read. *)
Definition fallbackSyllables : list jsstring :=
  [ [4304; 4316]; [4312; 4321]; [4308; 4320]; [4317; 4305]; [4304; 4321];
    [4312; 4311]; [4323; 4320]; [4308; 4314]; [4304; 4320]; [4308; 4305] ]%N.

(** [loadWords]: the pair of [WORDS] and [SYLLABLES] afterwards.  [file]
    is the content of [ka_GE.txt], or [None] when reading it throws. *)
Definition loadWords (file : option jsstring) : list jsstring * list jsstring :=
  match file with
  | Some data => (wordsOf data, syllablesOf (wordsOf data))
  | None => ([], fallbackSyllables)
  end.

(** The keys of a syllable map are distinct and all satisfy [Q]. *)
Definition keys_ok (Q : jsstring → Prop) (syllableMap : list (jsstring * nat))
    : Prop :=
  NoDup syllableMap.*1 ∧ Forall Q syllableMap.*1.

End Dictionary.

(** ** The [Lobby] class *)

Module Lobby.
Import JS Sanitize.

Inductive State := waiting | playing | finished.

(** A seat of the roster.  [disconnectedAt], [score] and
    [wordsCompleted] are absent ([None]) on a seat that [addPlayer] has
    just made. *)
Record Player := mkPlayer {
  player_id : string;
  player_name : jsstring;
  avatar : jsstring;
  color : string;
  lives : number;
  isConnected : bool;
  isReady : bool;
  currentInput : jsstring;
  joinedAt : Z;
  disconnectedAt : option Z;
  score : option number;
  wordsCompleted : option number
}.

Record Settings := mkSettings {
  maxPlayers : number;
  startLives : number;
  turnTime : number;
  minWordLength : number;
  isPublic : bool
}.

(** The fields of a lobby.  [currentTurnIndex] only ever holds a
    natural number or [NaN] (the result of [% 0]); [None] stands for
    [NaN].  [timer] tells whether the interval held in [this.timer] is
    still scheduled: [setInterval] sets it, [clearInterval] resets it. *)
Record t := mkLobby {
  lobby_id : string;
  code : jsstring;
  lobby_name : jsstring;
  hostId : string;
  originalHostId : string;
  players : list Player;
  state : State;
  settings : Settings;
  currentTurnIndex : option nat;
  currentSyllable : jsstring;
  usedWords : gset jsstring;
  timer : bool;
  timerValue : number;
  lastActivity : Z;
  turnStartTime : Z;
  turnLocked : bool
}.

#[global] Instance State_eq_dec : EqDecision State.
Proof. solve_decision. Defined.

(** *** Field updates *)

Definition set_lives (v : number) (p : Player) : Player :=
  mkPlayer (player_id p) (player_name p) (avatar p) (color p) v (isConnected p)
    (isReady p) (currentInput p) (joinedAt p) (disconnectedAt p) (score p)
    (wordsCompleted p).

Definition set_isReady (v : bool) (p : Player) : Player :=
  mkPlayer (player_id p) (player_name p) (avatar p) (color p) (lives p)
    (isConnected p) v (currentInput p) (joinedAt p) (disconnectedAt p) (score p)
    (wordsCompleted p).

Definition set_currentInput (v : jsstring) (p : Player) : Player :=
  mkPlayer (player_id p) (player_name p) (avatar p) (color p) (lives p)
    (isConnected p) (isReady p) v (joinedAt p) (disconnectedAt p) (score p)
    (wordsCompleted p).

Definition set_score (v : option number) (p : Player) : Player :=
  mkPlayer (player_id p) (player_name p) (avatar p) (color p) (lives p)
    (isConnected p) (isReady p) (currentInput p) (joinedAt p) (disconnectedAt p)
    v (wordsCompleted p).

Definition set_wordsCompleted (v : option number) (p : Player) : Player :=
  mkPlayer (player_id p) (player_name p) (avatar p) (color p) (lives p)
    (isConnected p) (isReady p) (currentInput p) (joinedAt p) (disconnectedAt p)
    (score p) v.

Definition set_hostId (v : string) (l : t) : t :=
  mkLobby (lobby_id l) (code l) (lobby_name l) v (originalHostId l) (players l)
    (state l) (settings l) (currentTurnIndex l) (currentSyllable l) (usedWords l)
    (timer l) (timerValue l) (lastActivity l) (turnStartTime l) (turnLocked l).

Definition set_players (v : list Player) (l : t) : t :=
  mkLobby (lobby_id l) (code l) (lobby_name l) (hostId l) (originalHostId l) v
    (state l) (settings l) (currentTurnIndex l) (currentSyllable l) (usedWords l)
    (timer l) (timerValue l) (lastActivity l) (turnStartTime l) (turnLocked l).

Definition set_state (v : State) (l : t) : t :=
  mkLobby (lobby_id l) (code l) (lobby_name l) (hostId l) (originalHostId l)
    (players l) v (settings l) (currentTurnIndex l) (currentSyllable l)
    (usedWords l) (timer l) (timerValue l) (lastActivity l) (turnStartTime l)
    (turnLocked l).

Definition set_settings (v : Settings) (l : t) : t :=
  mkLobby (lobby_id l) (code l) (lobby_name l) (hostId l) (originalHostId l)
    (players l) (state l) v (currentTurnIndex l) (currentSyllable l)
    (usedWords l) (timer l) (timerValue l) (lastActivity l) (turnStartTime l)
    (turnLocked l).

Definition set_currentTurnIndex (v : option nat) (l : t) : t :=
  mkLobby (lobby_id l) (code l) (lobby_name l) (hostId l) (originalHostId l)
    (players l) (state l) (settings l) v (currentSyllable l) (usedWords l)
    (timer l) (timerValue l) (lastActivity l) (turnStartTime l) (turnLocked l).

Definition set_currentSyllable (v : jsstring) (l : t) : t :=
  mkLobby (lobby_id l) (code l) (lobby_name l) (hostId l) (originalHostId l)
    (players l) (state l) (settings l) (currentTurnIndex l) v (usedWords l)
    (timer l) (timerValue l) (lastActivity l) (turnStartTime l) (turnLocked l).

Definition set_usedWords (v : gset jsstring) (l : t) : t :=
  mkLobby (lobby_id l) (code l) (lobby_name l) (hostId l) (originalHostId l)
    (players l) (state l) (settings l) (currentTurnIndex l) (currentSyllable l) v
    (timer l) (timerValue l) (lastActivity l) (turnStartTime l) (turnLocked l).

Definition set_timer (v : bool) (l : t) : t :=
  mkLobby (lobby_id l) (code l) (lobby_name l) (hostId l) (originalHostId l)
    (players l) (state l) (settings l) (currentTurnIndex l) (currentSyllable l)
    (usedWords l) v (timerValue l) (lastActivity l) (turnStartTime l)
    (turnLocked l).

Definition set_timerValue (v : number) (l : t) : t :=
  mkLobby (lobby_id l) (code l) (lobby_name l) (hostId l) (originalHostId l)
    (players l) (state l) (settings l) (currentTurnIndex l) (currentSyllable l)
    (usedWords l) (timer l) v (lastActivity l) (turnStartTime l) (turnLocked l).

Definition set_lastActivity (v : Z) (l : t) : t :=
  mkLobby (lobby_id l) (code l) (lobby_name l) (hostId l) (originalHostId l)
    (players l) (state l) (settings l) (currentTurnIndex l) (currentSyllable l)
    (usedWords l) (timer l) (timerValue l) v (turnStartTime l) (turnLocked l).

Definition set_turnStartTime (v : Z) (l : t) : t :=
  mkLobby (lobby_id l) (code l) (lobby_name l) (hostId l) (originalHostId l)
    (players l) (state l) (settings l) (currentTurnIndex l) (currentSyllable l)
    (usedWords l) (timer l) (timerValue l) (lastActivity l) v (turnLocked l).

Definition set_turnLocked (v : bool) (l : t) : t :=
  mkLobby (lobby_id l) (code l) (lobby_name l) (hostId l) (originalHostId l)
    (players l) (state l) (settings l) (currentTurnIndex l) (currentSyllable l)
    (usedWords l) (timer l) (timerValue l) (lastActivity l) (turnStartTime l) v.

(** *** Small pieces of JavaScript *)

(** [o || 0] for a numeric property that may be absent. *)
Definition or0 (o : option number) : number :=
  match o with
  | Some x => if truthy x then x else Num 0
  | None => Num 0
  end.

(** [a % n] for naturals: [NaN] when [n] is zero. *)
Definition jsmod (a n : nat) : option nat :=
  match n with
  | O => None
  | _ => Some (a mod n)%nat
  end.

(** [(i + 1) % n] for a turn index [i]. *)
Definition advance (i : option nat) (n : nat) : option nat :=
  match i with
  | Some c => jsmod (c + 1) n
  | None => None
  end.

(** [this.players[this.currentTurnIndex]] *)
Definition currentPlayer (l : t) : option Player :=
  match currentTurnIndex l with
  | Some c => players l !! c
  | None => None
  end.

(** [players.findIndex(p => p.id === playerId)] *)
Fixpoint findIndex (playerId : string) (ps : list Player) : option nat :=
  match ps with
  | [] => None
  | p :: r =>
      if bool_decide (player_id p = playerId) then Some O
      else S <$> findIndex playerId r
  end.

(** [s.includes(sub)] *)
Fixpoint isPrefix (sub s : jsstring) : bool :=
  match sub, s with
  | [], _ => true
  | _ :: _, [] => false
  | a :: sub', b :: s' => bool_decide (a = b) && isPrefix sub' s'
  end.

Fixpoint includes (s sub : jsstring) : bool :=
  isPrefix sub s ||
  match s with
  | [] => false
  | _ :: r => includes r sub
  end.

(** *** The word oracle

    [String.prototype.toLowerCase] and the contents of the dictionary
    file are inputs of the engine. *)

Section Engine.

Variable toLowerCase : jsstring → jsstring.

(** The first token of each line of [ka_GE.txt]. *)
Variable entries : list jsstring.

(** [WORDS] after [loadWords]: the entries of at least two code units. *)
Definition WORDS : list jsstring :=
  filter (λ w, 2 ≤ length w)%nat entries.

Definition validateWord (word syllable : jsstring) : bool :=
  if bool_decide (word = []) || bool_decide (length word < 2)%nat then false
  else
    let lowerWord := toLowerCase word in
    let lowerSyl := toLowerCase syllable in
    if negb (includes lowerWord lowerSyl) then false
    else existsb (λ w, bool_decide (toLowerCase w = lowerWord)) WORDS.

(** *** Methods *)

Definition getAlivePlayers (l : t) : list Player :=
  filter (λ p, gt (lives p) (Num 0) = true) (players l).

(** [endGame], up to the scheduling of the reset; the ranking it
    computes is only broadcast. *)
Definition endGame (l : t) : t :=
  set_state finished (set_timer false l).

(** The callback [endGame] schedules for 5000 ms later. *)
Definition endGame_later (l : t) : t :=
  let l1 := set_state waiting l in
  set_players
    (map (λ p, set_wordsCompleted (Some (Num 0))
                 (set_score (Some (Num 0))
                    (set_lives (startLives (settings l1))
                       (set_isReady false p))))
       (players l1)) l1.

Definition addPlayer (playerId : string) (playerName : value)
    (randomAvatar : jsstring) (randomColor : string) (now : Z) (l : t) : bool * t :=
  if ge (of_nat (length (players l))) (maxPlayers (settings l)) then (false, l)
  else if bool_decide (is_Some (findIndex playerId (players l))) then (true, l)
  else
    let safeName := sanitizeName playerName 20 in
    let player :=
      {| player_id := playerId; player_name := safeName;
         avatar := randomAvatar; color := randomColor;
         lives := startLives (settings l); isConnected := true;
         isReady := false; currentInput := []; joinedAt := now;
         disconnectedAt := None; score := None; wordsCompleted := None |} in
    let l1 := set_players (players l ++ [player]) l in
    let l2 := set_lastActivity now l1 in
    let l3 :=
      if bool_decide (playerId = originalHostId l2) then set_hostId playerId l2
      else l2 in
    (true, l3).

Definition removePlayer (playerId : string) (now : Z) (l : t) : t :=
  match findIndex playerId (players l) with
  | None => l
  | Some index =>
      let l1 := set_players (delete index (players l)) l in
      let l2 := set_lastActivity now l1 in
      let l3 :=
        if bool_decide (hostId l2 = playerId)
           && bool_decide (0 < length (players l2))%nat
        then
          if bool_decide (playerId ≠ originalHostId l2)
          then match players l2 with
               | p0 :: _ => set_hostId (player_id p0) l2
               | [] => l2
               end
          else l2
        else l2 in
      if bool_decide (state l3 = playing) then
        let l4 :=
          match currentTurnIndex l3 with
          | Some c =>
              if bool_decide (index < c)%nat
              then set_currentTurnIndex (Some (c - 1)%nat) l3
              else if bool_decide (index = c)
              then set_currentTurnIndex
                     (jsmod c (Nat.max 1 (length (players l3)))) l3
              else l3
          | None => l3
          end in
        if bool_decide (length (getAlivePlayers l4) ≤ 1)%nat then endGame l4
        else l4
      else l3
  end.

(** The loop of [nextTurn]; [fuel] is [players.length - checks]. *)
Fixpoint skipEliminated (ps : list Player) (fuel : nat) (i : option nat)
    : option nat :=
  match fuel with
  | O => i
  | S fuel' =>
      match i with
      | Some c =>
          match ps !! c with
          | Some p =>
              if le (lives p) (Num 0)
              then skipEliminated ps fuel' (jsmod (c + 1) (length ps))
              else i
          | None => i
          end
      | None => i
      end
  end.

Definition nextTurn (randomSyllable : jsstring) (now : Z) (l : t) : t :=
  let l1 := set_turnLocked false l in
  let l2 :=
    set_currentTurnIndex
      (skipEliminated (players l1) (length (players l1)) (currentTurnIndex l1))
      l1 in
  let l3 := set_currentSyllable randomSyllable l2 in
  let l4 := set_timerValue (turnTime (settings l3)) l3 in
  let l5 := set_turnStartTime now l4 in
  let l6 := set_lastActivity now l5 in
  set_timer true l6.

Definition startGame (randomSyllable : jsstring) (now : Z) (l : t) : bool * t :=
  let readyPlayers := filter (λ p, isReady p && isConnected p = true) (players l) in
  if bool_decide (length readyPlayers < 2)%nat then (false, l)
  else
    let l1 := set_players readyPlayers l in
    let l2 := set_state playing l1 in
    let l3 := set_usedWords ∅ l2 in
    let l4 := set_currentTurnIndex (Some O) l3 in
    let l5 :=
      set_players
        (map (λ p, set_wordsCompleted (Some (Num 0))
                     (set_score (Some (Num 0))
                        (set_currentInput []
                           (set_lives (startLives (settings l4)) p))))
           (players l4)) l4 in
    (true, nextTurn randomSyllable now l5).

(** [handleTimeout], up to the scheduling of its continuation.  The
    second component is the length of [alivePlayers], which the
    continuation captures; it is [None] when the method returns early
    and schedules nothing. *)
Definition handleTimeout (l : t) : t * option nat :=
  let l1 := set_timer false l in
  let l2 := set_turnLocked true l1 in
  match currentTurnIndex l2, currentPlayer l2 with
  | Some c, Some loser =>
      let loser' := set_currentInput [] (set_lives (sub (lives loser) (Num 1)) loser) in
      let l3 := set_players (<[c := loser']> (players l2)) l2 in
      (l3, Some (length (getAlivePlayers l3)))
  | _, _ => (l2, None)
  end.

(** The callback [handleTimeout] schedules for 1500 ms later. *)
Definition handleTimeout_later (alivePlayers : nat) (randomSyllable : jsstring)
    (now : Z) (l : t) : t :=
  if bool_decide (alivePlayers ≤ 1)%nat then endGame l
  else
    nextTurn randomSyllable now
      (set_currentTurnIndex
         (advance (currentTurnIndex l) (length (players l))) l).

(** The interval callback that [nextTurn] installs, run every 50 ms
    while the interval is scheduled. *)
Definition timerTick (l : t) : t * option nat :=
  let l1 := set_timerValue (rnd (sub (timerValue l) (fl (5 # 100)))) l in
  if le (timerValue l1) (Num 0) then handleTimeout l1 else (l1, None).

(** What the scheduler does at a 50 ms mark: a cleared interval does
    not run. *)
Definition intervalFires (l : t) : t * option nat :=
  if timer l then timerTick l else (l, None).

Inductive SubmitResult :=
| Success
| Failure (reason : string).

Definition normalize (word : value) : jsstring :=
  toLowerCase (sanitizeText word 50).

(** The points [submitWord] awards for [normalizedWord]. *)
Definition totalScore (normalizedWord : jsstring) (l : t) : number :=
  let timeRemaining := max (Num 0) (timerValue l) in
  let wordLength := of_nat (length normalizedWord) in
  let baseScore := mul wordLength (Num 10) in
  let speedBonus :=
    round (rnd (mul (rnd (div timeRemaining (turnTime (settings l)))) (Num 50))) in
  let lengthBonus := max (Num 0) (mul (sub wordLength (Num 5)) (Num 5)) in
  add (add baseScore speedBonus) lengthBonus.

(** [submitWord], up to the scheduling of its continuation. *)
Definition submitWord (playerId : string) (word : value) (now : Z) (l : t)
    : SubmitResult * t :=
  if bool_decide (state l ≠ playing) then (Failure "Game not in progress", l)
  else if turnLocked l then (Failure "Too late! Time ran out", l)
  else
    match currentTurnIndex l, currentPlayer l with
    | Some c, Some currentPlayer =>
        if bool_decide (player_id currentPlayer ≠ playerId)
        then (Failure "Not your turn", l)
        else if le (lives currentPlayer) (Num 0)
        then (Failure "You are eliminated", l)
        else if negb (isConnected currentPlayer)
        then (Failure "Player disconnected", l)
        else
          match word with
          | JStr _ =>
              let normalizedWord := normalize word in
              if lt (of_nat (length normalizedWord)) (minWordLength (settings l))
              then (Failure "Word too short", l)
              else if bool_decide (normalizedWord ∈ usedWords l)
              then (Failure "Word already used", l)
              else if negb (validateWord normalizedWord (currentSyllable l))
              then (Failure "Invalid word or doesn't contain syllable", l)
              else
                let l1 := set_usedWords ({[normalizedWord]} ∪ usedWords l) l in
                let p1 := set_currentInput [] currentPlayer in
                let l2 := set_lastActivity now l1 in
                let l3 := set_timer false l2 in
                let p2 :=
                  set_score
                    (Some (add (or0 (score p1)) (totalScore normalizedWord l3)))
                    p1 in
                let p3 :=
                  set_wordsCompleted
                    (Some (add (or0 (wordsCompleted p2)) (Num 1))) p2 in
                (Success, set_players (<[c := p3]> (players l3)) l3)
          | _ => (Failure "Invalid input", l)
          end
    | _, _ => (Failure "Not your turn", l)
    end.

(** The callback [submitWord] schedules for 500 ms later. *)
Definition submitWord_later (randomSyllable : jsstring) (now : Z) (l : t) : t :=
  nextTurn randomSyllable now
    (set_currentTurnIndex
       (advance (currentTurnIndex l) (length (players l))) l).

(** What [submitWord] does when it accepts [normalizedWord] from the
    player [p] seated at index [c]. *)
Definition accepted (c : nat) (p : Player) (normalizedWord : jsstring) (now : Z)
    (l : t) : t :=
  let l3 :=
    set_timer false
      (set_lastActivity now
         (set_usedWords ({[normalizedWord]} ∪ usedWords l) l)) in
  let p1 := set_currentInput [] p in
  let p2 :=
    set_score (Some (add (or0 (score p1)) (totalScore normalizedWord l3))) p1 in
  let p3 := set_wordsCompleted (Some (add (or0 (wordsCompleted p2)) (Num 1))) p2 in
  set_players (<[c := p3]> (players l3)) l3.

(** The checks of [submitWord], in the terms of the code. *)
Definition passes (playerId : string) (word : value) (l : t) (c : nat)
    (p : Player) : Prop :=
  state l = playing ∧ turnLocked l = false
  ∧ currentTurnIndex l = Some c ∧ players l !! c = Some p
  ∧ player_id p = playerId ∧ le (lives p) (Num 0) = false
  ∧ isConnected p = true ∧ (∃ s, word = JStr s)
  ∧ lt (of_nat (length (normalize word))) (minWordLength (settings l)) = false
  ∧ (normalize word ∉ usedWords l)
  ∧ validateWord (normalize word) (currentSyllable l) = true.

(** *** The operations on a lobby, as one type *)

Inductive Op :=
| OpAddPlayer (playerId : string) (playerName : value) (randomAvatar : jsstring)
    (randomColor : string) (now : Z)
| OpRemovePlayer (playerId : string) (now : Z)
| OpStartGame (randomSyllable : jsstring) (now : Z)
| OpNextTurn (randomSyllable : jsstring) (now : Z)
| OpHandleTimeout
| OpHandleTimeoutLater (alivePlayers : nat) (randomSyllable : jsstring) (now : Z)
| OpSubmitWord (playerId : string) (word : value) (now : Z)
| OpSubmitWordLater (randomSyllable : jsstring) (now : Z)
| OpEndGame
| OpEndGameLater.

Definition run (o : Op) (l : t) : t :=
  match o with
  | OpAddPlayer playerId playerName av col now =>
      (addPlayer playerId playerName av col now l).2
  | OpRemovePlayer playerId now => removePlayer playerId now l
  | OpStartGame syl now => (startGame syl now l).2
  | OpNextTurn syl now => nextTurn syl now l
  | OpHandleTimeout => (handleTimeout l).1
  | OpHandleTimeoutLater alive syl now => handleTimeout_later alive syl now l
  | OpSubmitWord playerId word now => (submitWord playerId word now l).2
  | OpSubmitWordLater syl now => submitWord_later syl now l
  | OpEndGame => endGame l
  | OpEndGameLater => endGame_later l
  end.

(** What can happen to a lobby between a turn's outcome and the
    callback that starts the next turn: a submission arrives, or a 50 ms
    mark of the interval passes. *)
Inductive TurnEvent :=
| EvSubmit (playerId : string) (word : value) (now : Z)
| EvInterval.

Definition turnStep (l : t) (e : TurnEvent) : t :=
  match e with
  | EvSubmit playerId word now => (submitWord playerId word now l).2
  | EvInterval => (intervalFires l).1
  end.

(** *** Predicates of the specification *)

(** While a game is being played the turn index points into the
    roster. *)
Definition turn_inv (l : t) : Prop :=
  state l = playing →
  ∃ c, currentTurnIndex l = Some c ∧ (c < length (players l))%nat.

(** [sub] occurs in [s]. *)
Definition substring_of (sub s : jsstring) : Prop :=
  ∃ before after, s = before ++ sub ++ after.

(** The conditions under which the specification accepts the
    normalized word [w] from [playerId]; comparisons of words ignore
    case. *)
Definition accepts (l : t) (playerId : string) (w : jsstring) : Prop :=
  state l = playing
  ∧ turnLocked l = false
  ∧ (∃ p, currentPlayer l = Some p
          ∧ player_id p = playerId
          ∧ gt (lives p) (Num 0) = true
          ∧ isConnected p = true)
  ∧ ge (of_nat (length w)) (minWordLength (settings l)) = true
  ∧ (w ∉ usedWords l)
  ∧ substring_of (toLowerCase (currentSyllable l)) (toLowerCase w)
  ∧ (∃ d, d ∈ WORDS ∧ toLowerCase d = toLowerCase w).

(** The reason codes of [submitWord]. *)
Definition reasons : list string :=
  [ "Game not in progress"; "Too late! Time ran out"; "Not your turn";
    "You are eliminated"; "Player disconnected"; "Invalid input";
    "Word too short"; "Word already used";
    "Invalid word or doesn't contain syllable" ]%string.

(** A check of [submitWord] fails. *)
Definition failing_check (l : t) (playerId : string) (word : value) : Prop :=
  (state l ≠ playing)
  ∨ (turnLocked l = true)
  ∨ (∀ p, currentPlayer l = Some p → player_id p ≠ playerId)
  ∨ (∃ p, currentPlayer l = Some p ∧ le (lives p) (Num 0) = true)
  ∨ (∃ p, currentPlayer l = Some p ∧ isConnected p = false)
  ∨ (∀ s, word ≠ JStr s)
  ∨ (lt (of_nat (length (normalize word))) (minWordLength (settings l)) = true)
  ∨ (normalize word ∈ usedWords l)
  ∨ (validateWord (normalize word) (currentSyllable l) = false).

(** The points of the specification for a word of [L] letters with
    [T] seconds left of [M]: [10 L + round(50 T / M) + max(0, (L - 5) 5)]. *)
Definition spec_score (L : Z) (T M : Q) : Z :=
  10 * L + Qfloor (50 * T / M + (1 # 2))%Q + Z.max 0 ((L - 5) * 5).

(** [(T / M) * 50] as the code computes it: the quotient rounded to a
    double, and its product with 50 rounded again. *)
Definition speedRatio (T M : Q) : number := rnd (mul (fl (T / M)) (Num 50)).

(** The points for a word of [L] letters when the speed ratio is [d]:
    [10 L + Math.round(d) + max(0, (L - 5) 5)]. *)
Definition double_score (L : Z) (d : Q) : Z :=
  10 * L + Qfloor (d + (1 # 2))%Q + Z.max 0 ((L - 5) * 5).

(** *** Connection marks, typing and the ranking *)

Definition set_isConnected (v : bool) (p : Player) : Player :=
  mkPlayer (player_id p) (player_name p) (avatar p) (color p) (lives p) v
    (isReady p) (currentInput p) (joinedAt p) (disconnectedAt p) (score p)
    (wordsCompleted p).

Definition set_disconnectedAt (v : option Z) (p : Player) : Player :=
  mkPlayer (player_id p) (player_name p) (avatar p) (color p) (lives p)
    (isConnected p) (isReady p) (currentInput p) (joinedAt p) v (score p)
    (wordsCompleted p).

(** [markDisconnected] and [markConnected] act on the first seat with
    the id; [disconnectedAt = null] is [None]. *)
Definition markDisconnected (playerId : string) (now : Z) (l : t) : t :=
  match findIndex playerId (players l) with
  | Some i =>
      set_players
        (alter (λ p, set_disconnectedAt (Some now) (set_isConnected false p)) i
           (players l)) l
  | None => l
  end.

Definition markConnected (playerId : string) (l : t) : t :=
  match findIndex playerId (players l) with
  | Some i =>
      set_players
        (alter (λ p, set_disconnectedAt None (set_isConnected true p)) i
           (players l)) l
  | None => l
  end.

Definition updateTyping (playerId : string) (text : value) (now : Z) (l : t) : t :=
  if bool_decide (state l ≠ playing) then l
  else if turnLocked l then l
  else
    match currentTurnIndex l, currentPlayer l with
    | Some c, Some currentPlayer =>
        if bool_decide (player_id currentPlayer ≠ playerId) then l
        else if le (lives currentPlayer) (Num 0) then l
        else if negb (isConnected currentPlayer) then l
        else
          let sanitizedText := sanitizeText text 50 in
          let l1 :=
            set_players
              (<[c := set_currentInput sanitizedText currentPlayer]> (players l))
              l in
          set_lastActivity now l1
    | _, _ => l
    end.

(** [a !== b] for a property that is absent or a number. *)
Definition strictlyDiffer (a b : option number) : bool :=
  match a, b with
  | None, None => false
  | Some PInf, Some PInf | Some NInf, Some NInf => false
  | Some (Num x), Some (Num y) => negb (Qeq_bool x y)
  | _, _ => true
  end.

(** The comparison function of the ranking in [endGame]. *)
Definition compareRank (a b : Player) : number :=
  if strictlyDiffer (score b) (score a)
  then sub (or0 (score b)) (or0 (score a))
  else sub (lives b) (lives a).

(** A row of the ranking that [endGame] broadcasts. *)
Record Ranking := mkRanking {
  rank : nat;
  ranked_id : string;
  ranked_name : jsstring;
  ranked_avatar : jsstring;
  ranked_color : string;
  ranked_score : number;
  ranked_wordsCompleted : number;
  ranked_lives : number
}.

Definition rankings (l : t) : list Ranking :=
  imap (λ index p,
          mkRanking (index + 1) (player_id p) (player_name p) (avatar p)
            (color p) (or0 (score p)) (or0 (wordsCompleted p)) (lives p))
    (JSArray.sortBy compareRank (players l)).

(** [rankings[0]]; [None] is [undefined]. *)
Definition winner (l : t) : option Ranking := head (rankings l).

(** A seat whose score and lives are finite numbers. *)
Definition numeric_seat (p : Player) : Prop :=
  (∃ q, score p = Some (Num q)) ∧ ∃ q, lives p = Num q.

(** The comparison function does not put [b] before [a]. *)
Definition seat_before (a b : Player) : Prop :=
  gt (compareRank a b) (Num 0) = false.

(** Row [a] has the higher score, or the same score and at least as
    many lives. *)
Definition ranks_before (a b : Ranking) : Prop :=
  gt (ranked_score a) (ranked_score b) = true
  ∨ (ge (ranked_score a) (ranked_score b) = true
     ∧ ge (ranked_score b) (ranked_score a) = true
     ∧ ge (ranked_lives a) (ranked_lives b) = true).

End Engine.

End Lobby.

(** ** Registries and socket handlers *)

Module Server.
Import JS Sanitize.

(** An entry of the [players] map. *)
Record PlayerState := mkPlayerState {
  ps_id : string;
  ps_name : value;
  socketId : string;
  currentLobbyId : option string
}.

Record t := mkServer {
  lobbies : gmap string Lobby.t;
  players : gmap string PlayerState;
  socketToPlayer : gmap string string;
  playerToSocket : gmap string string;
  rateLimits : gmap string (list Z)
}.

Definition set_lobbies (v : gmap string Lobby.t) (s : t) : t :=
  mkServer v (players s) (socketToPlayer s) (playerToSocket s) (rateLimits s).

Definition set_rateLimits (v : gmap string (list Z)) (s : t) : t :=
  mkServer (lobbies s) (players s) (socketToPlayer s) (playerToSocket s) v.

(** [a || b] on values. *)
Definition or_value (a b : value) : value :=
  if truthy_value a then a else b.

(** [new Lobby(hostId, hostName, lobbyName, isPublic)]: [uuid] is the
    value of [uuidv4()] and [random] the draws of [Math.random()]. *)
Definition newLobby (uuid : string) (random : nat → Q) (hostId : string)
    (hostName lobbyName : value) (isPublic : bool) (now : Z) : Lobby.t :=
  let safeLobbyName := sanitizeName lobbyName 30 in
  let safeHostName := sanitizeName hostName 20 in
  {| Lobby.lobby_id := uuid;
     Lobby.code := Helpers.generateLobbyCode random;
     Lobby.lobby_name :=
       if bool_decide (safeLobbyName = []) then safeHostName ++ lit "'s Lobby"
       else safeLobbyName;
     Lobby.hostId := hostId;
     Lobby.originalHostId := hostId;
     Lobby.players := [];
     Lobby.state := Lobby.waiting;
     Lobby.settings :=
       {| Lobby.maxPlayers := Num 8; Lobby.startLives := Num 3;
          Lobby.turnTime := Num 10; Lobby.minWordLength := Num 2;
          Lobby.isPublic := isPublic |};
     Lobby.currentTurnIndex := Some O;
     Lobby.currentSyllable := [];
     Lobby.usedWords := ∅;
     Lobby.timer := false;
     Lobby.timerValue := Num 0;
     Lobby.lastActivity := now;
     Lobby.turnStartTime := 0;
     Lobby.turnLocked := false |}.

(** What one run of the [lobby:create] handler draws from outside:
    the clock, the identifiers from [uuidv4()] and the random draws. *)
Record Draws := mkDraws {
  now : Z;
  playerUuid : string;
  lobbyUuid : string;
  random : nat → Q;
  randomAvatar : jsstring;
  randomColor : string
}.

(** ['player_' + uuidv4().substring(0, 8)] *)
Definition generatePlayerId (uuid : string) : string :=
  "player_" +:+ String.substring 0 8 uuid.

(** The part of [lobby:create] that leaves the lobby the player is in. *)
Definition leaveCurrent (playerId : string) (current : option string) (now : Z)
    (ls : gmap string Lobby.t) : gmap string Lobby.t :=
  match current with
  | Some lobbyId =>
      if bool_decide (lobbyId = "") then ls
      else match ls !! lobbyId with
           | Some oldLobby =>
               let oldLobby' := Lobby.removePlayer playerId now oldLobby in
               if bool_decide (length (Lobby.players oldLobby') = 0)%nat
               then delete (Lobby.lobby_id oldLobby') (<[lobbyId := oldLobby']> ls)
               else <[lobbyId := oldLobby']> ls
           | None => ls
           end
  | None => ls
  end.

(** [socketToPlayer.get(socket.id)] when it is truthy. *)
Definition knownPlayer (socket : string) (s : t) : option string :=
  match socketToPlayer s !! socket with
  | Some playerId => if bool_decide (playerId = "") then None else Some playerId
  | None => None
  end.

(** [socket.on('lobby:create', ...)]; a handler that throws leaves the
    state as it was when the exception was raised. *)
Definition onLobbyCreate (socket : string) (playerName lobbyName isPublic : value)
    (d : Draws) (s : t) : t :=
  let (limited, rl) :=
    RateLimiter.isRateLimited socket "lobby:create" 3 10000 (now d) (rateLimits s) in
  let s := set_rateLimits rl s in
  if limited then s
  else
    let (playerId, s) :=
      match knownPlayer socket s with
      | Some playerId => (playerId, s)
      | None =>
          let playerId := generatePlayerId (playerUuid d) in
          (playerId,
           mkServer (lobbies s)
             (<[playerId := mkPlayerState playerId
                              (or_value playerName (JStr (lit "Guest")))
                              socket None]> (players s))
             (<[socket := playerId]> (socketToPlayer s))
             (<[playerId := socket]> (playerToSocket s))
             (rateLimits s))
      end in
    match players s !! playerId with
    | None => s
    | Some player =>
        let name :=
          or_value playerName (or_value (ps_name player) (JStr (lit "Guest"))) in
        let ls := leaveCurrent playerId (currentLobbyId player) (now d) (lobbies s) in
        let lobby :=
          newLobby (lobbyUuid d) (random d) playerId name lobbyName
            (match isPublic with JBool false => false | _ => true end) (now d) in
        let lobby :=
          (Lobby.addPlayer playerId name (randomAvatar d) (randomColor d)
             (now d) lobby).2 in
        mkServer (<[Lobby.lobby_id lobby := lobby]> ls)
          (<[playerId := mkPlayerState (ps_id player) name (socketId player)
                           (Some (Lobby.lobby_id lobby))]> (players s))
          (socketToPlayer s) (playerToSocket s) (rateLimits s)
    end.

(** A server with nothing in its registries. *)
Definition empty : t := mkServer ∅ ∅ ∅ ∅ ∅.

(** Two sockets each create a lobby, the six calls of [Math.random()]
    returning the same values in both runs. *)
Definition sameDraws (i : nat) : Q := Z.of_nat (i mod 7) # 7.

Definition twoLobbies : t :=
  onLobbyCreate "socketB" (JStr (lit "Beka")) (JStr (lit "room")) (JBool true)
    (mkDraws 2000 "22222222-bbbb" "lobby-2" sameDraws (lit "B") "#4ECDC4")
    (onLobbyCreate "socketA" (JStr (lit "Ana")) (JStr (lit "room")) (JBool true)
       (mkDraws 1000 "11111111-aaaa" "lobby-1" sameDraws (lit "A") "#FF6B6B")
       empty).

(** The lobby a socket may act on as host: the lookups that open
    [lobby:settings] and [game:start]. *)
Definition lobbyOf (socket : string) (s : t)
    : option (string * string * Lobby.t) :=
  playerId ← socketToPlayer s !! socket;
  player ← players s !! playerId;
  lobbyId ← currentLobbyId player;
  if bool_decide (lobbyId = "") then None
  else lobby ← lobbies s !! lobbyId; Some (playerId, lobbyId, lobby).

Section Settings.

(** The conversion of a string to a number is an input. *)
Variable StringToNumber : jsstring → number.

Definition ToNumber (v : value) : number :=
  match v with
  | JUndefined => NaN
  | JNull => Num 0
  | JBool b => if b then Num 1 else Num 0
  | JNum x => x
  | JStr s => StringToNumber s
  | JObj => NaN
  end.

(** The payload of [lobby:settings]; an absent field is [JUndefined]. *)
Record SettingsRequest := mkRequest {
  req_maxPlayers : value;
  req_startLives : value;
  req_turnTime : value;
  req_minWordLength : value;
  req_isPublic : value
}.

(** [Math.min(hi, Math.max(lo, v))] *)
Definition clamp (lo hi : Z) (v : value) : number :=
  min (of_Z hi) (max (of_Z lo) (ToNumber v)).

(** The five assignments of the handler. *)
Definition applySettings (r : SettingsRequest) (st : Lobby.Settings)
    : Lobby.Settings :=
  {| Lobby.maxPlayers :=
       if truthy_value (req_maxPlayers r) then clamp 2 12 (req_maxPlayers r)
       else Lobby.maxPlayers st;
     Lobby.startLives :=
       if truthy_value (req_startLives r) then clamp 1 5 (req_startLives r)
       else Lobby.startLives st;
     Lobby.turnTime :=
       if truthy_value (req_turnTime r) then clamp 5 30 (req_turnTime r)
       else Lobby.turnTime st;
     Lobby.minWordLength :=
       if truthy_value (req_minWordLength r) then clamp 2 5 (req_minWordLength r)
       else Lobby.minWordLength st;
     Lobby.isPublic :=
       match req_isPublic r with
       | JBool b => b
       | _ => Lobby.isPublic st
       end |}.

(** [socket.on('lobby:settings', ...)] *)
Definition onLobbySettings (socket : string) (r : SettingsRequest) (s : t) : t :=
  match lobbyOf socket s with
  | Some (playerId, lobbyId, lobby) =>
      if bool_decide (Lobby.hostId lobby ≠ playerId) then s
      else
        set_lobbies
          (<[lobbyId :=
               Lobby.set_settings (applySettings r (Lobby.settings lobby)) lobby]>
             (lobbies s)) s
  | None => s
  end.

(** The settings a lobby is constructed with. *)
Definition default_settings : Lobby.Settings :=
  {| Lobby.maxPlayers := Num 8; Lobby.startLives := Num 3;
     Lobby.turnTime := Num 10; Lobby.minWordLength := Num 2;
     Lobby.isPublic := true |}.

(** The settings satisfy the server-side bounds. *)
Definition in_bounds (st : Lobby.Settings) : Prop :=
  within 2 12 (Lobby.maxPlayers st) ∧ within 1 5 (Lobby.startLives st)
  ∧ within 5 30 (Lobby.turnTime st) ∧ within 2 5 (Lobby.minWordLength st).

(** The request [{ maxPlayers: {} }]. *)
Definition object_request : SettingsRequest :=
  mkRequest JObj JUndefined JUndefined JUndefined JUndefined.

End Settings.

(** [socket.on('game:start', ...)]: whether the game started, and the
    state afterwards. *)
Definition onGameStart (socket : string) (randomSyllable : jsstring) (now : Z)
    (s : t) : bool * t :=
  match lobbyOf socket s with
  | Some (playerId, lobbyId, lobby) =>
      if bool_decide (Lobby.hostId lobby ≠ playerId) then (false, s)
      else if bool_decide (length (Lobby.players lobby) < 2)%nat then (false, s)
      else
        let (started, lobby') := Lobby.startGame randomSyllable now lobby in
        (started, set_lobbies (<[lobbyId := lobby']> (lobbies s)) s)
  | None => (false, s)
  end.

(** *** Ready, leave and authentication *)

Definition set_players (v : gmap string PlayerState) (s : t) : t :=
  mkServer (lobbies s) v (socketToPlayer s) (playerToSocket s) (rateLimits s).

(** The lookups that open [game:ready], [game:typing], [game:submit]
    and [handleLeaveLobby]: the player of the socket and the lobby that
    player is in. *)
Definition memberOf (socket : string) (s : t)
    : option (string * string * Lobby.t) :=
  playerId ← knownPlayer socket s;
  player ← players s !! playerId;
  lobbyId ← currentLobbyId player;
  if bool_decide (lobbyId = "") then None
  else lobby ← lobbies s !! lobbyId; Some (playerId, lobbyId, lobby).

(** What [game:ready] does to the lobby it has found. *)
Definition toggleReady (playerId : string) (lobby : Lobby.t) : Lobby.t :=
  if bool_decide (Lobby.state lobby ≠ Lobby.waiting) then lobby
  else
    match Lobby.findIndex playerId (Lobby.players lobby) with
    | Some i =>
        match Lobby.players lobby !! i with
        | Some lobbyPlayer =>
            if Lobby.isConnected lobbyPlayer
            then Lobby.set_players
                   (<[i := Lobby.set_isReady (negb (Lobby.isReady lobbyPlayer))
                             lobbyPlayer]> (Lobby.players lobby)) lobby
            else lobby
        | None => lobby
        end
    | None => lobby
    end.

(** [socket.on('game:ready', ...)] *)
Definition onGameReady (socket : string) (s : t) : t :=
  match memberOf socket s with
  | Some (playerId, lobbyId, lobby) =>
      set_lobbies (<[lobbyId := toggleReady playerId lobby]> (lobbies s)) s
  | None => s
  end.

(** [handleLeaveLobby], up to the scheduling of the callback that
    releases the seat of a player who stays disconnected. *)
Definition handleLeaveLobby (socket : string) (isDisconnect : bool) (now : Z)
    (s : t) : t :=
  match memberOf socket s with
  | Some (playerId, lobbyId, lobby) =>
      if isDisconnect
      then set_lobbies
             (<[lobbyId := Lobby.markDisconnected playerId now lobby]> (lobbies s))
             s
      else
        let lobby' := Lobby.removePlayer playerId now lobby in
        let ps :=
          match players s !! playerId with
          | Some player =>
              <[playerId := mkPlayerState (ps_id player) (ps_name player)
                              (socketId player) None]> (players s)
          | None => players s
          end in
        let ls := <[lobbyId := lobby']> (lobbies s) in
        let ls :=
          if bool_decide (length (Lobby.players lobby') = 0)%nat
          then delete (Lobby.lobby_id lobby') ls
          else ls in
        set_players ps (set_lobbies ls s)
  | None => s
  end.

(** [socket.on('player:auth', ...)]: the id that is confirmed to the
    client and the state afterwards.  [playerId] is the id the client
    presents, [None] when the payload has none, and [uuid] the value of
    [uuidv4()]. *)
Definition onPlayerAuth (socket : string) (playerId : option string)
    (playerName : value) (uuid : string) (s : t) : string * t :=
  let reconnect :=
    match playerId with
    | Some pid =>
        if bool_decide (pid = "") then None
        else match players s !! pid with
             | Some existingPlayer => Some (pid, existingPlayer)
             | None => None
             end
    | None => None
    end in
  let (pid, s1) :=
    match reconnect with
    | Some (pid, existingPlayer) =>
        let s2p :=
          match playerToSocket s !! pid with
          | Some oldSocketId =>
              if bool_decide (oldSocketId ≠ "") && bool_decide (oldSocketId ≠ socket)
              then delete oldSocketId (socketToPlayer s)
              else socketToPlayer s
          | None => socketToPlayer s
          end in
        (pid,
         mkServer (lobbies s)
           (<[pid := mkPlayerState (ps_id existingPlayer)
                       (or_value playerName (ps_name existingPlayer))
                       socket (currentLobbyId existingPlayer)]> (players s))
           s2p (playerToSocket s) (rateLimits s))
    | None =>
        let pid := generatePlayerId uuid in
        (pid,
         set_players
           (<[pid := mkPlayerState pid (or_value playerName (JStr (lit "Player")))
                       socket None]> (players s)) s)
    end in
  let s2 :=
    mkServer (lobbies s1) (players s1) (<[socket := pid]> (socketToPlayer s1))
      (<[pid := socket]> (playerToSocket s1)) (rateLimits s1) in
  let s3 :=
    match players s2 !! pid with
    | Some player =>
        match currentLobbyId player with
        | Some lobbyId =>
            if bool_decide (lobbyId = "") then s2
            else match lobbies s2 !! lobbyId with
                 | Some lobby =>
                     set_lobbies
                       (<[lobbyId := Lobby.markConnected pid lobby]> (lobbies s2))
                       s2
                 | None => s2
                 end
        | None => s2
        end
    | None => s2
    end in
  (pid, s3).

(** *** The handlers as one type *)

Inductive Event :=
| EvLobbyCreate (socket : string) (playerName lobbyName isPublic : value)
    (d : Draws)
| EvLobbySettings (socket : string) (r : SettingsRequest)
| EvLobbyLeave (socket : string) (now : Z)
| EvDisconnect (socket : string) (now : Z)
| EvGameReady (socket : string)
| EvGameStart (socket : string) (randomSyllable : jsstring) (now : Z)
| EvPlayerAuth (socket : string) (playerId : option string) (playerName : value)
    (uuid : string).

Definition handle (StringToNumber : jsstring → number) (e : Event) (s : t) : t :=
  match e with
  | EvLobbyCreate socket playerName lobbyName isPublic d =>
      onLobbyCreate socket playerName lobbyName isPublic d s
  | EvLobbySettings socket r => onLobbySettings StringToNumber socket r s
  | EvLobbyLeave socket now => handleLeaveLobby socket false now s
  | EvDisconnect socket now => handleLeaveLobby socket true now s
  | EvGameReady socket => onGameReady socket s
  | EvGameStart socket syl now => (onGameStart socket syl now s).2
  | EvPlayerAuth socket playerId playerName uuid =>
      (onPlayerAuth socket playerId playerName uuid s).2
  end.

(** Every registered lobby is filed under its own id and has somebody
    seated. *)
Definition lobbies_ok (ls : gmap string Lobby.t) : Prop :=
  ∀ k l, ls !! k = Some l → Lobby.lobby_id l = k ∧ Lobby.players l ≠ [].

(** Every socket bound to a player is the socket that player is bound
    to, and no binding is for the empty socket id. *)
Definition bindings_ok (s : t) : Prop :=
  socketToPlayer s !! "" = None
  ∧ ∀ socket playerId,
      socketToPlayer s !! socket = Some playerId →
      playerToSocket s !! playerId = Some socket.

End Server.

(** ** Concrete lobbies *)

Module Examples.
Import JS Lobby.

(** [toLowerCase] on strings of ASCII and Mkhedruli letters: only the
    Latin capitals change. *)
Definition lowerBasic (s : jsstring) : jsstring :=
  map (λ c, if bool_decide (65 <= c)%N && bool_decide (c <= 90)%N
            then (c + 32)%N else c) s.

(** Three dictionary words and a one-letter entry that [loadWords]
    drops. *)
Definition bavshvi : jsstring := [4305; 4304; 4309; 4328; 4309; 4312]%N.
Definition tavi : jsstring := [4311; 4304; 4309; 4312]%N.
Definition mze : jsstring := [4315; 4310; 4308]%N.
Definition sampleEntries : list jsstring := [bavshvi; tavi; [4304%N]; mze].

(** The syllable of the example turn. *)
Definition av : jsstring := [4304; 4309]%N.

Definition seat (playerId : string) (name : string) (ready : bool) : Player :=
  {| player_id := playerId; player_name := lit name; avatar := lit "A";
     color := "#FF6B6B"; lives := Num 3; isConnected := true; isReady := ready;
     currentInput := []; joinedAt := 1000; disconnectedAt := None;
     score := None; wordsCompleted := None |}.

(** A waiting lobby: two ready players and one who is not. *)
Definition waitingRoom : t :=
  {| lobby_id := "lobby-1"; code := lit "AEKPUY"; lobby_name := lit "room";
     hostId := "player_1"; originalHostId := "player_1";
     players := [seat "player_1" "Ana" true; seat "player_2" "Beka" true;
                 seat "player_3" "Gio" false];
     state := waiting;
     settings := {| maxPlayers := Num 8; startLives := Num 3; turnTime := Num 10;
                    minWordLength := Num 2; isPublic := true |};
     currentTurnIndex := Some O; currentSyllable := []; usedWords := ∅;
     timer := false; timerValue := Num 0; lastActivity := 1000;
     turnStartTime := 0; turnLocked := false |}.

(** The game started from [waitingRoom], five seconds into the first
    turn. *)
Definition midTurn : t :=
  set_timerValue (Num 5) (startGame av 2000 waitingRoom).2.

(** The seat of the active player of [midTurn]. *)
Definition activeSeat : Player :=
  set_wordsCompleted (Some (Num 0))
    (set_score (Some (Num 0)) (seat "player_1" "Ana" true)).

(** [waitingRoom] with its capacity lowered to the three seats taken. *)
Definition fullRoom : t :=
  set_settings
    {| maxPlayers := Num 3; startLives := Num 3; turnTime := Num 10;
       minWordLength := Num 2; isPublic := true |} waitingRoom.

(** The double [6.666666666666631]. *)
Definition oddTurnTime : Q := 7505999378950787 # 1125899906842624.

(** The host of [waitingRoom] sets that turn time through
    [lobby:settings] and starts the game; the interval then runs four
    times. *)
Definition fourTicks : t :=
  let st :=
    Server.applySettings (λ _, NaN)
      (Server.mkRequest JUndefined JUndefined (JNum (Num oddTurnTime)) JUndefined
         JUndefined)
      (settings waitingRoom) in
  let l0 := (startGame av 2000 (set_settings st waitingRoom)).2 in
  (timerTick (timerTick (timerTick (timerTick l0).1).1).1).1.

(** The host of [waitingRoom] sends [lobby:settings] with
    [{ startLives: {} }] and starts the game. *)
Definition noLivesGame : t :=
  let st :=
    Server.applySettings (λ _, NaN)
      (Server.mkRequest JUndefined JObj JUndefined JUndefined JUndefined)
      (settings waitingRoom) in
  (startGame av 2000 (set_settings st waitingRoom)).2.

End Examples.

(** * Properties *)

(** ** Rounding to a double *)

Section DoubleFacts.
Import JS.

Lemma roundHalfEven_near (x : Q) :
  (inject_Z (roundHalfEven x) - x <= 1 # 2)%Q
  ∧ (x - inject_Z (roundHalfEven x) <= 1 # 2)%Q.
Proof.
  unfold roundHalfEven.
  pose proof (Qfloor_le x) as Hlo. pose proof (Qlt_floor x) as Hhi.
  rewrite inject_Z_plus in Hhi. change (inject_Z 1) with 1%Q in Hhi.
  destruct (x - inject_Z (Qfloor x) ?= 1 # 2)%Q eqn:Hcmp.
  - apply Qeq_alt in Hcmp.
    destruct (Z.even (Qfloor x)); rewrite ?inject_Z_plus;
      change (inject_Z 1) with 1%Q; split; lra.
  - apply Qlt_alt in Hcmp. split; lra.
  - apply Qgt_alt in Hcmp. rewrite inject_Z_plus.
    change (inject_Z 1) with 1%Q. split; lra.
Qed.

Lemma roundHalfEven_nonneg (x : Q) : (0 <= x)%Q → 0 <= roundHalfEven x.
Proof.
  intros Hx. assert (0 <= Qfloor x) as Hf.
  { change 0 with (Qfloor 0). by apply Qfloor_resp_le. }
  unfold roundHalfEven.
  destruct (_ ?= _)%Q; [destruct (Z.even _)|..]; lia.
Qed.

Lemma pow2_pos (e : Z) : (0 < 2 ^ e)%Q.
Proof. apply Qpower_0_lt. reflexivity. Qed.

Lemma pow2_add (a b : Z) : (2 ^ (a + b) == 2 ^ a * 2 ^ b)%Q.
Proof. apply Qpower_plus. discriminate. Qed.

Lemma pow2_Z (n : Z) : 0 <= n → (inject_Z (2 ^ n) == 2 ^ n)%Q.
Proof. intros Hn. by rewrite Zpower_Qpower. Qed.

Lemma pow2_le (a b : Z) : a <= b → (2 ^ a <= 2 ^ b)%Q.
Proof.
  intros Hab. replace b with (a + (b - a)) by lia. rewrite pow2_add.
  assert (1 <= 2 ^ (b - a))%Q as H1.
  { rewrite <- pow2_Z by lia. change 1%Q with (inject_Z 1).
    rewrite <- Zle_Qle. pose proof (Z.pow_pos_nonneg 2 (b - a)). lia. }
  pose proof (pow2_pos a). nra.
Qed.

Lemma ilog2_lower (a : Q) : (0 < a)%Q → (2 ^ ilog2 a <= a)%Q.
Proof.
  intros Ha. unfold ilog2.
  set (n := Qnum a). set (d := Zpos (Qden a)).
  destruct (Qle_bool _ a) eqn:Hle; [by apply Qle_bool_iff|].
  assert (0 < n) as Hn.
  { unfold Qlt in Ha. simpl in Ha. fold n in Ha. lia. }
  destruct (Z.log2_spec n Hn) as [Hn1 _].
  destruct (Z.log2_spec d eq_refl) as [_ Hd2].
  pose proof (Z.log2_nonneg n). pose proof (Z.log2_nonneg d).
  replace (Z.log2 n - Z.log2 d - 1) with (Z.log2 n + - Z.succ (Z.log2 d)) by lia.
  rewrite pow2_add, Qpower_opp, <- !pow2_Z by lia.
  assert (a == inject_Z n / inject_Z d)%Q as -> by (destruct a; apply Qmake_Qdiv).
  assert (0 < inject_Z d)%Q as Hd0 by (by change 0%Q with (inject_Z 0); rewrite <- Zlt_Qlt).
  assert (0 < inject_Z (2 ^ Z.succ (Z.log2 d)))%Q as Hp0.
  { change 0%Q with (inject_Z 0). rewrite <- Zlt_Qlt. lia. }
  rewrite Zle_Qle in Hn1. rewrite Zlt_Qlt in Hd2.
  assert (0 < inject_Z (2 ^ Z.log2 n))%Q as Hq0.
  { change 0%Q with (inject_Z 0). rewrite <- Zlt_Qlt.
    apply Z.pow_pos_nonneg; lia. }
  apply Qle_shift_div_l; [done|].
  set (A := inject_Z (2 ^ Z.log2 n)) in *. set (B := inject_Z (2 ^ Z.succ (Z.log2 d))) in *.
  set (D := inject_Z d) in *. set (N := inject_Z n) in *.
  assert (A * / B * D <= A)%Q; [|lra].
  assert (A * / B * D == A * (D / B))%Q as -> by (field; lra).
  assert (D / B <= 1)%Q; [|nra].
  apply Qle_shift_div_r; lra.
Qed.

Lemma Qabs_nonneg_eq (q : Q) : (0 <= q)%Q → Qabs q = q.
Proof.
  destruct q as [n d]. unfold Qle, Qabs. simpl. intros Hn.
  f_equal. apply Z.abs_eq. lia.
Qed.

(** The error of rounding a number below [2^1023] to a double is at
    most [2^-53] of the number, or [2^-1075] near zero. *)
Lemma fl_error (q : Q) :
  (0 <= q)%Q → (q < 2 ^ 1023)%Q →
  ∃ r, fl q = Num r ∧ (0 <= r)%Q
       ∧ (r - q <= q * 2 ^ (-53) + 2 ^ (-1075))%Q
       ∧ (q - r <= q * 2 ^ (-53) + 2 ^ (-1075))%Q.
Proof.
  intros H0 Hlt. pose proof (pow2_pos (-1075)) as Heta.
  pose proof (pow2_pos (-53)) as Hu.
  unfold fl. destruct (q ?= 0)%Q eqn:Hc.
  - apply Qeq_alt in Hc. exists 0%Q. split; [done|].
    set (η := (2 ^ (-1075))%Q) in *. set (u := (2 ^ (-53))%Q) in *.
    split_and!; [lra|nra|nra].
  - apply Qlt_alt in Hc. lra.
  - apply Qgt_alt in Hc. rewrite (Qabs_nonneg_eq q H0).
    set (e := Z.max (ilog2 q - 52) (-1074)).
    set (m := roundHalfEven (q / 2 ^ e)).
    pose proof (pow2_pos e) as HP.
    destruct (roundHalfEven_near (q / 2 ^ e)) as [Hup Hdown]. fold m in Hup, Hdown.
    assert (0 <= inject_Z m)%Q as Hm.
    { change 0%Q with (inject_Z 0). rewrite <- Zle_Qle.
      apply roundHalfEven_nonneg. apply Qle_shift_div_l; lra. }
    assert (q / 2 ^ e * 2 ^ e == q)%Q as Hq by (field; lra).
    assert (2 ^ e <= q * 2 ^ (-52) + 2 ^ (-1074))%Q as He.
    { pose proof (pow2_pos (-1074)). pose proof (pow2_pos (-52)).
      pose proof (ilog2_lower q Hc) as Hlg. pose proof (pow2_pos (ilog2 q)).
      assert (2 ^ (ilog2 q - 52) == 2 ^ ilog2 q * 2 ^ (-52))%Q as Hsplit
        by (by rewrite <- pow2_add).
      destruct (Z.max_spec (ilog2 q - 52) (-1074)) as [[_ Hmax]|[_ Hmax]];
        unfold e; rewrite Hmax.
      - nra.
      - rewrite Hsplit. nra. }
    assert (2 ^ (-52) == 2 * 2 ^ (-53))%Q as H52 by reflexivity.
    assert (2 ^ (-1074) == 2 * 2 ^ (-1075))%Q as H1074 by reflexivity.
    set (P := (2 ^ e)%Q) in *. set (X := (q / P)%Q) in *.
    set (η := (2 ^ (-1075))%Q) in *. set (u := (2 ^ (-53))%Q) in *.
    assert (inject_Z m * P - q <= q * u + η
            ∧ q - inject_Z m * P <= q * u + η)%Q as [Hr1 Hr2].
    { split; nra. }
    assert (Qle_bool (2 ^ 1024) (inject_Z m * P) = false) as ->.
    { apply not_true_iff_false. rewrite Qle_bool_iff.
      assert (2 ^ 1024 == 2 * 2 ^ 1023)%Q as -> by reflexivity.
      assert (u <= 1 # 2)%Q by (by vm_compute).
      assert (η <= 1)%Q by (by vm_compute).
      assert (1 <= 2 ^ 1023)%Q by (by vm_compute).
      set (B := (2 ^ 1023)%Q) in *. nra. }
    exists (Qred (inject_Z m * P)). split; [done|].
    rewrite !Qred_correct. split_and!; [nra|lra|lra].
Qed.

End DoubleFacts.

(** ** The rate limiter *)

Section RateLimiterFacts.
Import RateLimiter.

Lemma prune_split bound ts :
  ∃ old, ts = old ++ prune bound ts ∧ Forall (λ t, t < bound) old.
Proof.
  induction ts as [|t ts [old [Heq Hold]]]; simpl.
  - exists []. by split.
  - case_bool_decide.
    + exists (t :: old). split; [by rewrite <- app_comm_cons, <- Heq|].
      by constructor.
    + exists []. by split.
Qed.

Lemma inWindow_prune windowMs now ts :
  inWindow windowMs now (prune (now - windowMs) ts) = inWindow windowMs now ts.
Proof.
  unfold inWindow. induction ts as [|t ts IH]; simpl; [done|].
  case_bool_decide as Hlt; [|done].
  rewrite filter_cons_False by lia. done.
Qed.

Lemma inWindow_length windowMs now ts :
  (length (inWindow windowMs now ts) ≤ length ts)%nat.
Proof. apply length_filter. Qed.

Lemma prune_head bound t ts :
  t < bound → (length (prune bound (t :: ts)) ≤ length ts)%nat.
Proof.
  intros Hlt. simpl. rewrite bool_decide_eq_true_2 by done.
  destruct (prune_split bound ts) as [old [Heq _]].
  rewrite Heq at 2. rewrite length_app. lia.
Qed.

(** C8.  With [N] recorded timestamps inside the trailing window, an
    attempt is rejected and the stored sequence is only pruned at its
    front: nothing is appended and the timestamps inside the window are
    the same as before.  Once the oldest of at most [N] recorded
    timestamps has left the window, an attempt is accepted and its
    timestamp is appended. *)
Theorem rate_limit_sliding_window (socketId event : string) (N W now : Z)
    (rateLimits : gmap string (list Z)) :
  let k := key socketId event in
  let recorded := default [] (rateLimits !! k) in
  (N <= Z.of_nat (length (inWindow W now recorded)) →
   ∃ rl',
     isRateLimited socketId event N W now rateLimits = (true, rl')
     ∧ (∃ stored old, rl' !! k = Some stored ∧ recorded = old ++ stored
          ∧ inWindow W now stored = inWindow W now recorded)
     ∧ ∀ k', k' ≠ k → rl' !! k' = rateLimits !! k')
  ∧ (∀ oldest rest,
       recorded = oldest :: rest →
       Z.of_nat (length recorded) <= N →
       oldest < now - W →
       ∃ rl',
         isRateLimited socketId event N W now rateLimits = (false, rl')
         ∧ rl' !! k = Some (prune (now - W) recorded ++ [now])
         ∧ ∀ k', k' ≠ k → rl' !! k' = rateLimits !! k').
Proof.
  intros k recorded. split.
  - intros HN. unfold isRateLimited. fold k. fold recorded.
    rewrite bool_decide_eq_true_2.
    + eexists. split; [done|]. split.
      * destruct (prune_split (now - W) recorded) as [old [Heq _]].
        exists (prune (now - W) recorded), old.
        rewrite lookup_insert_eq. split_and!; [done|done|].
        apply inWindow_prune.
      * intros k' Hk'. by rewrite lookup_insert_ne.
    + pose proof (inWindow_length W now (prune (now - W) recorded)) as Hlen.
      rewrite inWindow_prune in Hlen. lia.
  - intros oldest rest Hrec Hlen Hold. unfold isRateLimited. fold k. fold recorded.
    rewrite bool_decide_eq_false_2.
    + eexists. split; [done|]. split.
      * by rewrite lookup_insert_eq.
      * intros k' Hk'. by rewrite lookup_insert_ne.
    + pose proof (prune_head (now - W) oldest rest Hold) as Hp.
      rewrite Hrec in *. simpl in Hlen. lia.
Qed.

(** Three [lobby:create] attempts in one second, a fourth inside the
    window, and a fifth after the first has left it. *)
Lemma rate_limit_sliding_window_witness :
  let rl := {[ key "s1" "lobby:create" := [1000; 1200; 1400] ]} in
  (isRateLimited "s1" "lobby:create" 3 10000 5000 rl).1 = true
  ∧ (isRateLimited "s1" "lobby:create" 3 10000 11100 rl).1 = false.
Proof.
  intros rl.
  destruct (rate_limit_sliding_window "s1" "lobby:create" 3 10000 5000 rl)
    as [Hrej _].
  destruct (rate_limit_sliding_window "s1" "lobby:create" 3 10000 11100 rl)
    as [_ Hacc].
  split.
  - destruct Hrej as [rl' [-> _]]; [|done].
    unfold rl. rewrite lookup_singleton_eq. simpl. lia.
  - destruct (Hacc 1000 [1200; 1400]) as [rl' [-> _]]; done.
Defined.

End RateLimiterFacts.

(** ** The settings handler *)

Section SettingsFacts.
Import JS Server.

Variable StringToNumber : jsstring → number.

Lemma clamp_number lo hi x :
  lo <= hi → x ≠ NaN → within lo hi (min (of_Z hi) (max (of_Z lo) x)).
Proof.
  intros Hle Hx. rewrite Zle_Qle in Hle.
  destruct x as [| | |q]; [done|..]; unfold of_Z; simpl.
  - split; lra.
  - destruct (Qlt_le_dec _ _); simpl; split; lra.
  - destruct (Qlt_le_dec (inject_Z lo) q); simpl;
      destruct (Qlt_le_dec _ _); simpl; split; lra.
Qed.

(** A requested value whose conversion is a number is clamped into the
    bounds; any other truthy value is stored as [NaN]. *)
Lemma clamp_within_or_NaN lo hi v :
  lo <= hi →
  (ToNumber StringToNumber v ≠ NaN → within lo hi (clamp StringToNumber lo hi v))
  ∧ (ToNumber StringToNumber v = NaN → clamp StringToNumber lo hi v = NaN).
Proof.
  intros Hle. unfold clamp. split.
  - by apply clamp_number.
  - intros ->. done.
Qed.

(** What the handler guarantees: a request whose present fields all
    convert to numbers keeps the settings inside the bounds, and an
    absent field is left as it was. *)
Lemma applySettings_numeric (r : SettingsRequest) (st : Lobby.Settings) :
  in_bounds st →
  (truthy_value (req_maxPlayers r) = true →
   ToNumber StringToNumber (req_maxPlayers r) ≠ NaN) →
  (truthy_value (req_startLives r) = true →
   ToNumber StringToNumber (req_startLives r) ≠ NaN) →
  (truthy_value (req_turnTime r) = true →
   ToNumber StringToNumber (req_turnTime r) ≠ NaN) →
  (truthy_value (req_minWordLength r) = true →
   ToNumber StringToNumber (req_minWordLength r) ≠ NaN) →
  in_bounds (applySettings StringToNumber r st).
Proof.
  intros (H1 & H2 & H3 & H4) N1 N2 N3 N4. unfold in_bounds, applySettings; simpl.
  split_and!.
  - destruct (truthy_value (req_maxPlayers r)); [|done].
    apply clamp_within_or_NaN; [lia|auto].
  - destruct (truthy_value (req_startLives r)); [|done].
    apply clamp_within_or_NaN; [lia|auto].
  - destruct (truthy_value (req_turnTime r)); [|done].
    apply clamp_within_or_NaN; [lia|auto].
  - destruct (truthy_value (req_minWordLength r)); [|done].
    apply clamp_within_or_NaN; [lia|auto].
Qed.

Lemma applySettings_absent (st : Lobby.Settings) :
  applySettings StringToNumber
    (mkRequest JUndefined JUndefined JUndefined JUndefined JUndefined) st = st.
Proof. by destruct st. Qed.

(** C6.  On the request [{ maxPlayers: {} }] the handler stores [NaN]
    in [maxPlayers] of a lobby with the initial settings: the result is
    outside the bounds [2..12].  Sent by the host of the first lobby of
    [twoLobbies], the request leaves that lobby with [maxPlayers = NaN]. *)
Theorem settings_object_request_escapes_bounds :
  Lobby.maxPlayers (applySettings StringToNumber object_request default_settings)
  = NaN
  ∧ ¬ in_bounds (applySettings StringToNumber object_request default_settings)
  ∧ (Lobby.maxPlayers ∘ Lobby.settings)
      <$> lobbies (onLobbySettings StringToNumber "socketA" object_request
                     twoLobbies) !! "lobby-1"
    = Some NaN.
Proof.
  split_and!; [done| |by vm_compute]. intros (H & _). exact H.
Qed.

End SettingsFacts.

(** ** Lobby codes *)

Section LobbyCodeFacts.
Import JS Helpers Server.

Lemma chars_unambiguous : Forall (λ c, c ∉ ambiguous) chars.
Proof. by apply (bool_decide_unpack _). Qed.

Lemma Qfloor_range (x : Q) (n : Z) :
  (0 <= x)%Q → (x < inject_Z n)%Q → 0 <= Qfloor x < n.
Proof.
  intros H0 Hn. split.
  - apply (Qfloor_resp_le 0 x H0).
  - rewrite Zlt_Qlt. eapply Qle_lt_trans; [apply Qfloor_le|done].
Qed.

Lemma charAt_chars (r : Q) :
  (0 <= r)%Q → (r < 1)%Q →
  ∃ c, charAt chars (Qfloor (r * inject_Z (Z.of_nat (length chars)))) = [c]
       ∧ c ∈ chars.
Proof.
  intros H0 H1.
  set (i := Qfloor (r * inject_Z (Z.of_nat (length chars)))).
  assert (0 <= i < 32) as Hi.
  { apply Qfloor_range; change (inject_Z (Z.of_nat (length chars))) with 32%Q.
    - nra.
    - change (inject_Z 32) with 32%Q. nra. }
  unfold charAt. rewrite bool_decide_eq_false_2 by lia.
  destruct (chars !! Z.to_nat i) as [c|] eqn:Hc.
  - exists c. split; [done|]. by eapply list_elem_of_lookup_2.
  - apply lookup_ge_None in Hc. change (length chars) with 32%nat in Hc. lia.
Qed.

Lemma generateLobbyCode_from_spec (random : nat → Q) (n i : nat) (code : jsstring) :
  (∀ j, (0 <= random j)%Q ∧ (random j < 1)%Q) →
  ∃ drawn,
    generateLobbyCode_from random i n code = code ++ drawn
    ∧ length drawn = n ∧ Forall (λ c, c ∈ chars) drawn.
Proof.
  intros Hr. revert i code.
  induction n as [|n IH]; intros i code; cbn [generateLobbyCode_from].
  - exists []. by rewrite app_nil_r.
  - destruct (charAt_chars (random i)) as [c [-> Hc]]; [apply Hr..|].
    destruct (IH (S i) (code ++ [c])) as [drawn (-> & Hlen & Hall)].
    exists (c :: drawn). rewrite <- app_assoc. simpl.
    split_and!; [done|lia|by constructor].
Qed.

(** C9, as amended.  A lobby is constructed with a code of six
    characters, each from the 32-character alphabet of
    [generateLobbyCode], which has none of the glyphs I, O, 0 and 1.
    The draws of [Math.random()] lie in the interval from 0 (included)
    to 1 (excluded). *)
Theorem lobby_code_six_unambiguous_chars (uuid : string) (random : nat → Q)
    (hostId : string) (hostName lobbyName : value) (isPublic : bool) (now : Z) :
  (∀ j, (0 <= random j)%Q ∧ (random j < 1)%Q) →
  let lobby := newLobby uuid random hostId hostName lobbyName isPublic now in
  Lobby.code lobby = generateLobbyCode random
  ∧ length (Lobby.code lobby) = 6%nat
  ∧ Forall (λ c, c ∈ chars ∧ c ∉ ambiguous) (Lobby.code lobby).
Proof.
  intros Hr lobby. split; [done|]. simpl. unfold generateLobbyCode.
  destruct (generateLobbyCode_from_spec random 6 0 [] Hr)
    as [drawn (-> & Hlen & Hall)].
  simpl. split; [done|].
  eapply Forall_impl; [exact Hall|]. intros c Hc. split; [done|].
  by eapply (proj1 (Forall_forall _ _) chars_unambiguous).
Qed.

Lemma lobby_code_six_unambiguous_chars_witness :
  Lobby.code (newLobby "lobby-1" sameDraws "player_1" (JStr (lit "Ana"))
                (JStr (lit "room")) true 1000) = lit "AEKPUY".
Proof.
  destruct (lobby_code_six_unambiguous_chars "lobby-1" sameDraws "player_1"
              (JStr (lit "Ana")) (JStr (lit "room")) true 1000) as [-> _].
  - intros j. unfold sameDraws, Qle, Qlt. cbn [Qnum Qden].
    pose proof (Nat.mod_upper_bound j 7). lia.
  - reflexivity.
Defined.

(** C9, the claim as stated.  Two lobbies created with the same random
    draws are both live and carry the same code: nothing compares a new
    code with the codes in [lobbies]. *)
Lemma lobby_codes_not_unique :
  ∃ l1 l2,
    lobbies twoLobbies !! "lobby-1" = Some l1
    ∧ lobbies twoLobbies !! "lobby-2" = Some l2
    ∧ Lobby.code l1 = Lobby.code l2.
Proof.
  eexists _, _. split_and!; [vm_compute; reflexivity..|vm_compute; reflexivity].
Qed.

End LobbyCodeFacts.

(** ** The lobby *)

Section LobbyFacts.
Import JS Sanitize Lobby.

Variable toLowerCase : jsstring → jsstring.
Variable entries : list jsstring.

#[local] Abbreviation submitWord := (Lobby.submitWord toLowerCase entries).
#[local] Abbreviation validateWord := (Lobby.validateWord toLowerCase entries).
#[local] Abbreviation normalize := (Lobby.normalize toLowerCase).
#[local] Abbreviation WORDS := (Lobby.WORDS entries).
#[local] Abbreviation passes := (Lobby.passes toLowerCase entries).
#[local] Abbreviation accepts := (Lobby.accepts toLowerCase entries).
#[local] Abbreviation failing_check := (Lobby.failing_check toLowerCase entries).
#[local] Abbreviation run := (Lobby.run toLowerCase entries).
#[local] Abbreviation turnStep := (Lobby.turnStep toLowerCase entries).

(** *** Comparisons *)

Lemma lt_ge_false x y : lt x y = true → ge x y = false.
Proof.
  unfold ge. destruct x as [| | |a], y as [| | |b]; simpl; try done.
  destruct (Qlt_le_dec a b), (Qlt_le_dec a b); try done; lra.
Qed.

Lemma le_false_gt x y : x ≠ NaN → y ≠ NaN → le x y = false ↔ gt x y = true.
Proof.
  unfold gt. destruct x as [| | |a], y as [| | |b]; simpl; try done.
  intros _ _. destruct (Qlt_le_dec b a); done.
Qed.

Lemma lt_false_ge x y : x ≠ NaN → y ≠ NaN → lt x y = false ↔ ge x y = true.
Proof.
  unfold ge. destruct x as [| | |a], y as [| | |b]; simpl; try done.
  intros _ _. destruct (Qlt_le_dec a b); done.
Qed.

(** *** [addPlayer] *)

Lemma findIndex_lookup playerId ps i :
  findIndex playerId ps = Some i →
  ∃ p, ps !! i = Some p ∧ player_id p = playerId.
Proof.
  revert i. induction ps as [|p ps IH]; intros i; simpl; [done|].
  case_bool_decide as Hp.
  - intros [= <-]. by exists p.
  - destruct (findIndex playerId ps) as [j|]; simpl; [|done].
    intros [= <-]. by apply IH.
Qed.

(** C10, as amended.  [addPlayer] with the id of a seated player leaves
    the lobby as it is, and it returns [true] when the roster has fewer
    than [maxPlayers] seats. *)
Theorem addPlayer_seated_unchanged (playerId : string) (playerName : value)
    (randomAvatar : jsstring) (randomColor : string) (now : Z) (l : t) :
  is_Some (findIndex playerId (players l)) →
  (addPlayer playerId playerName randomAvatar randomColor now l).2 = l
  ∧ (lt (of_nat (length (players l))) (maxPlayers (settings l)) = true →
     (addPlayer playerId playerName randomAvatar randomColor now l).1 = true).
Proof.
  intros Hseat. unfold addPlayer. split.
  - destruct (ge _ _); [done|]. by rewrite bool_decide_eq_true_2.
  - intros Hlt. rewrite (lt_ge_false _ _ Hlt). by rewrite bool_decide_eq_true_2.
Qed.

Lemma addPlayer_seated_unchanged_witness :
  addPlayer "player_2" (JStr (lit "Beka")) (lit "B") "#4ECDC4" 3000
    Examples.waitingRoom = (true, Examples.waitingRoom).
Proof.
  destruct (addPlayer_seated_unchanged "player_2" (JStr (lit "Beka")) (lit "B")
              "#4ECDC4" 3000 Examples.waitingRoom) as [Hsame Htrue].
  - by exists 1%nat.
  - rewrite <- Hsame at 2. rewrite <- Htrue by reflexivity.
    by destruct (addPlayer _ _ _ _ _ _).
Defined.

(** C10, the claim as stated.  In a lobby whose roster has reached
    [maxPlayers], [addPlayer] with the id of a seated player returns
    [false]: the capacity check comes first. *)
Lemma addPlayer_seated_full_returns_false :
  is_Some (findIndex "player_2" (players Examples.fullRoom))
  ∧ (addPlayer "player_2" (JStr (lit "Beka")) (lit "B") "#4ECDC4" 3000
       Examples.fullRoom).1 = false.
Proof. split; [by exists 1%nat|reflexivity]. Qed.

(** *** [validateWord] *)

Lemma isPrefix_spec sub s : isPrefix sub s = true ↔ ∃ after, s = sub ++ after.
Proof.
  revert s. induction sub as [|a sub IH]; intros s; simpl.
  - split; [by exists s|done].
  - destruct s as [|b s].
    + split; [done|]. by intros [after ?].
    + rewrite andb_true_iff, bool_decide_eq_true, IH. split.
      * intros [-> [after ->]]. by exists after.
      * intros [after [= -> ->]]. split; [done|]. by exists after.
Qed.

Lemma includes_spec s sub : includes s sub = true ↔ substring_of sub s.
Proof.
  unfold substring_of. induction s as [|b s IH]; simpl.
  - rewrite orb_false_r, isPrefix_spec. split.
    + intros [after ->]. by exists [], after.
    + intros [before [after Heq]]. symmetry in Heq.
      apply app_eq_nil in Heq as [-> Heq].
      apply app_eq_nil in Heq as [-> ->]. by exists [].
  - rewrite orb_true_iff, isPrefix_spec, IH. split.
    + intros [[after ->]|[before [after ->]]].
      * by exists [], after.
      * by exists (b :: before), after.
    + intros [[|b' before] [after Heq]]; simpl in Heq.
      * left. by exists after.
      * right. injection Heq as -> ->. by exists before, after.
Qed.

Lemma validateWord_spec w syllable :
  validateWord w syllable = true ↔
  (2 ≤ length w)%nat
  ∧ substring_of (toLowerCase syllable) (toLowerCase w)
  ∧ ∃ d, d ∈ WORDS ∧ toLowerCase d = toLowerCase w.
Proof.
  unfold Lobby.validateWord.
  destruct (bool_decide (w = []) || bool_decide (length w < 2)%nat) eqn:Hshort.
  - split; [done|]. intros (Hlen & _).
    apply orb_true_iff in Hshort as [Hnil%bool_decide_eq_true|Hlt%bool_decide_eq_true].
    + subst w. simpl in Hlen. lia.
    + lia.
  - apply orb_false_iff in Hshort as [_ Hlen%bool_decide_eq_false].
    destruct (includes _ _) eqn:Hinc; simpl.
    + apply includes_spec in Hinc. rewrite existsb_exists. split.
      * intros [d [Hd Heq%bool_decide_eq_true]].
        split_and!; [lia|done|]. exists d. by rewrite list_elem_of_In.
      * intros (_ & _ & d & Hd & Heq). exists d.
        rewrite <- list_elem_of_In. by rewrite bool_decide_eq_true.
    + split; [done|]. intros (_ & Hsub & _).
      apply includes_spec in Hsub. congruence.
Qed.

(** *** [submitWord] *)

Lemma passes_not_failing playerId word l c p :
  passes playerId word l c p → ¬ failing_check l playerId word.
Proof.
  unfold Lobby.passes, Lobby.failing_check, currentPlayer.
  intros (Hst & Hlock & Hc & Hp & Hid & Hlives & Hconn & [s ->] & Hlen & Hused & Hv).
  rewrite Hc, Hp.
  intros [?|[?|[H|[(p' & [= <-] & ?)|[(p' & [= <-] & ?)|[H|[?|[?|?]]]]]]]];
    try congruence.
  all: try (by apply (H p)); try (by apply (H s)).
Qed.

Lemma submitWord_cases playerId word now l :
  (∃ reason, submitWord playerId word now l = (Failure reason, l)
             ∧ reason ∈ reasons
             ∧ failing_check l playerId word)
  ∨ (∃ c p, passes playerId word l c p
            ∧ submitWord playerId word now l
              = (Success, accepted c p (normalize word) now l)).
Proof.
  unfold Lobby.submitWord, Lobby.passes, Lobby.failing_check, currentPlayer.
  case_bool_decide as Hst.
  { left. eexists. split_and!; [done|set_solver|]. by left. }
  destruct (turnLocked l) eqn:Hlock.
  { left. eexists. split_and!; [done|set_solver|]. right. by left. }
  destruct (currentTurnIndex l) as [c|] eqn:Hc; cycle 1.
  { left. eexists. split_and!; [done|set_solver|]. do 2 right. by left. }
  destruct (players l !! c) as [p|] eqn:Hp; cycle 1.
  { left. eexists. split_and!; [done|set_solver|]. do 2 right. by left. }
  case_bool_decide as Hid.
  { left. eexists. split_and!; [done|set_solver|]. do 2 right. left.
    by intros p' [= <-]. }
  destruct (le (lives p) (Num 0)) eqn:Hlives.
  { left. eexists. split_and!; [done|set_solver|]. do 3 right. left.
    by exists p. }
  destruct (isConnected p) eqn:Hconn; cbn [negb]; cycle 1.
  { left. eexists. split_and!; [done|set_solver|]. do 4 right. left.
    by exists p. }
  destruct word as [| | | |s|];
    try (left; eexists; split_and!; [done|set_solver|]; do 5 right; left;
         by intros s').
  destruct (lt _ _) eqn:Hlen.
  { left. eexists. split_and!; [done|set_solver|]. do 6 right. by left. }
  case_bool_decide as Hused.
  { left. eexists. split_and!; [done|set_solver|]. do 7 right. by left. }
  destruct (Lobby.validateWord _ _ _ _) eqn:Hvalid; cbn [negb]; cycle 1.
  { left. eexists. split_and!; [done|set_solver|]. by do 8 right. }
  right. exists c, p. split; [|done].
  split_and!; try done. by exists s.
Qed.

(** C7.  A submission is rejected exactly when one of the checks of
    [submitWord] fails; a rejection carries one of the nine reason codes
    and returns the lobby, with its roster, used words, turn index,
    lock, timer and activity stamp, exactly as it was. *)
Theorem submitWord_rejection_changes_nothing (playerId : string) (word : value)
    (now : Z) (l : t) :
  (failing_check l playerId word ↔
   ∃ reason, (submitWord playerId word now l).1 = Failure reason)
  ∧ ∀ reason,
      (submitWord playerId word now l).1 = Failure reason →
      reason ∈ reasons ∧ (submitWord playerId word now l).2 = l.
Proof.
  destruct (submitWord_cases playerId word now l)
    as [(reason & -> & Hin & Hfail)|(c & p & Hpass & ->)]; simpl.
  - split.
    + split; [by exists reason|done].
    + by intros r [= <-].
  - split; [|done]. split.
    + intros Hfail. by destruct (passes_not_failing _ _ _ _ _ Hpass).
    + by intros [r ?].
Qed.

(** *** Acceptance *)

Lemma at_least_two (m : number) (n : nat) :
  le (Num 2) m = true → ge (of_nat n) m = true → (2 ≤ n)%nat.
Proof.
  unfold ge, of_nat, of_Z. destruct m as [| | |q]; simpl; try done.
  destruct (Qlt_le_dec q 2), (Qlt_le_dec _ q); try done. intros _ _.
  assert (inject_Z 2 <= inject_Z (Z.of_nat n))%Q as H by (change (inject_Z 2) with 2%Q; lra).
  rewrite <- Zle_Qle in H. lia.
Qed.

Lemma passes_accepts playerId s l :
  (∀ p, currentPlayer l = Some p → lives p ≠ NaN) →
  le (Num 2) (minWordLength (settings l)) = true →
  (∃ c p, passes playerId (JStr s) l c p) ↔ accepts l playerId (normalize (JStr s)).
Proof.
  intros Hnum Hmin. unfold Lobby.passes, Lobby.accepts, currentPlayer.
  assert (minWordLength (settings l) ≠ NaN) as Hm.
  { intros E. by rewrite E in Hmin. }
  split.
  - intros (c & p & Hst & Hlock & Hc & Hp & Hid & Hlives & Hconn & _ & Hlen & Hused & Hv).
    apply validateWord_spec in Hv as (_ & Hsub & Hdict).
    split_and!; try done.
    + exists p. rewrite Hc. split_and!; try done.
      apply le_false_gt; [|done|done]. apply Hnum. unfold currentPlayer. by rewrite Hc.
    + by apply lt_false_ge.
  - intros (Hst & Hlock & (p & Hp & Hid & Hlives & Hconn) & Hlen & Hused & Hsub & Hdict).
    destruct (currentTurnIndex l) as [c|] eqn:Hc; [|done].
    exists c, p. split_and!; try done.
    + apply le_false_gt; [|done|done]. apply Hnum. unfold currentPlayer. by rewrite Hc.
    + by exists s.
    + by apply lt_false_ge.
    + apply validateWord_spec. split_and!; try done.
      by eapply at_least_two.
Qed.

(** X21.  In a lobby whose [minWordLength] is a number of at least 2 and
    whose active player has a numeric [lives], a string submitted by
    [playerId] is accepted if and only if the game is being played, the
    turn is not locked, [playerId] is the player at [currentTurnIndex],
    that player has [lives > 0] and is connected, and the normalized
    word has at least [minWordLength] letters, has not been used,
    contains the syllable and is in the dictionary. *)
Theorem submitWord_accepted_iff (playerId : string) (s : jsstring) (now : Z) (l : t) :
  (∀ p, currentPlayer l = Some p → lives p ≠ NaN) →
  le (Num 2) (minWordLength (settings l)) = true →
  (submitWord playerId (JStr s) now l).1 = Success
  ↔ accepts l playerId (normalize (JStr s)).
Proof.
  intros Hnum Hmin. rewrite <- (passes_accepts _ _ _ Hnum Hmin).
  destruct (submitWord_cases playerId (JStr s) now l)
    as [(reason & -> & Hin & Hfail)|(c & p & Hpass & ->)]; simpl.
  - split; [done|]. intros (c & p & Hpass).
    by destruct (passes_not_failing _ _ _ _ _ Hpass).
  - split; [|done]. intros _. by exists c, p.
Qed.

(** *** Scoring *)

Lemma max0_Num (x : Q) :
  max (Num 0) (Num x) = Num (if Qlt_le_dec 0 x then x else 0).
Proof. unfold max, lt. by destruct (Qlt_le_dec 0 x). Qed.

Lemma max0_nonneg (x : number) (T : Q) : max (Num 0) x = Num T → (0 <= T)%Q.
Proof.
  destruct x as [| | |q]; try discriminate.
  - intros [= <-]. lra.
  - rewrite max0_Num. intros [= <-]. destruct (Qlt_le_dec 0 q); lra.
Qed.

(** The speed ratio the code computes is within [2^-46] of [50 T / M]. *)
Lemma speedRatio_error (T M : Q) :
  (0 <= T)%Q → (T <= M)%Q → (0 < M)%Q →
  ∃ d, speedRatio T M = Num d
       ∧ (d - 50 * T / M <= 1 # 2 ^ 46)%Q ∧ (50 * T / M - d <= 1 # 2 ^ 46)%Q.
Proof.
  intros HT HTM HM. unfold speedRatio.
  change (2 ^ 46)%positive with 70368744177664%positive.
  assert (0 <= T / M)%Q as Hq0 by (apply Qle_shift_div_l; lra).
  assert (T / M <= 1)%Q as Hq1 by (apply Qle_shift_div_r; lra).
  assert (2 ^ (-53) == 1 # 9007199254740992)%Q as Hu by reflexivity.
  assert (2 ^ (-1075) <= 1 # 1152921504606846976)%Q as Heta by (by vm_compute).
  assert (64 <= 2 ^ 1023)%Q as Hbig by (by vm_compute).
  pose proof (pow2_pos (-1075)) as Heta0.
  set (η := (2 ^ (-1075))%Q) in *. set (B := (2 ^ 1023)%Q) in *.
  destruct (fl_error (T / M)) as (r1 & -> & Hr0 & Hr1 & Hr2); [done|fold B; lra|].
  cbn [mul rnd]. fold η in Hr1, Hr2. rewrite Hu in Hr1, Hr2.
  destruct (fl_error (r1 * 50)) as (d & -> & Hd0 & Hd1 & Hd2);
    [lra|fold B; lra|].
  fold η in Hd1, Hd2. rewrite Hu in Hd1, Hd2.
  exists d. split; [done|].
  assert (50 * T / M == 50 * (T / M))%Q as -> by (field; lra).
  set (q := (T / M)%Q) in *. split; lra.
Qed.

Lemma Qfloor_near (x y : Q) :
  (x - y <= 1)%Q → Qfloor x <= Qfloor y + 1.
Proof.
  intros Hxy. pose proof (Qfloor_le x) as Hx. pose proof (Qlt_floor y) as Hy.
  rewrite inject_Z_plus in Hy. change (inject_Z 1) with 1%Q in Hy.
  assert (inject_Z (Qfloor x) < inject_Z (Qfloor y + 2))%Q as Hlt.
  { rewrite inject_Z_plus. change (inject_Z 2) with 2%Q. lra. }
  rewrite <- Zlt_Qlt in Hlt. lia.
Qed.

Lemma totalScore_spec (w : jsstring) (l : t) (T M d : Q) :
  max (Num 0) (timerValue l) = Num T →
  turnTime (settings l) = Num M →
  (0 < M)%Q →
  speedRatio T M = Num d →
  ∃ pts, totalScore w l = Num pts
         ∧ (pts == inject_Z (double_score (Z.of_nat (length w)) d))%Q.
Proof.
  intros HT HM HM0 Hd. unfold totalScore. rewrite HT, HM.
  assert (div (Num T) (Num M) = Num (T / M)) as ->.
  { unfold div. destruct (M ?= 0)%Q eqn:Hcmp; [|done..].
    apply Qeq_alt in Hcmp. lra. }
  change (rnd (mul (rnd (Num (T / M))) (Num 50))) with (speedRatio T M).
  rewrite Hd.
  unfold of_nat, of_Z. set (L := Z.of_nat (length w)).
  cbn [mul round sub neg add]. rewrite max0_Num. cbn [add].
  eexists. split; [reflexivity|].
  unfold double_score. rewrite !inject_Z_plus, inject_Z_mult.
  assert ((inject_Z L + Qopp 5) * 5 == inject_Z ((L - 5) * 5))%Q as Hbonus
    by (unfold Qeq; simpl; lia).
  destruct (Qlt_le_dec 0 _) as [Hpos|Hneg].
  - rewrite Hbonus in Hpos. change 0%Q with (inject_Z 0) in Hpos.
    rewrite <- Zlt_Qlt in Hpos. rewrite Z.max_r by lia. rewrite Hbonus. ring.
  - rewrite Hbonus in Hneg. change 0%Q with (inject_Z 0) in Hneg.
    rewrite <- Zle_Qle in Hneg. rewrite Z.max_l by lia. ring.
Qed.

(** C4.  When the submission of [word] by the player seated at index
    [c] is accepted with [T] seconds remaining of a turn time [M], that
    player's score becomes the former score (or 0) plus
    [10 L + Math.round(d) + max(0, (L - 5) 5)], [L] being the length of
    the normalized word and [d] the double the code computes for
    [(T / M) * 50]: the quotient rounded to the nearest double, and its
    product with 50 rounded again.  [d] is within [2^-46] of [50 T / M],
    so the points are those of [10 L + round(50 T / M) + max(0, (L - 5) 5)]
    in exact arithmetic, or differ from them by one. *)
Theorem submitWord_awards_score (playerId : string) (word : value) (now : Z)
    (l l' : t) (c : nat) (p : Player) (T M : Q) :
  submitWord playerId word now l = (Success, l') →
  currentTurnIndex l = Some c →
  players l !! c = Some p →
  max (Num 0) (timerValue l) = Num T →
  turnTime (settings l) = Num M →
  (0 < M)%Q →
  (T <= M)%Q →
  ∃ p' d pts,
    players l' !! c = Some p'
    ∧ speedRatio T M = Num d
    ∧ (d - 50 * T / M <= 1 # 2 ^ 46)%Q ∧ (50 * T / M - d <= 1 # 2 ^ 46)%Q
    ∧ score p' = Some (add (or0 (score p)) (Num pts))
    ∧ (pts == inject_Z (double_score (Z.of_nat (length (normalize word))) d))%Q
    ∧ spec_score (Z.of_nat (length (normalize word))) T M - 1
      <= double_score (Z.of_nat (length (normalize word))) d
      <= spec_score (Z.of_nat (length (normalize word))) T M + 1.
Proof.
  intros Hsub Hc Hp HT HM HM0 HTM.
  destruct (submitWord_cases playerId word now l)
    as [(reason & Hrej & _)|(c' & p' & Hpass & Hacc)]; [congruence|].
  destruct Hpass as (_ & _ & Hc' & Hp' & _).
  assert (c' = c) as -> by congruence. assert (p' = p) as -> by congruence.
  rewrite Hacc in Hsub. injection Hsub as <-.
  destruct (speedRatio_error T M) as (d & Hd & Hup & Hdown);
    [by eapply max0_nonneg|done..|].
  destruct (totalScore_spec (normalize word)
              (set_timer false
                 (set_lastActivity now
                    (set_usedWords ({[normalize word]} ∪ usedWords l) l))) T M d)
    as (pts & Hpts & Heq); [done..|].
  eexists _, d, pts. split_and!; [|done|done|done| |exact Heq|..].
  - unfold accepted.
    cbn [players set_players set_timer set_lastActivity set_usedWords].
    apply list_lookup_insert_eq. by eapply lookup_lt_Some.
  - cbn [score set_wordsCompleted set_score set_currentInput]. by rewrite Hpts.
  - unfold spec_score, double_score.
    change (2 ^ 46)%positive with 70368744177664%positive in *.
    assert (Qfloor (50 * T / M + (1 # 2)) <= Qfloor (d + (1 # 2)) + 1)
      by (apply Qfloor_near; lra).
    lia.
  - unfold spec_score, double_score.
    change (2 ^ 46)%positive with 70368744177664%positive in *.
    assert (Qfloor (d + (1 # 2)) <= Qfloor (50 * T / M + (1 # 2)) + 1)
      by (apply Qfloor_near; lra).
    lia.
Qed.

(** *** The turn index *)

Lemma jsmod_lt (a n : nat) :
  (0 < n)%nat → ∃ c, jsmod a n = Some c ∧ (c < n)%nat.
Proof.
  intros Hn. destruct n as [|n]; [lia|]. exists (a mod S n)%nat.
  split; [done|]. apply Nat.mod_upper_bound. lia.
Qed.

Lemma jsmod_pos (a n : nat) : (0 < n)%nat → jsmod a n = Some (a mod n)%nat.
Proof. intros Hn. destruct n; [lia|done]. Qed.

Lemma jsmod_max (a n : nat) :
  jsmod a (Nat.max 1 n) = Some (a mod Nat.max 1 n)%nat.
Proof. destruct (Nat.max 1 n) eqn:E; [lia|done]. Qed.

Lemma skipEliminated_lt (ps : list Player) (fuel c : nat) :
  (c < length ps)%nat →
  ∃ c', skipEliminated ps fuel (Some c) = Some c' ∧ (c' < length ps)%nat.
Proof.
  revert c. induction fuel as [|fuel IH]; intros c Hc; simpl; [by exists c|].
  destruct (ps !! c) as [p|]; [|by exists c].
  destruct (le (lives p) (Num 0)); [|by exists c].
  destruct (jsmod_lt (c + 1) (length ps)) as [c1 [-> Hc1]]; [lia|].
  by apply IH.
Qed.

Lemma nextTurn_turn_inv syl now (l : t) : turn_inv l → turn_inv (nextTurn syl now l).
Proof.
  unfold turn_inv, nextTurn. simpl. intros Hinv Hst.
  destruct (Hinv Hst) as [c [-> Hc]]. by apply skipEliminated_lt.
Qed.

Lemma advance_turn_inv syl now (l : t) :
  turn_inv l →
  turn_inv (nextTurn syl now
              (set_currentTurnIndex
                 (advance (currentTurnIndex l) (length (players l))) l)).
Proof.
  intros Hinv. apply nextTurn_turn_inv. unfold turn_inv. simpl. intros Hst.
  destruct (Hinv Hst) as [c [-> Hc]]. simpl. apply jsmod_lt. lia.
Qed.

Lemma endGame_turn_inv (l : t) : turn_inv (endGame l).
Proof. unfold turn_inv. done. Qed.

Lemma findIndex_lt playerId ps index :
  findIndex playerId ps = Some index → (index < length ps)%nat.
Proof.
  intros H. destruct (findIndex_lookup _ _ _ H) as [p [Hp _]].
  by eapply lookup_lt_Some.
Qed.

(** The turn index after [removePlayer] in a game that is being
    played. *)
Lemma removePlayer_index playerId now (l : t) index c :
  state l = playing →
  findIndex playerId (players l) = Some index →
  currentTurnIndex l = Some c →
  players (removePlayer playerId now l) = delete index (players l)
  ∧ currentTurnIndex (removePlayer playerId now l)
    = (if bool_decide (index < c)%nat then Some (c - 1)%nat
       else if bool_decide (index = c)
            then Some (c mod Nat.max 1 (length (players l) - 1))%nat
            else Some c)
  ∧ (state (removePlayer playerId now l) = playing →
     (1 < length (delete index (players l)))%nat).
Proof.
  intros Hst Hidx Hc. unfold removePlayer. rewrite Hidx.
  pose proof (findIndex_lt _ _ _ Hidx) as Hlt.
  assert (length (delete index (players l)) = length (players l) - 1)%nat as Hlen.
  { apply length_delete. by apply lookup_lt_is_Some. }
  set (l2 := set_lastActivity now (set_players (delete index (players l)) l)).
  set (l3 := if bool_decide (hostId l2 = playerId) && _ then _ else l2).
  assert (players l3 = delete index (players l) ∧ state l3 = playing
          ∧ currentTurnIndex l3 = Some c) as (Hp3 & Hs3 & Hc3).
  { unfold l3. destruct (_ && _); [|done].
    case_bool_decide; [|done]. by destruct (players l2). }
  rewrite bool_decide_eq_true_2 by done. rewrite Hc3.
  set (l4 := if bool_decide (index < c)%nat then _ else _).
  assert (players l4 = delete index (players l)
          ∧ currentTurnIndex l4
            = if bool_decide (index < c)%nat then Some (c - 1)%nat
              else if bool_decide (index = c)
                   then Some (c mod Nat.max 1 (length (players l) - 1))%nat
                   else Some c) as [Hp4 Hc4].
  { unfold l4. repeat case_bool_decide;
      cbn [players currentTurnIndex set_currentTurnIndex];
      rewrite ?Hp3, ?Hlen, ?jsmod_max; done. }
  pose proof (length_filter (λ p, gt (lives p) (Num 0) = true) (players l4))
    as Halive.
  fold (getAlivePlayers l4) in Halive. rewrite Hp4 in Halive.
  destruct (bool_decide (length (getAlivePlayers l4) ≤ 1)%nat) eqn:Hend;
    unfold endGame; cbn [players currentTurnIndex state set_state set_timer];
    rewrite Hp4, Hc4; split_and!; try done.
  intros _. apply bool_decide_eq_false in Hend. lia.
Qed.

Lemma removePlayer_turn_inv playerId now (l : t) :
  turn_inv l → turn_inv (removePlayer playerId now l).
Proof.
  intros Hinv. destruct (findIndex playerId (players l)) as [index|] eqn:Hidx;
    cycle 1.
  { unfold removePlayer. by rewrite Hidx. }
  destruct (decide (state l = playing)) as [Hst|Hst].
  - destruct (Hinv Hst) as [c [Hc Hlt]].
    destruct (removePlayer_index playerId now l index c Hst Hidx Hc)
      as (Hp & Hc' & Hlen).
    intros Hst'. specialize (Hlen Hst'). rewrite Hp, Hc'.
    pose proof (findIndex_lt _ _ _ Hidx) as Hi.
    assert (length (delete index (players l)) = length (players l) - 1)%nat as Hd.
    { apply length_delete. by apply lookup_lt_is_Some. }
    rewrite Hd in *. repeat case_bool_decide; eexists; (split; [done|]); try lia.
    rewrite Nat.max_r by lia. apply Nat.mod_upper_bound. lia.
  - intros Hst'. exfalso. apply Hst. revert Hst'.
    unfold removePlayer. rewrite Hidx.
    set (l2 := set_lastActivity now (set_players (delete index (players l)) l)).
    set (l3 := if bool_decide (hostId l2 = playerId) && _ then _ else l2).
    assert (state l3 = state l) as Hs3.
    { unfold l3. destruct (_ && _); [|done].
      case_bool_decide; [|done]. by destruct (players l2). }
    rewrite bool_decide_eq_false_2 by congruence. congruence.
Qed.

Lemma startGame_turn_inv syl now (l : t) :
  turn_inv l → turn_inv (startGame syl now l).2.
Proof.
  intros Hinv. unfold startGame. case_bool_decide as Hready; [done|].
  cbn [snd]. apply nextTurn_turn_inv. intros _. exists O. split; [done|].
  cbn [players set_players]. rewrite length_map.
  cbn [players set_players set_currentTurnIndex set_usedWords set_state]. lia.
Qed.

Lemma turn_inv_mono (l l' : t) :
  state l' = state l → currentTurnIndex l' = currentTurnIndex l →
  (length (players l) ≤ length (players l'))%nat →
  turn_inv l → turn_inv l'.
Proof.
  intros Hs Hc Hlen Hinv Hst. rewrite Hs in Hst.
  destruct (Hinv Hst) as [c [Hc' Hlt]]. exists c. split; [congruence|lia].
Qed.

Lemma addPlayer_turn_inv playerId playerName av col now (l : t) :
  turn_inv l → turn_inv (addPlayer playerId playerName av col now l).2.
Proof.
  unfold addPlayer. destruct (ge _ _); [done|].
  case_bool_decide; [done|]. cbn [snd].
  apply turn_inv_mono; case_bool_decide; cbn; rewrite ?length_app; try done; lia.
Qed.

Lemma handleTimeout_turn_inv (l : t) : turn_inv l → turn_inv (handleTimeout l).1.
Proof.
  unfold handleTimeout, currentPlayer. cbn.
  destruct (currentTurnIndex l) as [c|] eqn:Hc;
    [destruct (players l !! c) as [p|] eqn:Hp|];
    apply turn_inv_mono; cbn; rewrite ?length_insert; done.
Qed.

Lemma submitWord_turn_inv playerId word now (l : t) :
  turn_inv l → turn_inv (submitWord playerId word now l).2.
Proof.
  destruct (submitWord_cases playerId word now l)
    as [(reason & -> & _)|(c & p & Hpass & ->)]; [done|].
  apply turn_inv_mono; cbn; rewrite ?length_insert; done.
Qed.

(** C3.  The operations of a lobby keep the turn index inside the
    roster while a game is being played.  In such a game, removing a
    player seated before the active one lowers the index by one, and
    removing the active player takes the index modulo the size of the
    roster that remains (modulo 1 when nobody remains). *)
Theorem turn_index_within_roster (o : Op) (l : t) :
  turn_inv l →
  turn_inv (run o l)
  ∧ (players (run o l) ≠ [] → state (run o l) = playing →
     ∃ c, currentTurnIndex (run o l) = Some c
          ∧ (0 ≤ c < length (players (run o l)))%nat)
  ∧ ∀ playerId now index c,
      o = OpRemovePlayer playerId now →
      state l = playing →
      findIndex playerId (players l) = Some index →
      currentTurnIndex l = Some c →
      ((index < c)%nat → currentTurnIndex (run o l) = Some (c - 1)%nat)
      ∧ (index = c →
         currentTurnIndex (run o l)
         = Some (c mod Nat.max 1 (length (players (run o l))))%nat).
Proof.
  intros Hinv.
  assert (turn_inv (run o l)) as Hrun.
  { destruct o; cbn [Lobby.run].
    - by apply addPlayer_turn_inv.
    - by apply removePlayer_turn_inv.
    - by apply startGame_turn_inv.
    - by apply nextTurn_turn_inv.
    - by apply handleTimeout_turn_inv.
    - unfold handleTimeout_later. case_bool_decide.
      + apply endGame_turn_inv.
      + by apply advance_turn_inv.
    - by apply submitWord_turn_inv.
    - by apply advance_turn_inv.
    - apply endGame_turn_inv.
    - unfold turn_inv. done. }
  split_and!; [done| |].
  - intros _ Hst. destruct (Hrun Hst) as [c [Hc Hlt]]. exists c. split; [done|lia].
  - intros playerId now index c -> Hst Hidx Hc. cbn [Lobby.run].
    destruct (removePlayer_index playerId now l index c Hst Hidx Hc)
      as (Hp & Hc' & _).
    pose proof (findIndex_lt _ _ _ Hidx) as Hi.
    rewrite Hp, Hc', length_delete by (by apply lookup_lt_is_Some). split.
    + intros Hlt. by rewrite bool_decide_eq_true_2.
    + intros ->. rewrite bool_decide_eq_false_2 by lia.
      by rewrite bool_decide_eq_true_2.
Qed.

(** *** [startGame] *)

Lemma skipEliminated_all (ps : list Player) (fuel c : nat) :
  Forall (λ p, le (lives p) (Num 0) = true) ps →
  (c < length ps)%nat →
  skipEliminated ps fuel (Some c) = Some ((c + fuel) mod length ps)%nat.
Proof.
  intros Hall. revert c. induction fuel as [|fuel IH]; intros c Hc; simpl.
  - by rewrite Nat.add_0_r, Nat.mod_small.
  - destruct (ps !! c) as [p|] eqn:Hp; cycle 1.
    { apply lookup_ge_None in Hp. lia. }
    rewrite (proj1 (Forall_forall _ _) Hall p) by (by eapply list_elem_of_lookup_2).
    rewrite jsmod_pos by lia.
    rewrite IH by (apply Nat.mod_upper_bound; lia).
    rewrite Nat.Div0.add_mod_idemp_l. do 2 f_equal. lia.
Qed.

Lemma skipEliminated_uniform (ps : list Player) (v : number) :
  Forall (λ p, lives p = v) ps → ps ≠ [] →
  skipEliminated ps (length ps) (Some O) = Some O.
Proof.
  intros Hall Hne. destruct (le v (Num 0)) eqn:Hv.
  - rewrite skipEliminated_all.
    + simpl. by rewrite Nat.Div0.mod_same.
    + eapply Forall_impl; [exact Hall|]. by intros p ->.
    + destruct ps; [done|simpl; lia].
  - destruct ps as [|p ps]; [done|]. simpl.
    apply Forall_cons in Hall as [-> _]. by rewrite Hv.
Qed.

(** The reset [startGame] applies to each player it keeps. *)
Lemma startGame_entry syl now (l : t) :
  let readyPlayers := filter (λ p, isReady p && isConnected p = true) (players l) in
  ((startGame syl now l).1 = true ↔ (2 ≤ length readyPlayers)%nat)
  ∧ ((startGame syl now l).1 = false → (startGame syl now l).2 = l)
  ∧ ((startGame syl now l).1 = true →
     let l' := (startGame syl now l).2 in
     state l' = playing ∧ usedWords l' = ∅ ∧ currentTurnIndex l' = Some O
     ∧ turnLocked l' = false
     ∧ map player_id (players l') = map player_id readyPlayers
     ∧ Forall (λ p, lives p = startLives (settings l)
                    ∧ score p = Some (Num 0)
                    ∧ wordsCompleted p = Some (Num 0)) (players l')).
Proof.
  intros readyPlayers. unfold startGame. fold readyPlayers.
  case_bool_decide as Hready; cbn [fst snd].
  { split_and!; [split; [done|lia]|done|done]. }
  split_and!; [split; [lia|done]|done|]. intros _.
  cbn [state usedWords currentTurnIndex turnLocked players nextTurn set_timer
         set_lastActivity set_turnStartTime set_timerValue set_currentSyllable
         set_currentTurnIndex set_turnLocked set_players set_usedWords set_state
         settings].
  assert (Forall (λ p, lives p = startLives (settings l)
                    ∧ score p = Some (Num 0) ∧ wordsCompleted p = Some (Num 0))
            (map (λ p, set_wordsCompleted (Some (Num 0))
                         (set_score (Some (Num 0))
                            (set_currentInput []
                               (set_lives (startLives (settings l)) p))))
               readyPlayers)) as Hreset.
  { apply Forall_forall. intros p Hp. apply list_elem_of_In, in_map_iff in Hp.
    by destruct Hp as [p0 [<- _]]. }
  split_and!; try done.
  - apply (skipEliminated_uniform _ (startLives (settings l))).
    + eapply Forall_impl; [exact Hreset|]. by intros p [? _].
    + destruct readyPlayers; [simpl in Hready; lia|done].
  - rewrite map_map. by apply map_ext.
Qed.

(** C5.  In [waitingRoom], where two of the three seated players are
    ready, [startGame] succeeds and the roster of the lobby afterwards
    holds the two ready players only: the seat of the third is gone. *)
Theorem startGame_drops_unready_seats :
  (startGame Examples.av 2000 Examples.waitingRoom).1 = true
  ∧ findIndex "player_3" (players Examples.waitingRoom) = Some 2%nat
  ∧ findIndex "player_3"
      (players (startGame Examples.av 2000 Examples.waitingRoom).2) = None
  ∧ map player_id (players (startGame Examples.av 2000 Examples.waitingRoom).2)
    = ["player_1"; "player_2"].
Proof. by vm_compute. Qed.

(** *** Timeout against submission *)

Lemma handleTimeout_locks (l : t) :
  turnLocked (handleTimeout l).1 = true ∧ timer (handleTimeout l).1 = false.
Proof.
  unfold handleTimeout, currentPlayer. cbn.
  destruct (currentTurnIndex l) as [c|]; [destruct (players l !! c)|]; done.
Qed.

Lemma handleTimeout_loser (l : t) (c : nat) (p : Player) :
  currentTurnIndex l = Some c → players l !! c = Some p →
  players (handleTimeout l).1
  = <[c := set_currentInput [] (set_lives (sub (lives p) (Num 1)) p)]> (players l).
Proof.
  intros Hc Hp. unfold handleTimeout, currentPlayer. cbn. by rewrite Hc, Hp.
Qed.

Lemma handleTimeout_scores (l : t) :
  score <$> players (handleTimeout l).1 = score <$> players l.
Proof.
  unfold handleTimeout, currentPlayer. cbn.
  destruct (currentTurnIndex l) as [c|]; [|done].
  destruct (players l !! c) as [p|] eqn:Hp; [|done]. cbn.
  rewrite list_fmap_insert. apply list_insert_id.
  by rewrite list_lookup_fmap, Hp.
Qed.

Lemma submitWord_locked playerId word now (l : t) :
  turnLocked l = true →
  ∃ reason, submitWord playerId word now l = (Failure reason, l).
Proof.
  intros Hlock.
  destruct (submitWord_cases playerId word now l)
    as [(reason & Hrej & _)|(c & p & Hpass & _)]; [by exists reason|].
  destruct Hpass as (_ & Hfree & _). congruence.
Qed.

Lemma turnStep_inert (l : t) (e : TurnEvent) :
  turnLocked l = true → timer l = false → turnStep l e = l.
Proof.
  intros Hlock Htimer. destruct e as [playerId word now|]; simpl.
  - by destruct (submitWord_locked playerId word now l Hlock) as [reason ->].
  - unfold intervalFires. by rewrite Htimer.
Qed.

Lemma turnSteps_inert (l : t) (events : list TurnEvent) :
  turnLocked l = true → timer l = false → fold_left turnStep events l = l.
Proof.
  intros Hlock Htimer. induction events as [|e events IH]; simpl; [done|].
  by rewrite turnStep_inert.
Qed.

Lemma intervalFires_cleared (l : t) (n : nat) :
  timer l = false → Nat.iter n (λ x, (intervalFires x).1) l = l.
Proof.
  intros Htimer. induction n as [|n IH]; simpl; [done|].
  rewrite IH. unfold intervalFires. by rewrite Htimer.
Qed.

(** C2, as amended.  When timeout handling runs first it locks the
    turn: the active player loses one life, no score changes, and every
    submission that follows is a rejection that leaves the lobby as it
    is, as does every later mark of the cleared interval.  When a
    submission is accepted first it clears the interval: no life
    changes, and the interval callback no longer runs. *)
Theorem turn_outcome_timeout_or_score (l : t) :
  (let l1 := (handleTimeout l).1 in
   turnLocked l1 = true
   ∧ (∀ c p, currentTurnIndex l = Some c → players l !! c = Some p →
        players l1
        = <[c := set_currentInput [] (set_lives (sub (lives p) (Num 1)) p)]>
            (players l))
   ∧ score <$> players l1 = score <$> players l
   ∧ (∀ playerId word now,
        ∃ reason, submitWord playerId word now l1 = (Failure reason, l1))
   ∧ ∀ events, fold_left turnStep events l1 = l1)
  ∧ (∀ playerId word now l',
       submitWord playerId word now l = (Success, l') →
       timer l' = false
       ∧ lives <$> players l' = lives <$> players l
       ∧ ∀ n, Nat.iter n (λ x, (intervalFires x).1) l' = l').
Proof.
  split.
  - destruct (handleTimeout_locks l) as [Hlock Htimer]. split_and!.
    + done.
    + apply handleTimeout_loser.
    + apply handleTimeout_scores.
    + intros. by apply submitWord_locked.
    + intros. by apply turnSteps_inert.
  - intros playerId word now l' Hsub.
    destruct (submitWord_cases playerId word now l)
      as [(reason & Hrej & _)|(c & p & Hpass & Hacc)]; [congruence|].
    rewrite Hacc in Hsub. injection Hsub as <-.
    destruct Hpass as (_ & _ & _ & Hp & _).
    assert (timer (accepted c p (normalize word) now l) = false) as Htimer by done.
    split_and!; [done| |].
    + unfold accepted. cbn. rewrite list_fmap_insert. apply list_insert_id.
      by rewrite list_lookup_fmap, Hp.
    + intros n. by apply intervalFires_cleared.
Qed.

End LobbyFacts.

(** ** The lobby on a concrete game *)

Section LobbyOnExamples.
Import JS Lobby Examples.

#[local] Abbreviation submit := (Lobby.submitWord lowerBasic sampleEntries).

(** In [midTurn] the active player submits a six-letter dictionary word
    that contains the syllable. *)
Lemma submitWord_accepted_iff_witness :
  (∀ p, currentPlayer midTurn = Some p → lives p ≠ NaN)
  ∧ le (Num 2) (minWordLength (settings midTurn)) = true
  ∧ (submit "player_1" (JStr bavshvi) 2500 midTurn).1 = Success
  ∧ Lobby.accepts lowerBasic sampleEntries midTurn "player_1"
      (Lobby.normalize lowerBasic (JStr bavshvi)).
Proof.
  assert (∀ p, currentPlayer midTurn = Some p → lives p ≠ NaN) as Hlives.
  { intros p [= <-]. simpl. discriminate. }
  assert (le (Num 2) (minWordLength (settings midTurn)) = true) as Hmin
    by reflexivity.
  split_and!; [done|done|by vm_compute|].
  apply (submitWord_accepted_iff lowerBasic sampleEntries "player_1" bavshvi 2500
           midTurn Hlives Hmin).
  by vm_compute.
Defined.

(** The example of the specification: six letters, five seconds left
    of ten, 90 points. *)
Lemma submitWord_awards_score_witness :
  ∃ p' pts,
    players (submit "player_1" (JStr bavshvi) 2500 midTurn).2 !! O = Some p'
    ∧ score p' = Some (add (Num 0) (Num pts))
    ∧ (pts == 90)%Q.
Proof.
  destruct (submitWord_awards_score lowerBasic sampleEntries "player_1"
              (JStr bavshvi) 2500 midTurn
              (submit "player_1" (JStr bavshvi) 2500 midTurn).2 O
              activeSeat 5 10)
    as (p' & d & pts & Hp' & Hd & _ & _ & Hscore & Hpts & _).
  - by vm_compute.
  - reflexivity.
  - by vm_compute.
  - reflexivity.
  - reflexivity.
  - reflexivity.
  - discriminate.
  - exists p', pts. split_and!; [done|done|]. rewrite Hpts.
    vm_compute in Hd. injection Hd as <-. by vm_compute.
Defined.

(** The active player of [midTurn] leaves: the index wraps, and the
    game ends because one player remains. *)
Lemma turn_index_within_roster_witness :
  turn_inv midTurn
  ∧ turn_inv (Lobby.run lowerBasic sampleEntries (OpRemovePlayer "player_1" 3000)
                midTurn)
  ∧ currentTurnIndex
      (Lobby.run lowerBasic sampleEntries (OpRemovePlayer "player_1" 3000) midTurn)
    = Some O.
Proof.
  assert (turn_inv midTurn) as Hinv.
  { intros _. exists O. split; [reflexivity|simpl; lia]. }
  destruct (turn_index_within_roster lowerBasic sampleEntries
              (OpRemovePlayer "player_1" 3000) midTurn Hinv) as (Hrun & _ & Hrem).
  split_and!; [done|done|].
  destruct (Hrem "player_1" 3000 O O) as [_ Hwrap]; [reflexivity..|].
  by rewrite Hwrap.
Defined.

(** A timeout in [midTurn] followed by a submission, and a submission
    followed by a mark of the interval. *)
Lemma turn_outcome_timeout_or_score_witness :
  (∃ reason,
     submit "player_1" (JStr bavshvi) 2500 (handleTimeout midTurn).1
     = (Failure reason, (handleTimeout midTurn).1))
  ∧ (intervalFires (submit "player_1" (JStr bavshvi) 2500 midTurn).2).1
    = (submit "player_1" (JStr bavshvi) 2500 midTurn).2.
Proof.
  destruct (turn_outcome_timeout_or_score lowerBasic sampleEntries midTurn)
    as [(_ & _ & _ & Hrej & _) Hacc].
  split; [apply Hrej|].
  destruct (Hacc "player_1" (JStr bavshvi) 2500
              (submit "player_1" (JStr bavshvi) 2500 midTurn).2)
    as (_ & _ & Hidle).
  - by vm_compute.
  - exact (Hidle 1%nat).
Defined.

(** C2, the claim as stated.  An accepted submission does not lock the
    turn: in [midTurn] the active player has a word accepted, the turn
    stays unlocked, and a second word submitted in the same turn is
    accepted and scored as well. *)
Lemma accepted_submission_leaves_turn_unlocked :
  ∃ l1 l2,
    submit "player_1" (JStr bavshvi) 2500 midTurn = (Success, l1)
    ∧ turnLocked l1 = false
    ∧ submit "player_1" (JStr tavi) 2600 l1 = (Success, l2)
    ∧ (score <$> players l1) !! O = Some (Some (Num 90))
    ∧ (score <$> players l2) !! O = Some (Some (Num 155)).
Proof.
  eexists _, _. split_and!.
  - vm_compute. reflexivity.
  - reflexivity.
  - vm_compute. reflexivity.
  - by vm_compute.
  - by vm_compute.
Qed.

(** C4, the claim as stated.  With a turn time of [6.666666666666631]
    and four marks of the interval gone, the code computes
    [(T / M) * 50] as exactly [48.5], which [Math.round] takes up to 49:
    a six-letter word earns 114 points, where
    [10 L + round(50 T / M) + max(0, (L - 5) 5)] in exact arithmetic
    gives 113. *)
Lemma score_differs_from_exact_formula :
  timerValue fourTicks = Num (7280819397582263 # 1125899906842624)
  ∧ turnTime (settings fourTicks) = Num oddTurnTime
  ∧ speedRatio (7280819397582263 # 1125899906842624) oddTurnTime = Num (97 # 2)
  ∧ (score <$> players (submit "player_1" (JStr bavshvi) 2200 fourTicks).2) !! O
    = Some (Some (Num 114))
  ∧ spec_score 6 (7280819397582263 # 1125899906842624) oddTurnTime = 113.
Proof. split_and!; by vm_compute. Qed.

(** C1.  In [noLivesGame] the settings handler has stored [NaN] as
    [startLives] and [startGame] has copied it to every seat: nobody
    counts as alive for [getAlivePlayers], yet [submitWord] accepts the
    word of the active player, whose lives are not above zero. *)
Theorem submitWord_accepts_without_lives :
  (∃ p, currentPlayer noLivesGame = Some p ∧ lives p = NaN)
  ∧ getAlivePlayers noLivesGame = []
  ∧ (submit "player_1" (JStr bavshvi) 2500 noLivesGame).1 = Success
  ∧ ¬ Lobby.accepts lowerBasic sampleEntries noLivesGame "player_1"
        (Lobby.normalize lowerBasic (JStr bavshvi)).
Proof.
  split_and!.
  - eexists. split; [by vm_compute|reflexivity].
  - by vm_compute.
  - by vm_compute.
  - intros (_ & _ & (p & Hp & _ & Hgt & _) & _).
    vm_compute in Hp. injection Hp as <-. discriminate Hgt.
Qed.

End LobbyOnExamples.

(** ** The [game:start] handler *)

Section GameStartFacts.
Import JS Server.

(** A game starts only for the host of the lobby, and only with two
    players who are ready and connected. *)
Lemma onGameStart_host_and_ready socket syl now (s : t) :
  (onGameStart socket syl now s).1 = true →
  ∃ playerId lobbyId lobby,
    lobbyOf socket s = Some (playerId, lobbyId, lobby)
    ∧ Lobby.hostId lobby = playerId
    ∧ (2 ≤ length (filter (λ p, Lobby.isReady p && Lobby.isConnected p = true)
                     (Lobby.players lobby)))%nat.
Proof.
  unfold onGameStart.
  destruct (lobbyOf socket s) as [[[playerId lobbyId] lobby]|]; [|done].
  case_bool_decide as Hhost; [done|]. case_bool_decide as Hlen; [done|].
  destruct (Lobby.startGame syl now lobby) as [started lobby'] eqn:Hstart.
  simpl. intros ->. exists playerId, lobbyId, lobby. split_and!; [done|done|].
  apply (startGame_entry syl now lobby). by rewrite Hstart.
Qed.

End GameStartFacts.

(** * Further properties *)

(** ** Sanitization *)

Section SanitizeFacts.
Import JS Sanitize.

Lemma dropWhile_split {A} (f : A → bool) (s : list A) :
  ∃ dropped, s = dropped ++ dropWhile f s ∧ Forall (λ c, f c = true) dropped.
Proof.
  induction s as [|c s (dropped & Heq & Hall)]; simpl.
  - by exists [].
  - destruct (f c) eqn:Hc.
    + exists (c :: dropped). split; [by rewrite <- app_comm_cons, <- Heq|].
      by constructor.
    + by exists [].
Qed.

Lemma dropWhile_head {A} (f : A → bool) (s : list A) c r :
  dropWhile f s = c :: r → f c = false.
Proof.
  induction s as [|c' s IH]; simpl; [done|].
  destruct (f c') eqn:Hc; [done|]. by intros [= <- _].
Qed.

Lemma dropWhile_id {A} (f : A → bool) (s : list A) :
  (∀ c r, s = c :: r → f c = false) → dropWhile f s = s.
Proof.
  destruct s as [|c s]; [done|]. intros H. simpl. by rewrite (H c s).
Qed.

Lemma trim_split (s : jsstring) : ∃ before after, s = before ++ trim s ++ after.
Proof.
  unfold trim.
  destruct (dropWhile_split whitespace s) as (before & Hs & _).
  destruct (dropWhile_split whitespace (reverse (dropWhile whitespace s)))
    as (after & Hr & _).
  exists before, (reverse after). rewrite <- reverse_app, <- Hr, reverse_involutive.
  done.
Qed.

Lemma trim_trimmed (s : jsstring) : trimmed (trim s).
Proof.
  unfold trim.
  destruct (dropWhile_split whitespace (reverse (dropWhile whitespace s)))
    as (after & Hr & _).
  set (D := dropWhile whitespace (reverse (dropWhile whitespace s))) in *.
  split.
  - intros c r Hc.
    assert (dropWhile whitespace s = c :: r ++ reverse after) as Hd.
    { apply (inj reverse). rewrite Hr, reverse_cons, reverse_app, reverse_involutive.
      rewrite <- (reverse_involutive D), Hc, reverse_cons.
      by rewrite <- app_assoc. }
    by eapply dropWhile_head.
  - intros c r Hc.
    assert (D = c :: reverse r) as Hd.
    { rewrite <- (reverse_involutive D), Hc. by rewrite reverse_app. }
    by eapply dropWhile_head.
Qed.

Lemma trim_id (s : jsstring) : trimmed s → trim s = s.
Proof.
  intros [Hhead Hlast]. unfold trim. rewrite (dropWhile_id _ s Hhead).
  rewrite dropWhile_id; [apply reverse_involutive|].
  intros c r Hc. apply (Hlast c (reverse r)).
  by rewrite <- (reverse_involutive s), Hc, reverse_cons.
Qed.

Lemma trim_length (s : jsstring) : (length (trim s) ≤ length s)%nat.
Proof.
  destruct (trim_split s) as (before & after & Heq).
  rewrite Heq at 2. rewrite !length_app. lia.
Qed.

Lemma trim_Forall (P : N → Prop) (s : jsstring) : Forall P s → Forall P (trim s).
Proof.
  destruct (trim_split s) as (before & after & Heq). rewrite Heq at 1.
  intros H. apply Forall_app in H as [_ H]. by apply Forall_app in H as [H _].
Qed.

(** X1.  The text [sanitizeText] returns has at most [maxLength] code
    units, holds none of the six characters it filters, and neither
    starts nor ends with white space; for an argument that is not a
    string it is the empty string. *)
Theorem sanitizeText_clean (text : value) (maxLength : nat) :
  (length (sanitizeText text maxLength) ≤ maxLength)%nat
  ∧ Forall (λ c, dangerous c = false) (sanitizeText text maxLength)
  ∧ trimmed (sanitizeText text maxLength)
  ∧ ((∀ s, text ≠ JStr s) → sanitizeText text maxLength = []).
Proof.
  destruct text as [| | | |s|]; simpl;
    try (split_and!; [lia|constructor|by split; intros c [|? ?]|done]).
  split_and!.
  - etrans; [apply trim_length|]. rewrite length_take. lia.
  - apply trim_Forall, Forall_take, Forall_forall.
    intros c Hc. apply list_elem_of_filter in Hc as [Hc _].
    by destruct (dangerous c).
  - apply trim_trimmed.
  - intros H. by destruct (H s).
Qed.

Lemma stripTags_id (s : jsstring) :
  Forall (λ c, dangerous c = false) s → stripTags s = s.
Proof.
  induction 1 as [|c s Hc _ IH]; simpl; [done|].
  rewrite IH. case_bool_decide as H60; [|done]. by subst c.
Qed.

Lemma filter_id {A} (P : A → Prop) `{!∀ x, Decision (P x)} (s : list A) :
  Forall P s → filter P s = s.
Proof.
  induction 1 as [|c s Hc _ IH]; [done|].
  rewrite filter_cons_True by done. by rewrite IH.
Qed.

Lemma Forall_negb {A} (f : A → bool) (s : list A) :
  Forall (λ c, f c = false) s → Forall (λ c, negb (f c)) s.
Proof. intros H. eapply Forall_impl; [exact H|]. by intros c ->. Qed.

(** A name as [sanitizeName] returns it. *)
Lemma sanitizeName_stable (out : jsstring) (maxLength : nat) :
  out ≠ [] → (length out ≤ maxLength)%nat →
  Forall (λ c, dangerous c = false) out → Forall (λ c, control c = false) out →
  trimmed out →
  sanitizeName (JStr out) maxLength = out.
Proof.
  intros Hne Hlen Hd Hc Ht. unfold sanitizeName.
  rewrite (stripTags_id _ Hd).
  rewrite (filter_id _ out) by (by apply Forall_negb).
  rewrite (filter_id _ out) by (by apply Forall_negb).
  rewrite take_ge by done. rewrite (trim_id _ Ht).
  by rewrite bool_decide_eq_false_2.
Qed.

Lemma Guest_clean :
  Forall (λ c, dangerous c = false) (lit "Guest")
  ∧ Forall (λ c, control c = false) (lit "Guest")
  ∧ trimmed (lit "Guest").
Proof.
  split_and!; [by apply (bool_decide_unpack _)..|].
  split.
  - by intros c r [= <- _].
  - intros c r H. destruct r as [|? [|? [|? [|? [|? [|? r]]]]]]; try done.
    by injection H as _ _ _ _ <-.
Qed.

(** X2.  The name [sanitizeName] returns is never empty; it holds none
    of the filtered characters and no control character, neither starts
    nor ends with white space, and has at most [maxLength] code units
    unless it is the five-letter default. *)
Theorem sanitizeName_clean (name : value) (maxLength : nat) :
  sanitizeName name maxLength ≠ []
  ∧ (length (sanitizeName name maxLength) ≤ Nat.max maxLength 5)%nat
  ∧ Forall (λ c, dangerous c = false ∧ control c = false)
      (sanitizeName name maxLength)
  ∧ trimmed (sanitizeName name maxLength).
Proof.
  destruct Guest_clean as (Gd & Gc & Gt).
  assert (Forall (λ c, dangerous c = false ∧ control c = false) (lit "Guest"))
    as Gdc.
  { apply Forall_and. by split. }
  assert (lit "Guest" ≠ [] ∧ (length (lit "Guest") ≤ Nat.max maxLength 5)%nat)
    as [Gne Glen] by (split; [done|simpl; lia]).
  destruct name as [| | | |s|]; simpl; try done.
  case_bool_decide as Hempty; [done|].
  split_and!; [done| | |apply trim_trimmed].
  - etrans; [apply trim_length|]. rewrite length_take. lia.
  - apply trim_Forall, Forall_take, Forall_forall. intros c Hc.
    apply list_elem_of_filter in Hc as [Hctl Hc].
    apply list_elem_of_filter in Hc as [Hdan _].
    split; [by destruct (dangerous c)|by destruct (control c)].
Qed.

(** X3.  For a bound of at least five, sanitizing a sanitized name
    changes nothing: the name the join handler has cleaned is stored
    unchanged by [addPlayer]. *)
Theorem sanitizeName_idempotent (name : value) (maxLength : nat) :
  (5 ≤ maxLength)%nat →
  sanitizeName (JStr (sanitizeName name maxLength)) maxLength
  = sanitizeName name maxLength.
Proof.
  intros Hmax.
  destruct (sanitizeName_clean name maxLength) as (Hne & Hlen & Hall & Ht).
  apply Forall_and in Hall as [Hd Hc].
  apply sanitizeName_stable; try done. lia.
Qed.

Lemma sanitizeName_idempotent_witness :
  sanitizeName (JStr (sanitizeName (JStr (lit " <b>Ana</b> ")) 20)) 20 = lit "Ana".
Proof.
  rewrite (sanitizeName_idempotent (JStr (lit " <b>Ana</b> ")) 20) by lia.
  reflexivity.
Defined.

End SanitizeFacts.

(** ** The rate limiter over time *)

Section RateLimiterMore.
Import RateLimiter.

Lemma prune_length bound ts : (length (prune bound ts) ≤ length ts)%nat.
Proof.
  destruct (prune_split bound ts) as (old & Heq & _).
  rewrite Heq at 2. rewrite length_app. lia.
Qed.

Lemma prune_prune b' b ts : b' <= b → prune b (prune b' ts) = prune b ts.
Proof.
  intros Hb. induction ts as [|t ts IH]; simpl; [done|].
  case_bool_decide as Ht'.
  - rewrite IH. by rewrite bool_decide_eq_true_2 by lia.
  - done.
Qed.

Lemma attempt_inv socketId event N W now now' st :
  0 <= N → now <= now' →
  run_inv socketId event N W now st →
  run_inv socketId event N W now' (attempt socketId event N W st now').
Proof.
  intros HN Hnow (Hlen & dropped & Hacc & Hdrop).
  unfold attempt, isRateLimited, run_inv.
  set (k := key socketId event) in *.
  set (stored := default [] (st.2 !! k)) in *.
  destruct (prune_split (now' - W) stored) as (old & Hold & Hall).
  pose proof (prune_length (now' - W) stored) as Hpl.
  assert (Forall (λ t, t < now' - W) (dropped ++ old)) as Hd.
  { apply Forall_app. split; [|done].
    eapply Forall_impl; [exact Hdrop|]. intros t Ht. simpl in Ht. lia. }
  case_bool_decide as Hfull; simpl; rewrite lookup_insert_eq; simpl.
  - split; [lia|]. exists (dropped ++ old). split; [|done].
    by rewrite Hacc, Hold at 1; rewrite app_assoc.
  - split; [rewrite length_app; simpl; lia|].
    exists (dropped ++ old). split; [|done].
    rewrite Hacc. rewrite Hold at 1. by rewrite !app_assoc.
Qed.

Lemma filter_none {A} (P : A → Prop) `{!∀ x, Decision (P x)} (l : list A) :
  Forall (λ x, ¬ P x) l → filter P l = [].
Proof.
  induction 1 as [|x l Hx _ IH]; [done|]. by rewrite filter_cons_False.
Qed.

Lemma last_cons {A} (x d : A) (l : list A) : List.last (x :: l) d = List.last l x.
Proof.
  revert x d. induction l as [|y l IH]; intros x d; [done|].
  change (List.last (x :: y :: l) d) with (List.last (y :: l) d).
  by rewrite !IH.
Qed.

Lemma attempts_inv socketId event N W nows now st :
  0 <= N → Sorted Z.le (now :: nows) →
  run_inv socketId event N W now st →
  run_inv socketId event N W (List.last nows now)
    (fold_left (attempt socketId event N W) nows st).
Proof.
  intros HN. revert now st. induction nows as [|now' nows IH]; intros now st Hs Hinv.
  - done.
  - apply Sorted_inv in Hs as [Hs Hhd]. apply HdRel_inv in Hhd.
    cbn [fold_left].
    rewrite last_cons. apply IH; [done|]. by apply (attempt_inv _ _ _ _ now).
Qed.

(** X4.  Over a run of attempts of one kind from one socket, made at
    clock values that do not decrease and starting with nothing
    recorded, the attempts let through inside the window that ends at
    the last attempt number at most [maxRequests]. *)
Theorem rate_limit_at_most_N_per_window (socketId event : string) (N W : Z)
    (first : Z) (nows : list Z) (rateLimits : gmap string (list Z)) :
  0 <= N →
  Sorted Z.le (first :: nows) →
  rateLimits !! key socketId event = None →
  let passed := (attempts socketId event N W (first :: nows) rateLimits).1 in
  Z.of_nat (length (inWindow W (List.last nows first) passed)) <= N.
Proof.
  intros HN Hs Hnone passed.
  assert (run_inv socketId event N W first ([], rateLimits)) as Hinit.
  { unfold run_inv. simpl. rewrite Hnone. simpl. split; [lia|]. by exists []. }
  assert (Sorted Z.le (first :: first :: nows)) as Hs2.
  { constructor; [done|]. constructor. lia. }
  pose proof (attempts_inv socketId event N W (first :: nows) first _ HN Hs2 Hinit)
    as Hrun.
  rewrite last_cons in Hrun.
  destruct Hrun as (Hlen & dropped & Hacc & Hdrop).
  unfold passed, attempts. rewrite Hacc. unfold inWindow.
  rewrite filter_app, length_app.
  rewrite (filter_none _ dropped); cycle 1.
  { eapply Forall_impl; [exact Hdrop|]. intros t Ht. simpl in *. lia. }
  pose proof (length_filter (λ t, List.last nows first - W <= t)
                (default [] ((fold_left (attempt socketId event N W)
                                (first :: nows) ([], rateLimits)).2
                             !! key socketId event))).
  simpl in *. lia.
Qed.

(** Five joins allowed per ten seconds: of seven attempts in two seconds,
    five pass. *)
Lemma rate_limit_at_most_N_per_window_witness :
  Z.of_nat
    (length
       (inWindow 10000 2800
          (attempts "s1" "lobby:join" 5 10000
             [1000; 1300; 1600; 1900; 2200; 2500; 2800] ∅).1)) <= 5
  ∧ (attempts "s1" "lobby:join" 5 10000
       [1000; 1300; 1600; 1900; 2200; 2500; 2800] ∅).1
    = [1000; 1300; 1600; 1900; 2200].
Proof.
  split; [|by vm_compute].
  apply (rate_limit_at_most_N_per_window "s1" "lobby:join" 5 10000 1000
           [1300; 1600; 1900; 2200; 2500; 2800] ∅).
  - lia.
  - repeat (constructor; [|try constructor; lia]). constructor.
  - reflexivity.
Defined.

End RateLimiterMore.

Section SweepFacts.
Import RateLimiter.

Lemma sweep_lookup now rateLimits k :
  default [] (sweep now rateLimits !! k)
  = prune (now - 10000) (default [] (rateLimits !! k)).
Proof.
  unfold sweep. rewrite lookup_omap.
  destruct (rateLimits !! k) as [ts|]; simpl; [|done].
  case_bool_decide as Hlen; simpl; [|done].
  by destruct (prune (now - 10000) ts).
Qed.

(** X5.  The periodic clean-up leaves no empty entry, and what it keeps
    of an entry is the entry without some of its oldest timestamps.  It
    never changes the answer, nor the timestamps recorded, of a later
    attempt whose window is at most ten seconds. *)
Theorem sweep_keeps_answers (socketId event : string) (N W sweepTime now : Z)
    (rateLimits : gmap string (list Z)) :
  W <= 10000 → sweepTime <= now →
  (∀ k kept, sweep sweepTime rateLimits !! k = Some kept →
     kept ≠ [] ∧ ∃ oldest, rateLimits !! k = Some (oldest ++ kept))
  ∧ (isRateLimited socketId event N W now (sweep sweepTime rateLimits)).1
    = (isRateLimited socketId event N W now rateLimits).1
  ∧ (isRateLimited socketId event N W now (sweep sweepTime rateLimits)).2
      !! key socketId event
    = (isRateLimited socketId event N W now rateLimits).2 !! key socketId event.
Proof.
  intros HW Hnow. split.
  - intros k kept. unfold sweep. rewrite lookup_omap.
    destruct (rateLimits !! k) as [ts|]; simpl; [|done].
    case_bool_decide as Hlen; simpl; [done|]. intros [= <-]. split.
    + intros E. by rewrite E in Hlen.
    + destruct (prune_split (sweepTime - 10000) ts) as (old & Heq & _).
      exists old. by rewrite <- Heq.
  - unfold isRateLimited. rewrite sweep_lookup, prune_prune by lia.
    case_bool_decide; simpl; by rewrite !lookup_insert_eq.
Qed.

Lemma sweep_keeps_answers_witness :
  sweep 30000 {[ key "s1" "submit" := [1000; 29500]; key "s2" "typing" := [500] ]}
  = {[ key "s1" "submit" := [29500] ]}
  ∧ (isRateLimited "s1" "submit" 5 1000 30100
       (sweep 30000 {[ key "s1" "submit" := [1000; 29500] ]})).1 = false.
Proof.
  split; [by vm_compute|].
  destruct (sweep_keeps_answers "s1" "submit" 5 1000 30000 30100
              {[ key "s1" "submit" := [1000; 29500] ]}) as (_ & -> & _);
    [lia|lia|reflexivity].
Defined.

End SweepFacts.

(** ** Random draws *)

Section DrawFacts.
Import JS Helpers.




End DrawFacts.

(** ** Sorting and the dictionary *)

Section SortFacts.
Import JS JSArray.
Context {A : Type} (compareFn : A → A → number).

Lemma insertBy_Permutation (x : A) (l : list A) : insertBy compareFn x l ≡ₚ x :: l.
Proof.
  induction l as [|y l IH]; cbn [insertBy]; [done|].
  destruct (gt _ _); [|done]. rewrite IH. apply Permutation_swap.
Qed.

Lemma sortBy_Permutation (l : list A) : sortBy compareFn l ≡ₚ l.
Proof.
  unfold sortBy. induction l as [|x l IH]; simpl; [done|].
  by rewrite insertBy_Permutation, IH.
Qed.

End SortFacts.

Section DictionaryFacts.
Import JS Dictionary.

Lemma splitOn_pieces (P : N → Prop) (sep : N) (s : jsstring) :
  Forall P s →
  Forall (λ piece, Forall P piece ∧ sep ∉ piece) (splitOn sep s).
Proof.
  induction 1 as [|c s Hc _ IH]; simpl.
  - constructor; [|done]. split; [done|]. apply not_elem_of_nil.
  - case_bool_decide as Hsep.
    + constructor; [|done]. split; [done|]. apply not_elem_of_nil.
    + destruct (splitOn sep s) as [|piece pieces]; simpl.
      * constructor; [|done]. split; [by constructor|].
        apply not_elem_of_cons. split; [congruence|apply not_elem_of_nil].
      * apply Forall_cons in IH as [[HP Hno] IH]. constructor; [|done].
        split; [by constructor|]. apply not_elem_of_cons. split; [congruence|done].
Qed.

(** X7.  A word that [loadWords] keeps has at least two code units and
    holds neither a space nor a line feed. *)
Theorem loaded_words_are_tokens (data : jsstring) :
  Forall (λ word, (2 ≤ length word)%nat ∧ (32%N ∉ word) ∧ (10%N ∉ word))
    (wordsOf data).
Proof.
  apply Forall_forall. intros word Hw. unfold wordsOf in Hw.
  apply list_elem_of_filter in Hw as [Hlen Hw]. split; [done|].
  unfold entriesOf in Hw. apply list_elem_of_In, in_map_iff in Hw as (line & <- & Hline).
  apply list_elem_of_In in Hline.
  assert (10%N ∉ line) as Hnl.
  { pose proof (splitOn_pieces (λ _, True) 10 data (Forall_true _ _ (λ _, I)))
      as Hlines.
    by apply (proj1 (Forall_forall _ _) Hlines line Hline). }
  assert (Forall (λ c, c ≠ 10%N) (Sanitize.trim line)) as Htrim.
  { apply trim_Forall, Forall_forall. by intros c Hc ->. }
  pose proof (splitOn_pieces (λ c, c ≠ 10%N) 32 (Sanitize.trim line) Htrim) as Htok.
  unfold firstToken. destruct (splitOn 32 (Sanitize.trim line)) as [|token rest].
  - split; apply not_elem_of_nil.
  - apply Forall_cons in Htok as [[Hno10 Hno32] _]. split; [done|].
    intros H10. by apply (proj1 (Forall_forall _ _) Hno10 _ H10).
Qed.

Lemma map_fmap {A B} (f : A → B) (l : list A) : map f l = f <$> l.
Proof. induction l as [|x l IH]; simpl; [done|]. by rewrite IH. Qed.

Lemma bump_keys (syl : jsstring) (m : list (jsstring * nat)) :
  (bump syl m).*1 = if decide (syl ∈ m.*1) then m.*1 else m.*1 ++ [syl].
Proof.
  induction m as [|[k count] m IH]; cbn [bump].
  - destruct (decide (syl ∈ [].*1)) as [Hin|_]; [|reflexivity].
    by apply elem_of_nil in Hin.
  - rewrite !fmap_cons. cbn [fst]. case_bool_decide as Hk.
    + subst k. rewrite fmap_cons. cbn [fst].
      destruct (decide (syl ∈ syl :: m.*1)) as [_|Hout]; [reflexivity|].
      destruct Hout. apply list_elem_of_here.
    + rewrite fmap_cons, IH. cbn [fst].
      destruct (decide (syl ∈ m.*1)) as [Hin|Hout];
        destruct (decide (syl ∈ k :: m.*1)) as [Hin'|Hout']; try done.
      * destruct Hout'. by apply list_elem_of_further.
      * apply elem_of_cons in Hin' as [->|Hin']; done.
Qed.

Section Keys.
Variable Q : jsstring → Prop.

#[local] Abbreviation keys_ok := (Dictionary.keys_ok Q).

Lemma bump_ok syl m : Q syl → keys_ok m → keys_ok (bump syl m).
Proof.
  intros HQ [Hnd Hall]. unfold Dictionary.keys_ok. rewrite bump_keys.
  destruct (decide (syl ∈ m.*1)) as [Hin|Hout]; [done|]. split.
  - apply NoDup_app. split_and!; [done| |apply NoDup_singleton].
    intros x Hx Hs. apply list_elem_of_singleton in Hs. by subst x.
  - apply Forall_app. split; [done|]. by constructor.
Qed.

Lemma countAt_ok word m i :
  Q (substring word i (i + 2)) →
  ((i < length word - 2)%nat → Q (substring word i (i + 3))) →
  keys_ok m → keys_ok (countAt word m i).
Proof.
  intros H2 H3 Hm. unfold countAt. case_bool_decide as Hi.
  - apply bump_ok; [by apply H3|]. by apply bump_ok.
  - by apply bump_ok.
Qed.

Lemma countWord_ok word m :
  ((3 ≤ length word)%nat →
   ∀ i, (i < length word - 1)%nat → Q (substring word i (i + 2))) →
  ((3 ≤ length word)%nat →
   ∀ i, (i < length word - 2)%nat → Q (substring word i (i + 3))) →
  keys_ok m → keys_ok (countWord m word).
Proof.
  intros H2 H3 Hm. unfold countWord. case_bool_decide as Hlen; [|done].
  specialize (H2 Hlen). specialize (H3 Hlen).
  assert (∀ idxs, Forall (λ i, i < length word - 1)%nat idxs →
                ∀ m, keys_ok m → keys_ok (fold_left (countAt word) idxs m))
    as Hfold.
  { induction 1 as [|i idxs Hi _ IH]; intros m' Hm'; simpl; [done|].
    apply IH, countAt_ok; auto. }
  apply Hfold; [|done]. apply Forall_forall. intros i Hi.
  apply list_elem_of_In, in_seq in Hi. lia.
Qed.

End Keys.

Lemma filter_keys_sublist (P : jsstring * nat → Prop) `{!∀ e, Decision (P e)}
    (m : list (jsstring * nat)) :
  (filter P m).*1 `sublist_of` m.*1.
Proof.
  induction m as [|e m IH]; [done|]. destruct (decide (P e)) as [He|He].
  - rewrite filter_cons_True by done. rewrite !fmap_cons. by constructor.
  - rewrite filter_cons_False by done. rewrite fmap_cons. by constructor.
Qed.

Lemma substring_of_word (word : jsstring) (i n : nat) :
  (i + n ≤ length word)%nat →
  length (substring word i (i + n)) = n
  ∧ Lobby.substring_of (substring word i (i + n)) word.
Proof.
  intros Hlen. unfold substring. replace (i + n - i)%nat with n by lia. split.
  - rewrite length_take, length_drop. lia.
  - exists (take i word), (drop n (drop i word)). by rewrite !take_drop.
Qed.

(** X8.  [loadWords] extracts at most 200 syllables, no syllable twice;
    each has two or three code units and occurs in a dictionary word of
    at least three code units. *)
Theorem syllables_come_from_words (WORDS : list jsstring) :
  (length (syllablesOf WORDS) ≤ 200)%nat
  ∧ NoDup (syllablesOf WORDS)
  ∧ Forall (λ syl, (length syl = 2%nat ∨ length syl = 3%nat)
                   ∧ ∃ word, word ∈ WORDS ∧ (3 ≤ length word)%nat
                             ∧ Lobby.substring_of syl word)
      (syllablesOf WORDS).
Proof.
  set (Q := λ syl : jsstring,
              (length syl = 2%nat ∨ length syl = 3%nat)
              ∧ ∃ word, word ∈ WORDS ∧ (3 ≤ length word)%nat
                        ∧ Lobby.substring_of syl word).
  assert (∀ ws, Forall (λ w, w ∈ WORDS) ws →
                ∀ m, keys_ok Q m → keys_ok Q (fold_left countWord ws m)) as Hfold.
  { induction 1 as [|w ws Hw _ IH]; intros m Hm; simpl; [done|].
    apply IH. apply countWord_ok; [| |done].
    - intros Hlen i Hi. destruct (substring_of_word w i 2) as [Hl Hs]; [lia|].
      split; [by left|]. by exists w.
    - intros Hlen i Hi. destruct (substring_of_word w i 3) as [Hl Hs]; [lia|].
      split; [by right|]. by exists w. }
  assert (keys_ok Q (syllableMapOf WORDS)) as [Hnd Hall].
  { apply Hfold; [apply Forall_forall; auto|]. split; constructor. }
  unfold syllablesOf. rewrite map_fmap.
  set (kept := filter _ (syllableMapOf WORDS)).
  set (sorted := JSArray.sortBy _ kept).
  assert (kept.*1 `sublist_of` (syllableMapOf WORDS).*1) as Hsub1.
  { apply filter_keys_sublist. }
  assert (sorted.*1 ≡ₚ kept.*1) as Hperm.
  { unfold sorted. by rewrite sortBy_Permutation. }
  assert ((take 200 sorted).*1 `sublist_of` sorted.*1) as Hsub2.
  { rewrite fmap_take. apply sublist_take. }
  split_and!.
  - rewrite length_fmap, length_take. lia.
  - eapply sublist_NoDup; [|exact Hsub2]. rewrite Hperm.
    by eapply sublist_NoDup.
  - apply Forall_forall. intros syl Hsyl.
    eapply (proj1 (Forall_forall _ _) Hall).
    eapply elem_of_sublist; [|exact Hsub1]. rewrite <- Hperm.
    by eapply elem_of_sublist.
Qed.

End DictionaryFacts.

(** ** More on the lobby *)

Section LobbyMoreFacts.
Import JS Sanitize Lobby.

Variable toLowerCase : jsstring → jsstring.
Variable entries : list jsstring.

#[local] Abbreviation submitWord := (Lobby.submitWord toLowerCase entries).
#[local] Abbreviation normalize := (Lobby.normalize toLowerCase).
#[local] Abbreviation run := (Lobby.run toLowerCase entries).

(** *** Eliminated players are skipped *)

Lemma skipEliminated_finds (ps : list Player) (fuel c : nat) :
  (c < length ps)%nat →
  (∃ k p, (k < fuel)%nat ∧ ps !! ((c + k) mod length ps)%nat = Some p
          ∧ le (lives p) (Num 0) = false) →
  ∃ r p', skipEliminated ps fuel (Some c) = Some r ∧ ps !! r = Some p'
          ∧ le (lives p') (Num 0) = false.
Proof.
  revert c. induction fuel as [|fuel IH]; intros c Hc (k & p & Hk & Hp & Hlive);
    [lia|].
  cbn [skipEliminated].
  destruct (ps !! c) as [q|] eqn:Hq; cycle 1.
  { apply lookup_ge_None in Hq. lia. }
  destruct (le (lives q) (Num 0)) eqn:Hdead; [|by exists c, q].
  destruct k as [|k].
  { rewrite Nat.add_0_r, Nat.mod_small in Hp by done. congruence. }
  rewrite jsmod_pos by lia. apply IH; [apply Nat.mod_upper_bound; lia|].
  exists k, p. split_and!; [lia| |done].
  rewrite Nat.Div0.add_mod_idemp_l. rewrite <- Hp. do 2 f_equal. lia.
Qed.

(** X9.  When the turn index points into the roster, no seat has
    [NaN] lives and some player has lives above zero, [nextTurn] leaves
    the turn with a player whose lives are above zero; it stays with the
    player at the index if that player's lives are above zero. *)
Theorem nextTurn_skips_eliminated (syl : jsstring) (now : Z) (l : t) (c : nat) :
  currentTurnIndex l = Some c →
  (c < length (players l))%nat →
  Forall (λ p, lives p ≠ NaN) (players l) →
  (∃ p, p ∈ players l ∧ gt (lives p) (Num 0) = true) →
  (∃ p', currentPlayer (nextTurn syl now l) = Some p'
         ∧ gt (lives p') (Num 0) = true)
  ∧ (∀ p, players l !! c = Some p → gt (lives p) (Num 0) = true →
          currentTurnIndex (nextTurn syl now l) = Some c).
Proof.
  intros Hc Hlt Hnum (p & Hin & Hlive).
  assert (∀ q, q ∈ players l →
               le (lives q) (Num 0) = false ↔ gt (lives q) (Num 0) = true)
    as Halive.
  { intros q Hq. apply le_false_gt; [|done].
    by apply (proj1 (Forall_forall _ _) Hnum). }
  split.
  - apply Halive in Hlive; [|done].
    apply list_elem_of_lookup in Hin as [j Hj].
    pose proof (lookup_lt_Some _ _ _ Hj) as Hjlt.
    set (n := length (players l)) in *.
    destruct (skipEliminated_finds (players l) n c Hlt) as (r & p' & Hr & Hp' & Hl').
    { exists ((j + n - c) mod n)%nat, p. split_and!; [| |done].
      - apply Nat.mod_upper_bound. lia.
      - rewrite Nat.Div0.add_mod_idemp_r.
        replace (c + (j + n - c))%nat with (j + 1 * n)%nat by lia.
        by rewrite Nat.Div0.mod_add, Nat.mod_small. }
    exists p'. split.
    + unfold nextTurn, currentPlayer. cbn. rewrite Hc. fold n. by rewrite Hr.
    + apply Halive; [|done]. by eapply list_elem_of_lookup_2.
  - intros q Hq Hq'. apply Halive in Hq'; [|by eapply list_elem_of_lookup_2].
    unfold nextTurn. cbn. rewrite Hc.
    destruct (length (players l)) eqn:Hn; [lia|]. cbn. by rewrite Hq, Hq'.
Qed.

(** *** Used words *)

Lemma removePlayer_frame playerId now (l : t) :
  usedWords (removePlayer playerId now l) = usedWords l
  ∧ lobby_id (removePlayer playerId now l) = lobby_id l
  ∧ originalHostId (removePlayer playerId now l) = originalHostId l
  ∧ players (removePlayer playerId now l)
    = match findIndex playerId (players l) with
      | Some index => delete index (players l)
      | None => players l
      end.
Proof.
  unfold removePlayer. destruct (findIndex playerId (players l)) as [index|]; [|done].
  set (l2 := set_lastActivity now (set_players (delete index (players l)) l)).
  set (l3 := if bool_decide (hostId l2 = playerId) && _ then _ else l2).
  assert (usedWords l3 = usedWords l ∧ lobby_id l3 = lobby_id l
          ∧ originalHostId l3 = originalHostId l
          ∧ players l3 = delete index (players l)) as (H1 & H2 & H3 & H4).
  { unfold l3. destruct (_ && _); [|done].
    case_bool_decide; [|done]. by destruct (players l2). }
  case_bool_decide; [|done].
  destruct (currentTurnIndex l3) as [c|];
    repeat case_bool_decide; by cbn.
Qed.

Lemma run_usedWords (o : Op) (l : t) :
  (∀ syl now, o ≠ OpStartGame syl now) → usedWords l ⊆ usedWords (run o l).
Proof.
  intros Hstart. destruct o; cbn [Lobby.run].
  - unfold addPlayer. destruct (ge _ _); [done|]. case_bool_decide; [done|].
    cbn. by case_bool_decide.
  - by rewrite (proj1 (removePlayer_frame _ _ _)).
  - by destruct (Hstart randomSyllable now).
  - done.
  - unfold handleTimeout, currentPlayer. cbn.
    destruct (currentTurnIndex l) as [c|]; [destruct (players l !! c)|]; done.
  - unfold handleTimeout_later. by case_bool_decide.
  - destruct (submitWord_cases toLowerCase entries playerId word now l)
      as [(reason & -> & _)|(c & p & _ & ->)]; [done|]. cbn. set_solver.
  - done.
  - done.
  - done.
Qed.

(** X10.  A word that has been accepted is not accepted again, from any
    player, after any run of the operations of [Op] on the lobby in
    which no new game is started. *)
Theorem accepted_word_not_accepted_again (playerId : string) (word : value)
    (now : Z) (l l1 : t) (ops : list Op) (playerId' : string) (word' : value)
    (now' : Z) :
  submitWord playerId word now l = (Success, l1) →
  Forall (λ o, ∀ syl t, o ≠ OpStartGame syl t) ops →
  normalize word' = normalize word →
  ∃ reason,
    (submitWord playerId' word' now' (fold_left (λ l o, run o l) ops l1)).1
    = Failure reason.
Proof.
  intros Hacc Hops Hsame.
  assert (normalize word ∈ usedWords l1) as Hused.
  { destruct (submitWord_cases toLowerCase entries playerId word now l)
      as [(reason & Hrej & _)|(c & p & _ & Heq)]; [congruence|].
    rewrite Heq in Hacc. injection Hacc as <-. cbn. set_solver. }
  assert (normalize word ∈ usedWords (fold_left (λ l o, run o l) ops l1)) as Hlater.
  { clear Hacc. revert l1 Hused. induction Hops as [|o ops Ho _ IH]; intros l1 Hused;
      [done|].
    cbn [fold_left]. apply IH. by apply (run_usedWords o l1 Ho). }
  destruct (submitWord_cases toLowerCase entries playerId' word' now'
              (fold_left (λ l o, run o l) ops l1))
    as [(reason & -> & _)|(c & p & Hpass & _)]; [by exists reason|].
  destruct Hpass as (_ & _ & _ & _ & _ & _ & _ & _ & _ & Hfresh & _).
  rewrite Hsame in Hfresh. done.
Qed.

(** *** Seats *)

Lemma findIndex_None playerId (ps : list Player) :
  findIndex playerId ps = None ↔ playerId ∉ player_id <$> ps.
Proof.
  induction ps as [|p ps IH]; simpl.
  - split; [intros _; apply not_elem_of_nil|done].
  - rewrite not_elem_of_cons. case_bool_decide as Hp.
    + split; [done|]. by intros [? _].
    + destruct (findIndex playerId ps); simpl.
      * split; [done|]. intros [_ H]. by apply IH in H.
      * split; [|done]. intros _. split; [congruence|by apply IH].
Qed.

Lemma findIndex_ids playerId (ps qs : list Player) :
  player_id <$> ps = player_id <$> qs → findIndex playerId ps = findIndex playerId qs.
Proof.
  revert qs. induction ps as [|p ps IH]; intros [|q qs]; simpl; try done.
  intros [= Hp Hps]. rewrite Hp. by rewrite (IH qs Hps).
Qed.

Lemma ids_insert (ps : list Player) (i : nat) (p p' : Player) :
  ps !! i = Some p → player_id p' = player_id p →
  player_id <$> <[i := p']> ps = player_id <$> ps.
Proof.
  intros Hp Hid. rewrite list_fmap_insert. apply list_insert_id.
  by rewrite list_lookup_fmap, Hp, Hid.
Qed.

Lemma ids_map (f : Player → Player) (ps : list Player) :
  (∀ p, player_id (f p) = player_id p) →
  player_id <$> map f ps = player_id <$> ps.
Proof.
  intros Hf. induction ps as [|p ps IH]; [done|].
  cbn [map]. rewrite !fmap_cons, Hf. by rewrite IH.
Qed.

Lemma ids_filter_sublist (P : Player → Prop) `{!∀ p, Decision (P p)}
    (ps : list Player) :
  player_id <$> filter P ps `sublist_of` player_id <$> ps.
Proof.
  induction ps as [|p ps IH]; [done|]. destruct (decide (P p)).
  - rewrite filter_cons_True by done. rewrite !fmap_cons. by constructor.
  - rewrite filter_cons_False by done. rewrite fmap_cons. by constructor.
Qed.

Lemma ids_delete (ps : list Player) (i : nat) :
  player_id <$> delete i ps = delete i (player_id <$> ps).
Proof.
  revert i. induction ps as [|p ps IH]; intros [|i]; simpl; try done.
  by rewrite <- IH.
Qed.

Lemma NoDup_delete_lookup {A} (l : list A) (i : nat) (x : A) :
  NoDup l → l !! i = Some x → x ∉ delete i l.
Proof.
  intros Hnd Hx Hin. apply list_elem_of_lookup in Hin as [j Hj].
  destruct (decide (j < i)%nat).
  - rewrite list_lookup_delete_lt in Hj by done.
    pose proof (NoDup_lookup _ _ _ _ Hnd Hx Hj). lia.
  - rewrite list_lookup_delete_ge in Hj by lia.
    pose proof (NoDup_lookup _ _ _ _ Hnd Hx Hj). lia.
Qed.

(** X11.  No operation gives a player a second seat: if the ids of the
    roster are distinct they stay distinct, and after [removePlayer] the
    player removed is not seated. *)
Theorem seats_stay_distinct (o : Op) (l : t) :
  NoDup (player_id <$> players l) →
  NoDup (player_id <$> players (run o l))
  ∧ ∀ playerId now, o = OpRemovePlayer playerId now →
      findIndex playerId (players (run o l)) = None.
Proof.
  intros Hnd. split.
  - destruct o; cbn [Lobby.run].
    + unfold addPlayer. destruct (ge _ _); [done|].
      case_bool_decide as Hseat; [done|].
      assert (findIndex playerId (players l) = None) as Hnone.
      { destruct (findIndex playerId (players l)); [|done].
        destruct Hseat. by eexists. }
      apply findIndex_None in Hnone.
      assert (NoDup (player_id <$> players l ++
                [{| player_id := playerId;
                    player_name := sanitizeName playerName 20;
                    avatar := randomAvatar; color := randomColor;
                    lives := startLives (settings l); isConnected := true;
                    isReady := false; currentInput := []; joinedAt := now;
                    disconnectedAt := None; score := None;
                    wordsCompleted := None |}])) as Hnew.
      { rewrite fmap_app. apply NoDup_app. split_and!; [done| |apply NoDup_singleton].
        intros x Hx Hs. apply list_elem_of_singleton in Hs. by subst x. }
      cbn. by case_bool_decide.
    + rewrite (proj2 (proj2 (proj2 (removePlayer_frame _ _ _)))).
      destruct (findIndex playerId (players l)); [|done].
      eapply sublist_NoDup; [exact Hnd|]. rewrite ids_delete. apply sublist_delete.
    + unfold startGame. case_bool_decide; [done|]. cbn.
      rewrite ids_map by done.
      eapply sublist_NoDup; [exact Hnd|]. apply ids_filter_sublist.
    + done.
    + unfold handleTimeout, currentPlayer. cbn.
      destruct (currentTurnIndex l) as [c|]; [|done].
      destruct (players l !! c) as [p|] eqn:Hp; [|done]. cbn.
      by rewrite (ids_insert _ _ p).
    + unfold handleTimeout_later. by case_bool_decide.
    + destruct (submitWord_cases toLowerCase entries playerId word now l)
        as [(reason & -> & _)|(c & p & Hpass & ->)]; [done|]. cbn.
      destruct Hpass as (_ & _ & _ & Hp & _). by rewrite (ids_insert _ _ p).
    + done.
    + done.
    + cbn. by rewrite ids_map.
  - intros playerId now ->. cbn [Lobby.run].
    rewrite (proj2 (proj2 (proj2 (removePlayer_frame _ _ _)))).
    destruct (findIndex playerId (players l)) as [index|] eqn:Hidx; [|done].
    apply findIndex_None. rewrite ids_delete.
    destruct (findIndex_lookup _ _ _ Hidx) as (p & Hp & Hid).
    apply NoDup_delete_lookup; [done|]. rewrite list_lookup_fmap, Hp. simpl.
    by rewrite Hid.
Qed.

(** *** The host *)

Lemma removePlayer_hostId playerId now (l : t) index :
  findIndex playerId (players l) = Some index →
  hostId (removePlayer playerId now l)
  = if bool_decide (hostId l = playerId)
       && bool_decide (0 < length (delete index (players l)))%nat
    then if bool_decide (playerId ≠ originalHostId l)
         then match delete index (players l) with
              | p0 :: _ => player_id p0
              | [] => hostId l
              end
         else hostId l
    else hostId l.
Proof.
  intros Hidx. unfold removePlayer. rewrite Hidx.
  set (l2 := set_lastActivity now (set_players (delete index (players l)) l)).
  set (l3 := if bool_decide (hostId l2 = playerId) && _ then _ else l2).
  assert (hostId l3
          = if bool_decide (hostId l = playerId)
               && bool_decide (0 < length (delete index (players l)))%nat
            then if bool_decide (playerId ≠ originalHostId l)
                 then match delete index (players l) with
                      | p0 :: _ => player_id p0
                      | [] => hostId l
                      end
                 else hostId l
            else hostId l) as <-.
  { unfold l3. cbn. destruct (_ && _); [|done].
    case_bool_decide; [|done]. by destruct (delete index (players l)). }
  case_bool_decide; [|done].
  destruct (currentTurnIndex l3) as [c|]; repeat case_bool_decide; by cbn.
Qed.

(** X12.  When a seated player other than the host leaves, the host
    stays.  When the host leaves and is not the original host, the
    first player left in the roster becomes host.  When the original
    host leaves while host, [hostId] still names the original host, who
    is no longer seated; on coming back through [addPlayer] the original
    host is host again. *)
Theorem host_after_leave_and_return (playerId : string) (now : Z) (l : t) :
  is_Some (findIndex playerId (players l)) →
  (hostId l ≠ playerId → hostId (removePlayer playerId now l) = hostId l)
  ∧ (hostId l = playerId → playerId ≠ originalHostId l →
     players (removePlayer playerId now l) ≠ [] →
     ∃ p rest, players (removePlayer playerId now l) = p :: rest
               ∧ hostId (removePlayer playerId now l) = player_id p)
  ∧ (hostId l = playerId → playerId = originalHostId l →
     hostId (removePlayer playerId now l) = originalHostId l)
  ∧ (∀ name av col t l',
       addPlayer (originalHostId l) name av col t l = (true, l') →
       hostId l = originalHostId l ∨ findIndex (originalHostId l) (players l) = None →
       hostId l' = originalHostId l).
Proof.
  intros [index Hidx].
  pose proof (removePlayer_hostId playerId now l index Hidx) as Hhost.
  pose proof (removePlayer_frame playerId now l) as (_ & _ & _ & Hps).
  rewrite Hidx in Hps. split_and!.
  - intros Hne. rewrite Hhost. by rewrite bool_decide_eq_false_2.
  - intros Heq Hne Hnonempty. rewrite Hhost, Hps in *.
    destruct (delete index (players l)) as [|p rest]; [done|].
    exists p, rest. split; [done|].
    rewrite (bool_decide_eq_true_2 _ Heq), (bool_decide_eq_true_2 _ Hne).
    by rewrite bool_decide_eq_true_2 by (simpl; lia).
  - intros Heq Horig. rewrite Hhost.
    destruct (_ && _); [|congruence].
    rewrite bool_decide_eq_false_2; [congruence|]. by intros H; apply H.
  - intros name av col t l' Hadd Hcase. unfold addPlayer in Hadd.
    destruct (ge _ _); [done|]. case_bool_decide as Hseat.
    + injection Hadd as <-. destruct Hcase as [Hh|Hnone]; [done|].
      rewrite Hnone in Hseat. by destruct Hseat.
    + injection Hadd as <-. cbn. by rewrite bool_decide_eq_true_2.
Qed.

(** *** The ranking *)

Lemma or0_Num (q : Q) : ∃ q', or0 (Some (Num q)) = Num q' ∧ (q' == q)%Q.
Proof.
  unfold or0, truthy. destruct (Qeq_bool q 0) eqn:Hq; simpl.
  - exists 0%Q. split; [done|]. symmetry. by apply Qeq_bool_iff.
  - by exists q.
Qed.

Lemma compareRank_numeric (a b : Player) (qa la qb lb : Q) :
  score a = Some (Num qa) → lives a = Num la →
  score b = Some (Num qb) → lives b = Num lb →
  gt (compareRank a b) (Num 0) = true
  ↔ (qa < qb ∨ (qa == qb ∧ la < lb))%Q.
Proof.
  intros Hsa Hla Hsb Hlb. unfold compareRank, gt, strictlyDiffer.
  rewrite Hsa, Hla, Hsb, Hlb.
  destruct (or0_Num qa) as (qa' & -> & Ha), (or0_Num qb) as (qb' & -> & Hb).
  destruct (Qeq_bool qb qa) eqn:Heq; cbn [negb sub neg add lt].
  - apply Qeq_bool_iff in Heq.
    destruct (Qlt_le_dec 0 (lb + - la)); split; try done; lra.
  - apply Qeq_bool_neq in Heq.
    destruct (Qlt_le_dec 0 (qb' + - qa')); split; try done.
    + intros _. left. lra.
    + intros [?|[? _]]; [lra|]. destruct Heq. by symmetry.
Qed.

Lemma seat_before_numeric (a b : Player) (qa la qb lb : Q) :
  score a = Some (Num qa) → lives a = Num la →
  score b = Some (Num qb) → lives b = Num lb →
  seat_before a b ↔ (qb < qa ∨ (qa == qb ∧ lb <= la))%Q.
Proof.
  intros Hsa Hla Hsb Hlb. unfold seat_before.
  pose proof (compareRank_numeric a b qa la qb lb Hsa Hla Hsb Hlb) as Hgt.
  destruct (gt (compareRank a b) (Num 0)).
  - split; [done|]. intros H.
    destruct (proj1 Hgt eq_refl) as [?|[? ?]]; destruct H as [?|[? ?]]; lra.
  - split; [|done]. intros _.
    destruct (Qlt_le_dec qb qa) as [?|Hle]; [by left|].
    destruct (Qlt_le_dec qa qb) as [Hlt|Hle'].
    { discriminate (proj2 Hgt (or_introl Hlt)). }
    assert (qa == qb)%Q as Heq by lra. right. split; [done|].
    destruct (Qlt_le_dec la lb) as [Hlt|?]; [|done].
    discriminate (proj2 Hgt (or_intror (conj Heq Hlt))).
Qed.

Lemma insertBy_sorted (x : Player) (ps : list Player) :
  numeric_seat x → Forall numeric_seat ps →
  StronglySorted seat_before ps →
  StronglySorted seat_before (JSArray.insertBy compareRank x ps).
Proof.
  intros Hx Hnum Hsorted.
  induction Hsorted as [|y ps Hs IH Hy]; cbn [JSArray.insertBy].
  - repeat constructor.
  - apply Forall_cons in Hnum as [Hynum Hnum].
    destruct Hx as [[qx Hsx] [lx Hlx]], Hynum as [[qy Hsy] [ly Hly]].
    destruct (gt (compareRank x y) (Num 0)) eqn:Hgt.
    + constructor; [by apply IH|].
      rewrite insertBy_Permutation. constructor; [|done].
      apply (compareRank_numeric x y qx lx qy ly) in Hgt; try done.
      apply (seat_before_numeric y x qy ly qx lx); try done.
      destruct Hgt as [?|[? ?]]; [by left|right]. split; [by symmetry|lra].
    + constructor; [by constructor|]. constructor; [done|].
      assert (seat_before x y) as Hxy by done.
      apply (seat_before_numeric x y qx lx qy ly) in Hxy; try done.
      rewrite Forall_forall in Hy, Hnum |- *. intros z Hz.
      destruct (Hnum z Hz) as [[qz Hsz] [lz Hlz]].
      specialize (Hy z Hz).
      apply (seat_before_numeric y z qy ly qz lz) in Hy; try done.
      apply (seat_before_numeric x z qx lx qz lz); try done.
      destruct Hxy as [?|[? ?]], Hy as [?|[? ?]]; try (left; lra).
      right. split; lra.
Qed.

Lemma sortBy_sorted (ps : list Player) :
  Forall numeric_seat ps →
  StronglySorted seat_before (JSArray.sortBy compareRank ps).
Proof.
  unfold JSArray.sortBy. induction 1 as [|p ps Hp Hps IH]; simpl; [constructor|].
  apply insertBy_sorted; [done| |done].
  fold (JSArray.sortBy compareRank ps). by rewrite sortBy_Permutation.
Qed.

Lemma seat_before_rows (a b : Player) (i j : nat) :
  numeric_seat a → numeric_seat b → seat_before a b →
  ranks_before
    (mkRanking i (player_id a) (player_name a) (avatar a) (color a)
       (or0 (score a)) (or0 (wordsCompleted a)) (lives a))
    (mkRanking j (player_id b) (player_name b) (avatar b) (color b)
       (or0 (score b)) (or0 (wordsCompleted b)) (lives b)).
Proof.
  intros [[qa Hsa] [la Hla]] [[qb Hsb] [lb Hlb]] Hab.
  apply (seat_before_numeric a b qa la qb lb) in Hab; try done.
  unfold ranks_before. cbn. rewrite Hsa, Hsb, Hla, Hlb.
  destruct (or0_Num qa) as (qa' & -> & Ha), (or0_Num qb) as (qb' & -> & Hb).
  unfold gt, ge, lt, le.
  destruct (Qlt_le_dec qb' qa'), (Qlt_le_dec qa' qb'), (Qlt_le_dec la lb);
    try (by left); try (right; by split_and!); destruct Hab as [?|[? ?]]; lra.
Qed.

Lemma rows_sorted (g : nat → nat) (ps : list Player) :
  Forall numeric_seat ps → StronglySorted seat_before ps →
  StronglySorted ranks_before
    (imap (λ index p,
             mkRanking (g index) (player_id p) (player_name p) (avatar p)
               (color p) (or0 (score p)) (or0 (wordsCompleted p)) (lives p)) ps).
Proof.
  intros Hnum Hs. revert g.
  induction Hs as [|p ps Hs IH Hp]; intros g; [constructor|].
  apply Forall_cons in Hnum as [Hpn Hnum]. rewrite imap_cons.
  constructor; [apply (IH Hnum (g ∘ S))|].
  apply Forall_forall. intros row Hrow.
  apply list_elem_of_lookup in Hrow as [i Hi].
  rewrite list_lookup_imap in Hi.
  destruct (ps !! i) as [q|] eqn:Hq; [|done]. injection Hi as <-.
  apply list_elem_of_lookup_2 in Hq.
  apply seat_before_rows; [done| |].
  - by apply (proj1 (Forall_forall _ _) Hnum).
  - by apply (proj1 (Forall_forall _ _) Hp).
Qed.

Lemma rows_ids (g : nat → nat) (ps : list Player) :
  ranked_id
    <$> imap (λ index p,
                mkRanking (g index) (player_id p) (player_name p) (avatar p)
                  (color p) (or0 (score p)) (or0 (wordsCompleted p)) (lives p)) ps
  = player_id <$> ps
  ∧ rank
      <$> imap (λ index p,
                  mkRanking (g index) (player_id p) (player_name p) (avatar p)
                    (color p) (or0 (score p)) (or0 (wordsCompleted p)) (lives p))
            ps
    = g <$> seq 0 (length ps).
Proof.
  revert g. induction ps as [|p ps IH]; intros g; [done|].
  rewrite imap_cons, !fmap_cons. destruct (IH (g ∘ S)) as [H1 H2]. split.
  - cbn [ranked_id]. f_equal. exact H1.
  - cbn [rank length seq fmap list_fmap]. f_equal. etrans; [exact H2|].
    by rewrite <- fmap_S_seq, <- list_fmap_compose.
Qed.

(** X13.  When every seat has a numeric score and numeric lives, the
    ranking of [endGame] lists every player of the roster once, numbers
    the rows from 1, and is ordered by score, the higher first, and
    among equal scores by lives, the more first. *)
Theorem rankings_sorted (l : t) :
  Forall numeric_seat (players l) →
  ranked_id <$> rankings l ≡ₚ player_id <$> players l
  ∧ rank <$> rankings l = seq 1 (length (players l))
  ∧ StronglySorted ranks_before (rankings l).
Proof.
  intros Hnum. unfold rankings.
  pose proof (sortBy_Permutation compareRank (players l)) as Hperm.
  destruct (rows_ids (λ index, index + 1)%nat
              (JSArray.sortBy compareRank (players l))) as [Hids Hranks].
  split_and!.
  - rewrite Hids. by rewrite Hperm.
  - rewrite Hranks, Hperm. rewrite <- fmap_S_seq. apply list_fmap_ext.
    intros i x _. lia.
  - apply rows_sorted; [by rewrite Hperm|by apply sortBy_sorted].
Qed.

(** *** Disconnection and return *)

Lemma findIndex_alter playerId (ps : list Player) (f : Player → Player) i :
  (∀ p, player_id (f p) = player_id p) →
  findIndex playerId (alter f i ps) = findIndex playerId ps.
Proof.
  intros Hf. apply findIndex_ids. rewrite list_fmap_alter with (h := λ x, x).
  - by apply list_alter_id.
  - apply Forall_forall. intros p _. apply Hf.
Qed.

Lemma markConnected_markDisconnected (playerId : string) (now : Z) (l : t)
    (i : nat) (p : Player) :
  findIndex playerId (players l) = Some i →
  players l !! i = Some p →
  markConnected playerId (markDisconnected playerId now l)
  = set_players
      (<[i := set_disconnectedAt None (set_isConnected true p)]> (players l)) l.
Proof.
  intros Hidx Hp.
  unfold markDisconnected. rewrite Hidx. unfold markConnected.
  cbn [players set_players]. rewrite findIndex_alter by done. rewrite Hidx.
  unfold set_players. cbn. f_equal.
  apply list_eq. intros j. destruct (decide (i = j)) as [<-|Hne].
  - rewrite !list_lookup_alter_eq, Hp.
    by rewrite list_lookup_insert_eq by (by eapply lookup_lt_Some).
  - by rewrite !list_lookup_alter_ne, list_lookup_insert_ne.
Qed.

(** X14.  Marking a seated player disconnected and then connected again
    leaves the roster as it was, but for [isConnected = true] and
    [disconnectedAt = null] on that seat: position, name, lives, score
    and ready state are kept.  A seat that was connected with no
    disconnection time makes the lobby what it was; a seat that had no
    [disconnectedAt] property then has it as [null], which the one place
    that reads the property takes alike. *)
Theorem disconnect_then_connect (playerId : string) (now : Z) (l : t) (i : nat)
    (p : Player) :
  findIndex playerId (players l) = Some i →
  players l !! i = Some p →
  markConnected playerId (markDisconnected playerId now l)
  = set_players
      (<[i := set_disconnectedAt None (set_isConnected true p)]> (players l)) l
  ∧ (isConnected p = true → disconnectedAt p = None →
     markConnected playerId (markDisconnected playerId now l) = l).
Proof.
  intros Hidx Hp.
  pose proof (markConnected_markDisconnected playerId now l i p Hidx Hp) as Heq.
  split; [done|]. intros Hconn Hnever. rewrite Heq.
  rewrite list_insert_id; [by destruct l|].
  rewrite Hp. f_equal. destruct p. cbn in *. by subst.
Qed.

(** *** Typing *)

(** X15.  A typing event never changes what a submission gets: after
    [updateTyping] from any player with any text, [submitWord] accepts
    or rejects, with the same reason, as it would have before. *)
Theorem typing_does_not_change_submission (typist : string) (text : value)
    (typedAt : Z) (playerId : string) (word : value) (now : Z) (l : t) :
  (submitWord playerId word now (updateTyping typist text typedAt l)).1
  = (submitWord playerId word now l).1.
Proof.
  unfold updateTyping, currentPlayer.
  case_bool_decide as Hst; [done|]. destruct (turnLocked l) eqn:Hlock; [done|].
  destruct (currentTurnIndex l) as [c|] eqn:Hc; [|done].
  destruct (players l !! c) as [p|] eqn:Hp; [|done].
  case_bool_decide as Hid; [done|].
  destruct (le (lives p) (Num 0)) eqn:Hlives; [done|].
  destruct (isConnected p) eqn:Hconn; [|done]. cbn [negb].
  unfold Lobby.submitWord, currentPlayer.
  cbn [state turnLocked currentTurnIndex players settings usedWords
         currentSyllable set_lastActivity set_players].
  rewrite Hc, Hlock, Hp.
  rewrite list_lookup_insert_eq by (by eapply lookup_lt_Some).
  cbn [player_id lives isConnected set_currentInput].
  rewrite Hlives, Hconn.
  repeat first [done | case_bool_decide | progress cbn [negb fst]
               | match goal with |- context [match ?x with _ => _ end] =>
                   destruct x eqn:? end].
Qed.

(** *** After the game *)

(** X16.  After the reset that follows a game nobody is ready, so
    [startGame] fails and leaves the lobby waiting, whatever the roster;
    every seat is back to the starting lives and a score of zero. *)
Theorem reset_requires_ready_again (syl : jsstring) (now : Z) (l : t) :
  startGame syl now (endGame_later l) = (false, endGame_later l)
  ∧ state (endGame_later l) = waiting
  ∧ player_id <$> players (endGame_later l) = player_id <$> players l
  ∧ Forall (λ p, isReady p = false ∧ lives p = startLives (settings l)
                 ∧ score p = Some (Num 0) ∧ wordsCompleted p = Some (Num 0))
      (players (endGame_later l)).
Proof.
  assert (Forall (λ p, isReady p = false ∧ lives p = startLives (settings l)
                       ∧ score p = Some (Num 0) ∧ wordsCompleted p = Some (Num 0))
            (players (endGame_later l))) as Hreset.
  { cbn. apply Forall_forall. intros p Hp.
    apply list_elem_of_In, in_map_iff in Hp. by destruct Hp as [p0 [<- _]]. }
  split_and!; [|done|by apply ids_map|done].
  unfold startGame.
  rewrite (filter_none _ (players (endGame_later l))); [done|].
  eapply Forall_impl; [exact Hreset|]. intros p (Hr & _). by rewrite Hr.
Qed.

End LobbyMoreFacts.

(** ** The registries *)

Section RegistryFacts.
Import JS Server.

Variable StringToNumber : jsstring → number.

Lemma lobbies_ok_insert (ls : gmap string Lobby.t) k (l : Lobby.t) :
  lobbies_ok ls → Lobby.lobby_id l = k → Lobby.players l ≠ [] →
  lobbies_ok (<[k := l]> ls).
Proof.
  intros Hok Hid Hne k' l'. rewrite lookup_insert.
  case_decide as Hk; [|apply Hok]. intros [= <-]. by subst.
Qed.

Lemma lobbies_ok_delete (ls : gmap string Lobby.t) k :
  lobbies_ok ls → lobbies_ok (delete k ls).
Proof.
  intros Hok k' l'. rewrite lookup_delete. case_decide; [done|apply Hok].
Qed.

Lemma lobbies_ok_leave (ls : gmap string Lobby.t) k (l l' : Lobby.t) :
  lobbies_ok ls → ls !! k = Some l → Lobby.lobby_id l' = Lobby.lobby_id l →
  lobbies_ok (if bool_decide (length (Lobby.players l') = 0)%nat
              then delete (Lobby.lobby_id l') (<[k := l']> ls)
              else <[k := l']> ls).
Proof.
  intros Hok Hl Hid. destruct (Hok k l Hl) as [Hk _]. rewrite Hid, Hk.
  case_bool_decide as Hempty.
  - rewrite delete_insert_eq. by apply lobbies_ok_delete.
  - apply lobbies_ok_insert; [done|congruence|]. by destruct (Lobby.players l').
Qed.

Lemma memberOf_lobby socket (s : t) playerId lobbyId lobby :
  memberOf socket s = Some (playerId, lobbyId, lobby) →
  lobbies s !! lobbyId = Some lobby.
Proof.
  unfold memberOf. destruct (knownPlayer socket s) as [pid|]; [|done]. simpl.
  destruct (players s !! pid) as [player|]; [|done]. simpl.
  destruct (currentLobbyId player) as [lid|]; [|done]. simpl.
  case_bool_decide; [done|].
  destruct (lobbies s !! lid) as [lb|] eqn:Hl; [|done]. simpl. by intros [= <- <- <-].
Qed.

Lemma lobbyOf_lobby socket (s : t) playerId lobbyId lobby :
  lobbyOf socket s = Some (playerId, lobbyId, lobby) →
  lobbies s !! lobbyId = Some lobby.
Proof.
  unfold lobbyOf. destruct (socketToPlayer s !! socket) as [pid|]; [|done]. simpl.
  destruct (players s !! pid) as [player|]; [|done]. simpl.
  destruct (currentLobbyId player) as [lid|]; [|done]. simpl.
  case_bool_decide; [done|].
  destruct (lobbies s !! lid) as [lb|] eqn:Hl; [|done]. simpl. by intros [= <- <- <-].
Qed.

Lemma mark_frame playerId now (l : Lobby.t) :
  Lobby.lobby_id (Lobby.markDisconnected playerId now l) = Lobby.lobby_id l
  ∧ length (Lobby.players (Lobby.markDisconnected playerId now l))
    = length (Lobby.players l)
  ∧ Lobby.lobby_id (Lobby.markConnected playerId l) = Lobby.lobby_id l
  ∧ length (Lobby.players (Lobby.markConnected playerId l))
    = length (Lobby.players l).
Proof.
  unfold Lobby.markDisconnected, Lobby.markConnected.
  destruct (Lobby.findIndex playerId (Lobby.players l)); cbn;
    by rewrite ?length_alter.
Qed.

Lemma toggleReady_frame playerId (l : Lobby.t) :
  Lobby.lobby_id (toggleReady playerId l) = Lobby.lobby_id l
  ∧ length (Lobby.players (toggleReady playerId l)) = length (Lobby.players l).
Proof.
  unfold toggleReady. case_bool_decide; [done|].
  destruct (Lobby.findIndex playerId (Lobby.players l)) as [i|]; [|done].
  destruct (Lobby.players l !! i) as [p|]; [|done].
  destruct (Lobby.isConnected p); cbn; by rewrite ?length_insert.
Qed.

Lemma startGame_frame syl now (l : Lobby.t) :
  Lobby.lobby_id (Lobby.startGame syl now l).2 = Lobby.lobby_id l
  ∧ (Lobby.players l ≠ [] → Lobby.players (Lobby.startGame syl now l).2 ≠ []).
Proof.
  unfold Lobby.startGame. case_bool_decide as Hready; [done|]. cbn.
  split; [done|]. intros _ Hnil. apply (f_equal length) in Hnil.
  rewrite length_map in Hnil. simpl in Hnil. lia.
Qed.

Lemma nonempty_length {A} (l l' : list A) : length l' = length l → l ≠ [] → l' ≠ [].
Proof. destruct l, l'; done. Qed.

Lemma newLobby_seats_host uuid random hostId hostName lobbyName isPublic now
    name avatar color :
  Lobby.players
    (Lobby.addPlayer hostId name avatar color now
       (newLobby uuid random hostId hostName lobbyName isPublic now)).2 ≠ [].
Proof.
  unfold Lobby.addPlayer.
  change (ge _ _) with false. cbn [Lobby.players newLobby Lobby.findIndex].
  rewrite bool_decide_eq_false_2 by (by intros [? ?]).
  cbn [snd]. by case_bool_decide.
Qed.

(** X17.  The handlers of [lobby:create], [lobby:settings],
    [lobby:leave], [disconnect], [game:ready], [game:start] and
    [player:auth] keep the lobby registry in order: each lobby is filed
    under its own id, and a lobby whose last player has left is gone
    from the registry. *)
Theorem handlers_keep_registry (e : Event) (s : t) :
  lobbies_ok (lobbies s) → lobbies_ok (lobbies (handle StringToNumber e s)).
Proof.
  intros Hok.
  destruct e as [socket playerName lobbyName isPublic d | socket r
    | socket now' | socket now' | socket | socket syl now'
    | socket playerId playerName uuid]; cbn [handle].
  - unfold onLobbyCreate.
    destruct (RateLimiter.isRateLimited _ _ _ _ _ _) as [limited rl].
    destruct limited; [done|].
    set (s0 := set_rateLimits rl s).
    destruct (knownPlayer socket s0) as [playerId|].
    + destruct (players s0 !! playerId) as [player|]; [|done]. cbn [lobbies].
      apply lobbies_ok_insert; [|done|apply newLobby_seats_host].
      unfold leaveCurrent. destruct (currentLobbyId player) as [lobbyId|]; [|done].
      case_bool_decide; [done|].
      destruct (lobbies s0 !! lobbyId) as [oldLobby|] eqn:Hold; [|done].
      apply (lobbies_ok_leave _ _ oldLobby); [done|done|].
      apply removePlayer_frame.
    + cbn [players lobbies]. rewrite lookup_insert_eq. cbn [lobbies].
      apply lobbies_ok_insert; [|done|apply newLobby_seats_host].
      unfold leaveCurrent. done.
  - unfold onLobbySettings.
    destruct (lobbyOf socket s) as [[[playerId lobbyId] lobby]|] eqn:Hm; [|done].
    case_bool_decide; [done|]. cbn [lobbies set_lobbies].
    destruct (Hok _ _ (lobbyOf_lobby _ _ _ _ _ Hm)) as [Hid Hne].
    by apply lobbies_ok_insert.
  - unfold handleLeaveLobby.
    destruct (memberOf socket s) as [[[playerId lobbyId] lobby]|] eqn:Hm; [|done].
    cbn [lobbies set_lobbies set_players].
    apply (lobbies_ok_leave _ _ lobby); [done|by eapply memberOf_lobby|].
    apply removePlayer_frame.
  - unfold handleLeaveLobby.
    destruct (memberOf socket s) as [[[playerId lobbyId] lobby]|] eqn:Hm; [|done].
    cbn [lobbies set_lobbies].
    destruct (Hok _ _ (memberOf_lobby _ _ _ _ _ Hm)) as [Hid Hne].
    destruct (mark_frame playerId now' lobby) as (Hi & Hl & _).
    apply lobbies_ok_insert; [done|congruence|by eapply nonempty_length].
  - unfold onGameReady.
    destruct (memberOf socket s) as [[[playerId lobbyId] lobby]|] eqn:Hm; [|done].
    cbn [lobbies set_lobbies].
    destruct (Hok _ _ (memberOf_lobby _ _ _ _ _ Hm)) as [Hid Hne].
    destruct (toggleReady_frame playerId lobby) as (Hi & Hl).
    apply lobbies_ok_insert; [done|congruence|by eapply nonempty_length].
  - unfold onGameStart.
    destruct (lobbyOf socket s) as [[[playerId lobbyId] lobby]|] eqn:Hm; [|done].
    case_bool_decide; [done|]. case_bool_decide; [done|].
    destruct (Hok _ _ (lobbyOf_lobby _ _ _ _ _ Hm)) as [Hid Hne].
    destruct (startGame_frame syl now' lobby) as (Hi & Hl).
    destruct (Lobby.startGame syl now' lobby) as [started lobby'].
    cbn [snd lobbies set_lobbies] in *.
    apply lobbies_ok_insert; [done|congruence|by apply Hl].
  - unfold onPlayerAuth.
    set (reconnect := match playerId with Some _ => _ | None => _ end).
    destruct reconnect as [[pid existing]|].
    + cbn [lobbies players]. rewrite lookup_insert_eq. cbn [currentLobbyId].
      destruct (currentLobbyId existing) as [lobbyId|]; [|done].
      case_bool_decide; [done|].
      destruct (lobbies s !! lobbyId) as [lobby|] eqn:Hl; [|done].
      cbn [lobbies set_lobbies].
      destruct (Hok _ _ Hl) as [Hid Hne].
      destruct (mark_frame pid 0 lobby) as (_ & _ & Hi & Hlen).
      apply lobbies_ok_insert; [done|congruence|by eapply nonempty_length].
    + cbn [lobbies players set_players]. rewrite lookup_insert_eq. done.
Qed.

(** *** Ready *)

Lemma toggleReady_twice playerId (l : Lobby.t) :
  toggleReady playerId (toggleReady playerId l) = l.
Proof.
  unfold toggleReady at 2.
  destruct (bool_decide (Lobby.state l ≠ Lobby.waiting)) eqn:Hst.
  { unfold toggleReady. by rewrite Hst. }
  destruct (Lobby.findIndex playerId (Lobby.players l)) as [i|] eqn:Hidx; cycle 1.
  { unfold toggleReady. by rewrite Hst, Hidx. }
  destruct (Lobby.players l !! i) as [p|] eqn:Hp; cycle 1.
  { unfold toggleReady. by rewrite Hst, Hidx, Hp. }
  destruct (Lobby.isConnected p) eqn:Hconn; cycle 1.
  { unfold toggleReady. by rewrite Hst, Hidx, Hp, Hconn. }
  pose proof (lookup_lt_Some _ _ _ Hp) as Hlt.
  unfold toggleReady. cbn [Lobby.state Lobby.players Lobby.set_players].
  rewrite Hst.
  rewrite (findIndex_ids playerId _ (Lobby.players l))
    by (by apply (ids_insert _ _ p)).
  rewrite Hidx, list_lookup_insert_eq by done.
  cbn [Lobby.isConnected Lobby.set_isReady]. rewrite Hconn.
  rewrite list_insert_insert_eq.
  rewrite list_insert_id; [by destruct l|].
  rewrite Hp. f_equal. destruct p. cbn. by rewrite negb_involutive.
Qed.

(** X18.  Two [game:ready] events in a row from one socket leave the
    server as it was. *)
Theorem onGameReady_twice (socket : string) (s : t) :
  onGameReady socket (onGameReady socket s) = s.
Proof.
  unfold onGameReady at 2.
  destruct (memberOf socket s) as [[[playerId lobbyId] lobby]|] eqn:Hm; cycle 1.
  { unfold onGameReady. by rewrite Hm. }
  pose proof (memberOf_lobby _ _ _ _ _ Hm) as Hl.
  assert (memberOf socket
            (set_lobbies (<[lobbyId := toggleReady playerId lobby]> (lobbies s)) s)
          = Some (playerId, lobbyId, toggleReady playerId lobby)) as Hm'.
  { revert Hm. unfold memberOf, knownPlayer. cbn [socketToPlayer players set_lobbies lobbies].
    destruct (socketToPlayer s !! socket) as [pid|]; [|done].
    case_bool_decide; [done|]. simpl.
    destruct (players s !! pid) as [player|]; [|done]. simpl.
    destruct (currentLobbyId player) as [lid|]; [|done]. simpl.
    case_bool_decide; [done|].
    destruct (lobbies s !! lid) as [lb|] eqn:Hlb; [|done]. simpl.
    intros [= <- <- <-]. by rewrite lookup_insert_eq. }
  unfold onGameReady. rewrite Hm'. cbn [lobbies set_lobbies].
  rewrite toggleReady_twice, insert_insert_eq, insert_id by done.
  by destruct s.
Qed.

(** *** Authentication *)

(** X19.  A seated player whose connection drops and who authenticates
    again with the same id, from any socket, is confirmed under that id
    and is back in the same seat: the roster of the lobby is what it
    was, but for [isConnected = true] and [disconnectedAt = null] on
    that seat, and the new socket is bound to the player. *)
Theorem drop_then_auth_restores_seat (socketA socketB : string) (now : Z)
    (playerName : value) (uuid : string) (s : t) (playerId lobbyId : string)
    (lobby : Lobby.t) (i : nat) (p : Lobby.Player) :
  memberOf socketA s = Some (playerId, lobbyId, lobby) →
  Lobby.findIndex playerId (Lobby.players lobby) = Some i →
  Lobby.players lobby !! i = Some p →
  let s1 := handleLeaveLobby socketA true now s in
  let r := onPlayerAuth socketB (Some playerId) playerName uuid s1 in
  r.1 = playerId
  ∧ lobbies r.2 !! lobbyId
    = Some (Lobby.set_players
              (<[i := Lobby.set_disconnectedAt None (Lobby.set_isConnected true p)]>
                 (Lobby.players lobby)) lobby)
  ∧ socketToPlayer r.2 !! socketB = Some playerId
  ∧ playerToSocket r.2 !! playerId = Some socketB.
Proof.
  intros Hm Hidx Hp s1 r.
  assert (playerId ≠ "" ∧ ∃ player, players s !! playerId = Some player
            ∧ currentLobbyId player = Some lobbyId ∧ lobbyId ≠ ""
            ∧ lobbies s !! lobbyId = Some lobby) as (Hpid & player & Hplayer & Hcur & Hlid & Hl).
  { revert Hm. unfold memberOf, knownPlayer.
    destruct (socketToPlayer s !! socketA) as [pid|]; [|done].
    case_bool_decide as Hne; [done|]. simpl.
    destruct (players s !! pid) as [player|] eqn:Hpl; [|done]. simpl.
    destruct (currentLobbyId player) as [lid|] eqn:Hc; [|done]. simpl.
    case_bool_decide; [done|].
    destruct (lobbies s !! lid) as [lb|] eqn:Hlb; [|done]. simpl.
    intros [= <- <- <-]. split; [done|]. by exists player. }
  assert (s1 = set_lobbies
                 (<[lobbyId := Lobby.markDisconnected playerId now lobby]> (lobbies s))
                 s) as Hs1.
  { unfold s1, handleLeaveLobby. by rewrite Hm. }
  unfold r, onPlayerAuth. rewrite Hs1.
  cbn [players set_lobbies lobbies socketToPlayer playerToSocket rateLimits].
  rewrite bool_decide_eq_false_2 by done. rewrite Hplayer.
  cbn [fst snd lobbies players socketToPlayer playerToSocket].
  rewrite lookup_insert_eq. cbn [currentLobbyId]. rewrite Hcur.
  rewrite bool_decide_eq_false_2 by done. rewrite lookup_insert_eq.
  cbn [fst snd lobbies set_lobbies socketToPlayer playerToSocket].
  rewrite !lookup_insert_eq.
  rewrite (markConnected_markDisconnected playerId now lobby i p Hidx Hp).
  done.
Qed.

(** X20.  Authentication keeps one socket per player.  If every bound
    socket is the socket its player is bound to, this is still so after
    [player:auth]; the socket that authenticates is bound to the id
    confirmed, and a socket the player was bound to before is bound no
    more.  The id made for a new player is assumed not to be bound
    already. *)
Theorem auth_keeps_one_socket_per_player (socket : string)
    (playerId : option string) (playerName : value) (uuid : string) (s : t) :
  bindings_ok s →
  socket ≠ "" →
  playerToSocket s !! generatePlayerId uuid = None →
  let r := onPlayerAuth socket playerId playerName uuid s in
  bindings_ok r.2
  ∧ socketToPlayer r.2 !! socket = Some r.1
  ∧ ∀ old, playerToSocket s !! r.1 = Some old → old ≠ socket →
           socketToPlayer r.2 !! old = None.
Proof.
  intros [Hempty Hbind] Hsock Hfresh r.
  set (reconnect :=
         match playerId with
         | Some pid =>
             if bool_decide (pid = "") then None
             else match players s !! pid with
                  | Some existingPlayer => Some (pid, existingPlayer)
                  | None => None
                  end
         | None => None
         end).
  set (pid := match reconnect with Some (pid, _) => pid | None => generatePlayerId uuid end).
  set (s2p := match reconnect with
              | Some (pid, _) =>
                  match playerToSocket s !! pid with
                  | Some oldSocketId =>
                      if bool_decide (oldSocketId ≠ "")
                         && bool_decide (oldSocketId ≠ socket)
                      then delete oldSocketId (socketToPlayer s)
                      else socketToPlayer s
                  | None => socketToPlayer s
                  end
              | None => socketToPlayer s
              end).
  assert (r.1 = pid ∧ socketToPlayer r.2 = <[socket := pid]> s2p
          ∧ playerToSocket r.2 = <[pid := socket]> (playerToSocket s))
    as (Hr1 & Hr2 & Hr3).
  { unfold r, onPlayerAuth. fold reconnect. unfold pid, s2p.
    destruct reconnect as [[pid' existing]|];
      cbn [fst snd players lobbies set_players socketToPlayer playerToSocket];
      rewrite lookup_insert_eq; cbn [currentLobbyId];
      try (destruct (currentLobbyId existing) as [lobbyId|]; [|done];
           case_bool_decide; [done|];
           destruct (lobbies s !! lobbyId); done); done. }
  assert (∀ sock q, s2p !! sock = Some q →
                    socketToPlayer s !! sock = Some q
                    ∧ (q = pid → sock = socket)) as Hs2p.
  { intros sock q. unfold s2p, pid. destruct reconnect as [[pid' existing]|].
    - destruct (playerToSocket s !! pid') as [old|] eqn:Hold.
      + destruct (bool_decide (old ≠ "") && bool_decide (old ≠ socket)) eqn:Hdel.
        * rewrite lookup_delete. destruct (decide (old = sock)) as [->|Hk]; [done|].
          intros Hq. split; [done|]. intros ->. apply Hbind in Hq. congruence.
        * intros Hq. split; [done|]. intros ->. pose proof (Hbind _ _ Hq) as Hq'.
          assert (sock = old) as -> by congruence.
          apply andb_false_iff in Hdel as [Hd|Hd]; apply bool_decide_eq_false in Hd.
          -- apply dec_stable in Hd. subst old. congruence.
          -- by apply dec_stable in Hd.
      + intros Hq. split; [done|]. intros ->. apply Hbind in Hq. congruence.
    - intros Hq. split; [done|]. intros ->. apply Hbind in Hq. congruence. }
  rewrite Hr1. split_and!.
  - split.
    + rewrite Hr2, lookup_insert_ne by done.
      destruct (s2p !! "") as [q|] eqn:Hq; [|done].
      apply Hs2p in Hq as [Hq _]. congruence.
    + intros sock q. rewrite Hr2, Hr3, lookup_insert.
      case_decide as Hk.
      * intros [= <-]. subst sock. by rewrite lookup_insert_eq.
      * intros Hq. apply Hs2p in Hq as [Hq Hpid]. rewrite lookup_insert.
        case_decide as Hk'; [by destruct Hk; symmetry; apply Hpid|].
        by apply Hbind.
  - by rewrite Hr2, lookup_insert_eq.
  - intros old Hold Hne. rewrite Hr2, lookup_insert_ne by done.
    revert Hold. unfold s2p, pid. destruct reconnect as [[pid' existing]|].
    + intros ->. destruct (decide (old = "")) as [->|Hold'].
      { rewrite bool_decide_eq_false_2 by (intros H; by apply H). exact Hempty. }
      rewrite !bool_decide_eq_true_2 by done. apply lookup_delete_eq.
    + congruence.
Qed.

End RegistryFacts.

(** ** The further properties on concrete lobbies *)

Section MoreOnExamples.
Import JS Lobby Examples.

(** In [midTurn] with the first seat out of lives, [nextTurn] moves the
    turn to the second seat. *)
Lemma nextTurn_skips_eliminated_witness :
  ∃ p', currentPlayer
          (nextTurn av 3000
             (set_players (<[O := set_lives (Num 0) activeSeat]> (players midTurn))
                midTurn)) = Some p'
        ∧ gt (lives p') (Num 0) = true.
Proof.
  apply (nextTurn_skips_eliminated av 3000
           (set_players (<[O := set_lives (Num 0) activeSeat]> (players midTurn))
              midTurn) O).
  - reflexivity.
  - vm_compute. lia.
  - vm_compute. repeat constructor; discriminate.
  - exists (set_wordsCompleted (Some (Num 0))
              (set_score (Some (Num 0)) (seat "player_2" "Beka" true))).
    split; [|reflexivity]. vm_compute. set_solver.
Defined.

(** The word accepted from the first player in [midTurn] is refused
    when the second player sends it in the next turn. *)
Lemma accepted_word_not_accepted_again_witness :
  ∃ reason,
    (Lobby.submitWord lowerBasic sampleEntries "player_2" (JStr bavshvi) 4000
       (fold_left (λ l o, Lobby.run lowerBasic sampleEntries o l)
          [OpSubmitWordLater av 3500]
          (Lobby.submitWord lowerBasic sampleEntries "player_1" (JStr bavshvi)
             2500 midTurn).2)).1
    = Failure reason.
Proof.
  apply (accepted_word_not_accepted_again lowerBasic sampleEntries "player_1"
           (JStr bavshvi) 2500 midTurn _ [OpSubmitWordLater av 3500] "player_2"
           (JStr bavshvi) 4000).
  - by vm_compute.
  - repeat constructor. intros syl t H. discriminate H.
  - reflexivity.
Defined.

(** Removing the second player of [midTurn] leaves no seat with that
    player's id. *)
Lemma seats_stay_distinct_witness :
  NoDup (player_id <$>
           players (Lobby.run lowerBasic sampleEntries
                      (OpRemovePlayer "player_2" 3000) midTurn))
  ∧ findIndex "player_2"
      (players (Lobby.run lowerBasic sampleEntries
                  (OpRemovePlayer "player_2" 3000) midTurn)) = None.
Proof.
  destruct (seats_stay_distinct lowerBasic sampleEntries
              (OpRemovePlayer "player_2" 3000) midTurn) as [Hnd Hgone].
  - apply (bool_decide_unpack _). by vm_compute.
  - split; [exact Hnd|]. by apply (Hgone "player_2" 3000).
Defined.

(** The creator of [waitingRoom] leaves: the lobby still names them as
    host although they hold no seat. *)
Lemma host_after_leave_and_return_witness :
  hostId (removePlayer "player_1" 3000 waitingRoom) = "player_1"
  ∧ findIndex "player_1" (players (removePlayer "player_1" 3000 waitingRoom))
    = None.
Proof.
  destruct (host_after_leave_and_return "player_1" 3000 waitingRoom)
    as (_ & _ & Hkeep & _).
  - by exists O.
  - split; [by apply Hkeep|reflexivity].
Defined.

(** The ranking of [midTurn]. *)
Lemma rankings_sorted_witness :
  rank <$> rankings midTurn = [1; 2]%nat
  ∧ StronglySorted ranks_before (rankings midTurn).
Proof.
  destruct (rankings_sorted midTurn) as (_ & Hrank & Hsorted).
  - vm_compute. repeat constructor; by eexists.
  - split; [by rewrite Hrank|exact Hsorted].
Defined.

(** The second player of [waitingRoom] drops and comes back. *)
Lemma disconnect_then_connect_witness :
  markConnected "player_2" (markDisconnected "player_2" 3000 waitingRoom)
  = waitingRoom.
Proof.
  destruct (disconnect_then_connect "player_2" 3000 waitingRoom 1
              (seat "player_2" "Beka" true)) as [_ Hsame];
    [reflexivity|reflexivity|].
  by apply Hsame.
Defined.

End MoreOnExamples.

Section RegistryOnExamples.
Import JS Server.

(** The server on which two sockets have each created a lobby keeps
    its registry in order when the first of them leaves; that player's
    lobby is then gone. *)
Lemma handlers_keep_registry_witness :
  lobbies_ok (lobbies (handle (λ _, NaN) (EvLobbyLeave "socketA" 3000) twoLobbies))
  ∧ lobbies (handle (λ _, NaN) (EvLobbyLeave "socketA" 3000) twoLobbies)
    !! "lobby-1" = None.
Proof.
  split; [|by vm_compute].
  apply (handlers_keep_registry (λ _, NaN) (EvLobbyLeave "socketA" 3000) twoLobbies).
  intros k l Hl. apply elem_of_map_to_list in Hl. vm_compute in Hl.
  apply elem_of_cons in Hl as [[= -> ->]|Hl]; [by split|].
  apply elem_of_cons in Hl as [[= -> ->]|Hl]; [by split|].
  by apply elem_of_nil in Hl.
Defined.

(** The first player of [twoLobbies] drops and authenticates again
    from another socket. *)
Lemma drop_then_auth_restores_seat_witness :
  (onPlayerAuth "socketC" (Some "player_11111111") JUndefined "33333333-cccc"
     (handleLeaveLobby "socketA" true 5000 twoLobbies)).1 = "player_11111111"
  ∧ lobbies
      (onPlayerAuth "socketC" (Some "player_11111111") JUndefined "33333333-cccc"
         (handleLeaveLobby "socketA" true 5000 twoLobbies)).2 !! "lobby-1"
    = lobbies twoLobbies !! "lobby-1"
  ∧ socketToPlayer
      (onPlayerAuth "socketC" (Some "player_11111111") JUndefined "33333333-cccc"
         (handleLeaveLobby "socketA" true 5000 twoLobbies)).2 !! "socketC"
    = Some "player_11111111".
Proof.
  destruct (drop_then_auth_restores_seat "socketA" "socketC" 5000 JUndefined
              "33333333-cccc" twoLobbies "player_11111111" "lobby-1"
              (Lobby.addPlayer "player_11111111" (JStr (lit "Ana")) (lit "A")
                 "#FF6B6B" 1000
                 (newLobby "lobby-1" sameDraws "player_11111111" (JStr (lit "Ana"))
                    (JStr (lit "room")) true 1000)).2
              O
              (Lobby.mkPlayer "player_11111111" (lit "Ana") (lit "A") "#FF6B6B"
                 (Num 3) true false [] 1000 None None None))
    as (Hid & Hlobby & Hsock & _).
  - by vm_compute.
  - by vm_compute.
  - by vm_compute.
  - split_and!; [exact Hid| |exact Hsock].
    rewrite Hlobby. by vm_compute.
Defined.

(** The first player of [twoLobbies] authenticates from a new socket
    while the old one is still bound: the old socket is bound no more. *)
Lemma auth_keeps_one_socket_per_player_witness :
  socketToPlayer
    (onPlayerAuth "socketC" (Some "player_11111111") JUndefined "33333333-cccc"
       twoLobbies).2 !! "socketA" = None
  ∧ socketToPlayer
      (onPlayerAuth "socketC" (Some "player_11111111") JUndefined "33333333-cccc"
         twoLobbies).2 !! "socketC" = Some "player_11111111".
Proof.
  destruct (auth_keeps_one_socket_per_player "socketC" (Some "player_11111111")
              JUndefined "33333333-cccc" twoLobbies) as (_ & Hnew & Hold).
  - split; [by vm_compute|]. intros socket playerId Hs.
    apply elem_of_map_to_list in Hs. vm_compute in Hs.
    apply elem_of_cons in Hs as [[= -> ->]|Hs]; [by vm_compute|].
    apply elem_of_cons in Hs as [[= -> ->]|Hs]; [by vm_compute|].
    by apply elem_of_nil in Hs.
  - done.
  - by vm_compute.
  - split; [apply Hold; [by vm_compute|done]|].
    rewrite Hnew. by vm_compute.
Defined.

End RegistryOnExamples.
